(** * pdf-mass-unlock: the unlock engine, embedded and verified

    A shallow embedding of [src/pdf_mass_unlock] (passwords.py, io_utils.py,
    unlocker.py, scanner.py, logging_utils.py, cli.py).  Python text is a
    list of Unicode code points, the filesystem is a finite map from paths
    to nodes, and code that raises or mutates the disk runs in a
    state-and-exception monad. *)

From Stdlib Require Import NArith List Ascii String Bool Lia.
From stdpp Require Import gmap list strings.

Local Open Scope N_scope.

(** ** Python text *)

(** A Python [str] is a sequence of code points. *)
Definition str := list N.

(** An ASCII literal of the source, as a [str]. *)
Definition py (s : string) : str :=
  map N_of_ascii (list_ascii_of_string s).
Arguments py : simpl never.

(** [str.isspace] for one code point: CPython's [_PyUnicode_IsWhitespace]
    table (bidirectional class WS, B or S, or general category Zs). *)
Definition isspace (c : N) : bool :=
  ((0x09 <=? c) && (c <=? 0x0D)) || ((0x1C <=? c) && (c <=? 0x20))
  || (c =? 0x85) || (c =? 0xA0) || (c =? 0x1680)
  || ((0x2000 <=? c) && (c <=? 0x200A))
  || (c =? 0x2028) || (c =? 0x2029) || (c =? 0x202F) || (c =? 0x205F)
  || (c =? 0x3000).

(** [s.lstrip(...)], [s.rstrip(...)], [s.strip(...)], generic in the set of
    characters that is stripped. *)
Fixpoint lstrip_by (drop : N -> bool) (s : str) : str :=
  match s with
  | c :: s' => if drop c then lstrip_by drop s' else s
  | [] => []
  end.

Definition rstrip_by (drop : N -> bool) (s : str) : str :=
  rev (lstrip_by drop (rev s)).

Definition strip_by (drop : N -> bool) (s : str) : str :=
  rstrip_by drop (lstrip_by drop s).

(** With no argument the three strip white space; with an argument they
    strip the characters of that argument. *)
Definition lstrip (s : str) : str := lstrip_by isspace s.
Definition strip (s : str) : str := strip_by isspace s.
Definition rstrip (chars s : str) : str :=
  rstrip_by (fun c => bool_decide (c ∈ chars)) s.

(** [s.startswith(prefix)]. *)
Fixpoint startswith (s prefix : str) : bool :=
  match prefix, s with
  | [], _ => true
  | p :: prefix', c :: s' => (c =? p) && startswith s' prefix'
  | _ :: _, [] => false
  end.

(** Truthiness of a [str]: the empty string is false. *)
Definition truthy (s : str) : bool :=
  match s with [] => false | _ :: _ => true end.

(** ** Paths *)

(** A [pathlib.Path], by its components: [parent / name]. *)
Inductive Path : Type :=
  | Root
  | Child (parent : Path) (name : str).

Declare Scope path_scope.
Delimit Scope path_scope with path.
Bind Scope path_scope with Path.
Notation "p // n" := (Child p n) (at level 40, left associativity).

(** [p.parent]: the root is its own parent. *)
Definition parent (p : Path) : Path :=
  match p with Root => Root | Child q _ => q end.

(** [p.name]: the last component, empty for the root. *)
Definition name (p : Path) : str :=
  match p with Root => [] | Child _ n => n end.

(** [p.with_name(n)]. *)
Definition with_name (p : Path) (n : str) : Path := parent p // n.

Fixpoint components (p : Path) : list str :=
  match p with Root => [] | Child q n => n :: components q end.

Fixpoint of_components (l : list str) : Path :=
  match l with [] => Root | n :: l' => Child (of_components l') n end.

Lemma of_components_components p : of_components (components p) = p.
Proof. induction p as [|q IH n]; simpl; [done | by rewrite IH]. Qed.

#[global] Instance Path_eq_dec : EqDecision Path.
Proof. solve_decision. Defined.

#[global] Instance Path_countable : Countable Path :=
  inj_countable' components of_components of_components_components.

(** * passwords.py *)

(** ** Library functions the module calls *)

(** [unicodedata.normalize(form, text)]. *)
Class Unicodedata : Type := {
  normalize : str -> str -> str;
}.

(** What the module sees of the wordlist file: [path.exists()], and the
    lines that iterating [path.open("r", encoding="utf-8-sig")] yields,
    each with its terminator.  Where opening or decoding the file
    raises, these are the lines read before the exception; the
    exception itself ends the generator, see [iter_passwords_generator]
    with cli.py. *)
Class TextFiles : Type := {
  path_exists : Path -> bool;
  open_lines : Path -> list str;
}.

(** ** The generator [iter_passwords] *)

(** The generator's local state: the [seen] set and what was yielded so
    far, in order. *)
Record gen : Type := Gen {
  seen : gset str;
  yielded : list (str * str);
}.

Definition gen_start : gen := {| seen := ∅; yielded := [] |}.

(** [if password not in seen: seen.add(password); yield (password, source)] *)
Definition yield_unseen (source password : str) (g : gen) : gen :=
  if bool_decide (password ∈ seen g) then g
  else {| seen := {[password]} ∪ seen g;
          yielded := yielded g ++ [(password, source)] |}.

Definition PDFMASSUNLOCK_PASSWORD : str := py "PDFMASSUNLOCK_PASSWORD".

(** The argument of [rstrip]: carriage return and line feed. *)
Definition CRLF : str := [0x0D; 0x0A].

(** One turn of the loop of [_iter_from_dictionary]: the password the
    line yields, or [None] when the line is skipped. *)
Definition password_of_line `{Unicodedata} (line : str) : option str :=
  let password := rstrip CRLF line in
  let password := normalize (py "NFKC") password in
  if negb (truthy (strip password)) then None
  else if startswith (lstrip password) (py "#") then None
  else Some password.

Definition _iter_from_dictionary `{Unicodedata} `{TextFiles}
    (dictionary_path : Path) : list str :=
  omap password_of_line (open_lines dictionary_path).

Definition iter_passwords `{Unicodedata} `{TextFiles}
    (single : option str) (dictionary_path : option Path)
    (env : option (gmap str str)) (try_empty : bool) : list (str * str) :=
  let g := gen_start in
  (* 1. Single password from CLI *)
  let g :=
    match single with
    | Some s => yield_unseen (py "single") s g
    | None => g
    end in
  (* 2. Dictionary file *)
  let g :=
    match dictionary_path with
    | Some p =>
        if path_exists p
        then fold_left (fun g password => yield_unseen (py "dictionary") password g)
                       (_iter_from_dictionary p) g
        else g
    | None => g
    end in
  (* 3. Environment variable *)
  let g :=
    match env with
    | Some m =>
        if bool_decide (m = ∅) then g
        else match m !! PDFMASSUNLOCK_PASSWORD with
             | Some env_password =>
                 if truthy env_password
                 then yield_unseen (py "environment") env_password g
                 else g
             | None => g
             end
    | None => g
    end in
  (* 4. Empty password if requested *)
  let g := if try_empty then yield_unseen (py "empty") [] g else g in
  yielded g.

(** * The machine the other modules run on *)

(** ** Exceptions *)

Inductive exn_class : Type :=
  | PasswordError       (* pikepdf.PasswordError *)
  | PdfError            (* pikepdf.PdfError *)
  | FileNotFoundError
  | FileExistsError
  | PermissionError
  | IsADirectoryError
  | NotADirectoryError
  | OSError
  | ValueError
  | UnicodeDecodeError
  | AttributeError
  | Exception.

(** A raised exception: its class and [str(e)]. *)
Record exn : Type := Exn {
  class_of : exn_class;
  str_of : str;
}.

(** [isinstance(e, pikepdf.PasswordError)]; every class above is caught
    by [except Exception]. *)
Definition is_PasswordError (e : exn) : bool :=
  match class_of e with PasswordError => true | _ => false end.

(** ** Computations that read and write a state and may raise *)

Inductive outcome (A : Type) : Type :=
  | Return (a : A)
  | Raise (e : exn).
Arguments Return {A} a.
Arguments Raise {A} e.

Definition M (S A : Type) : Type := S -> outcome A * S.

Definition ret {S A} (a : A) : M S A := fun s => (Return a, s).
Definition raise {S A} (e : exn) : M S A := fun s => (Raise e, s).

Definition bind {S A B} (m : M S A) (k : A -> M S B) : M S B :=
  fun s =>
    match m s with
    | (Return a, s') => k a s'
    | (Raise e, s') => (Raise e, s')
    end.

(** [try: m] with the exception, if any, handed to the caller as a value:
    what was written before the exception stays written. *)
Definition try {S A} (m : M S A) : M S (outcome A) :=
  fun s => let '(r, s') := m s in (Return r, s').

(** A call whose outcome does not touch the state. *)
Definition lift {S A} (r : outcome A) : M S A := fun s => (r, s).

Definition get {S} : M S S := fun s => (Return s, s).
Definition put {S} (s : S) : M S unit := fun _ => (Return tt, s).

Notation "x <- m ;; k" := (bind m (fun x => k))
  (at level 100, m at next level, right associativity).
Notation "m ;; k" := (bind m (fun _ => k))
  (at level 100, right associativity).

(** ** The filesystem *)

Definition bytes := list Byte.byte.

(** A regular file with its content, or a directory; each with its
    write permission for the running user, who owns every entry, can
    read them all and is not the superuser.  The disk is a finite map
    from paths to nodes, [gmap Path Node]. *)
Inductive Node : Type :=
  | File (content : bytes) (writable : bool)
  | Dir (writable : bool).

(** ** pathlib, os, shutil and tempfile on a POSIX disk *)

(** [str(path)]. *)
Fixpoint str_of_path (p : Path) : str :=
  match p with
  | Root => []
  | Child q n => str_of_path q ++ py "/" ++ n
  end.

(** [OSError(errno, strerror, filename)] as the interpreter words it. *)
Definition os_error (c : exn_class) (strerror : string) (p : Path) : exn :=
  {| class_of := c;
     str_of := py strerror ++ py ": '" ++ str_of_path p ++ py "'" |}.

Definition ENOENT (p : Path) : exn :=
  os_error FileNotFoundError "[Errno 2] No such file or directory" p.
Definition EACCES (p : Path) : exn :=
  os_error PermissionError "[Errno 13] Permission denied" p.
Definition EEXIST (p : Path) : exn :=
  os_error FileExistsError "[Errno 17] File exists" p.
Definition ENOTDIR (p : Path) : exn :=
  os_error NotADirectoryError "[Errno 20] Not a directory" p.
Definition EISDIR (p : Path) : exn :=
  os_error IsADirectoryError "[Errno 21] Is a directory" p.

(** [path.exists()]. *)
Definition exists_ (p : Path) : M (gmap Path Node) bool :=
  d <- get ;; ret (bool_decide (is_Some (d !! p))).

(** [os.access(path, os.W_OK)]: a directory or a file answers with its
    permission, a missing path is not writable. *)
Definition access_W_OK (p : Path) : M (gmap Path Node) bool :=
  d <- get ;;
  ret match d !! p with
      | Some (Dir writable) => writable
      | Some (File _ writable) => writable
      | None => false
      end.

(** What adding or removing the entry [p] needs: a writable directory
    above it. *)
Definition check_entry_change (p : Path) : M (gmap Path Node) unit :=
  d <- get ;;
  match d !! parent p with
  | Some (Dir true) => ret tt
  | Some (Dir false) => raise (EACCES p)
  | Some (File _ _) => raise (ENOTDIR p)
  | None => raise (ENOENT p)
  end.

(** [path.mkdir(exist_ok=True)]: the new directory is writable. *)
Definition mkdir_exist_ok (p : Path) : M (gmap Path Node) unit :=
  d <- get ;;
  match d !! p with
  | Some (Dir _) => ret tt
  | Some (File _ _) => raise (EEXIST p)
  | None => check_entry_change p ;; put (<[p := Dir true]> d)
  end.

(** [path.stat()]. *)
Definition stat (p : Path) : M (gmap Path Node) unit :=
  d <- get ;;
  match d !! p with
  | Some _ => ret tt
  | None => raise (ENOENT p)
  end.

(** [path.touch()]: an existing entry only has its times updated (its
    owner may, whatever its mode); a new file is writable. *)
Definition touch (p : Path) : M (gmap Path Node) unit :=
  d <- get ;;
  match d !! p with
  | Some _ => ret tt
  | None => check_entry_change p ;; put (<[p := File [] true]> d)
  end.

(** [path.unlink(missing_ok=...)]. *)
Definition unlink (missing_ok : bool) (p : Path) : M (gmap Path Node) unit :=
  d <- get ;;
  match d !! p with
  | Some (File _ _) => check_entry_change p ;; put (delete p d)
  | Some (Dir _) => raise (EISDIR p)
  | None => if missing_ok then ret tt else raise (ENOENT p)
  end.

(** Where [shutil.copy2(src, dst)] writes: into [dst / src.name] when
    [dst] is a directory. *)
Definition copy_target (d : gmap Path Node) (src dst : Path) : Path :=
  match d !! dst with Some (Dir _) => dst // name src | _ => dst end.

(** [shutil.copy2(src, dst)]: [copyfile] opens the destination for
    writing, which an existing file without write permission refuses; a
    writable one is truncated and rewritten.  Then [copystat] gives the
    copy the mode of the source. *)
Definition copy2 (src dst : Path) : M (gmap Path Node) unit :=
  d <- get ;;
  let dst := copy_target d src dst in
  match d !! src with
  | None => raise (ENOENT src)
  | Some (Dir _) => raise (EISDIR src)
  | Some (File content mode) =>
      match d !! dst with
      | Some (Dir _) => raise (EISDIR dst)
      | Some (File _ true) => put (<[dst := File content mode]> d)
      | Some (File _ false) => raise (EACCES dst)
      | None => check_entry_change dst ;; put (<[dst := File content mode]> d)
      end
  end.

(** [os.replace(src, dst)]: one rename; the entry [src] is gone and
    [dst] is what [src] was, content and mode. *)
Definition os_replace (src dst : Path) : M (gmap Path Node) unit :=
  d <- get ;;
  match d !! src with
  | None => raise (ENOENT src)
  | Some (Dir _) => raise (EISDIR src)
  | Some (File content mode) =>
      match d !! dst with
      | Some (Dir _) => raise (EISDIR dst)
      | _ =>
          check_entry_change src ;; check_entry_change dst ;;
          put (<[dst := File content mode]> (delete src d))
      end
  end.

(** What the disk decides on its own: the name [tempfile] draws for a
    new file in a directory, and whether [flush] and [os.fsync] of a file
    with a given content fail (a full or faulty device). *)
Class Device : Type := {
  temp_name : gmap Path Node -> Path -> str -> str;
  flush_fault : Path -> bytes -> option exn;
  fsync_fault : Path -> bytes -> option exn;
}.

(** [tempfile.NamedTemporaryFile(mode="wb", dir=dir, delete=False,
    suffix=suffix)]: the file is created exclusively, so a name that is
    taken is never opened; its owner can write it. *)
Definition NamedTemporaryFile `{Device} (dir : Path) (suffix : str)
    : M (gmap Path Node) Path :=
  d <- get ;;
  let p := dir // temp_name d dir suffix in
  match d !! p with
  | Some _ => raise (EEXIST p)
  | None => check_entry_change p ;; put (<[p := File [] true]> d) ;; ret p
  end.

(** [f.write(data)] on the file object of the path [p]. *)
Definition write (p : Path) (data : bytes) : M (gmap Path Node) unit :=
  d <- get ;;
  match d !! p with
  | Some (File content mode) => put (<[p := File (content ++ data) mode]> d)
  | _ => ret tt
  end.

Definition content_of (d : gmap Path Node) (p : Path) : bytes :=
  match d !! p with Some (File content _) => content | _ => [] end.

(** [f.flush()] and [os.fsync(f.fileno())]. *)
Definition flush `{Device} (p : Path) : M (gmap Path Node) unit :=
  d <- get ;;
  match flush_fault p (content_of d p) with
  | Some e => raise e
  | None => ret tt
  end.

Definition fsync `{Device} (p : Path) : M (gmap Path Node) unit :=
  d <- get ;;
  match fsync_fault p (content_of d p) with
  | Some e => raise e
  | None => ret tt
  end.

(** * io_utils.py *)

Definition ensure_backup (src : Path) (backup_dir_name : str)
    : M (gmap Path Node) Path :=
  let backup_dir := parent src // backup_dir_name in
  mkdir_exist_ok backup_dir ;;
  ret backup_dir.

Definition validate_backup_path_no_side_effects (src : Path)
    (backup_dir_name : str) : M (gmap Path Node) Path :=
  let backup_dir := parent src // backup_dir_name in
  let backup_path := backup_dir // name src in
  (* Check if backup directory already exists and is writable *)
  e <- exists_ backup_dir ;;
  (if e : bool then
     a <- access_W_OK backup_dir ;;
     if a : bool then ret tt
     else raise {| class_of := PermissionError;
                   str_of := py "Backup directory exists but is not writable: "
                             ++ str_of_path backup_dir |}
   else
     (* Check if we can create the backup directory by checking parent
        directory permissions *)
     let parent_dir := parent src in
     a <- access_W_OK parent_dir ;;
     if a : bool then ret tt
     else raise {| class_of := PermissionError;
                   str_of := py "Parent directory is not writable: "
                             ++ str_of_path parent_dir |}) ;;
  ret backup_path.

Definition validate_backup_path (src : Path) (backup_dir_name : str)
    : M (gmap Path Node) Path :=
  (* Create backup directory, potentially failing with permissions *)
  backup_dir <- ensure_backup src backup_dir_name ;;
  let backup_path := backup_dir // name src in
  (* try: ... except OSError as e: raise e *)
  (e <- exists_ backup_path ;;
   (if e : bool then stat backup_path else ret tt) ;;
   let test_path := with_name backup_path (name backup_path ++ py ".tmp_test") in
   touch test_path ;;
   unlink false test_path) ;;
  ret backup_path.

Definition copy_backup (src : Path) (backup_dir_name : str)
    : M (gmap Path Node) Path :=
  backup_dir <- ensure_backup src backup_dir_name ;;
  let backup_path := backup_dir // name src in
  (* Use copy2 to preserve metadata *)
  copy2 src backup_path ;;
  ret backup_path.

(** The body of a [with atomic_write(...) as f:] block: what it writes
    to [f], in order, and the exception it ends with, if any. *)
Record producer : Type := Producer {
  chunks : list bytes;
  raises : option exn;
}.

Fixpoint write_all (f : Path) (l : list bytes) : M (gmap Path Node) unit :=
  match l with
  | [] => ret tt
  | data :: l' => write f data ;; write_all f l'
  end.

Definition produce (body : producer) (f : Path) : M (gmap Path Node) unit :=
  write_all f (chunks body) ;;
  match raises body with
  | Some e => raise e
  | None => ret tt
  end.

(** What runs between the creation of the temporary file and the end of
    the [try] block: the body, then flush and sync. *)
Definition produce_and_sync `{Device} (body : producer) (tmp_file : Path)
    : M (gmap Path Node) unit :=
  produce body tmp_file ;;
  flush tmp_file ;;
  fsync tmp_file.

(** [with atomic_write(filepath) as f: body]. *)
Definition atomic_write `{Device} (filepath : Path) (body : producer)
    : M (gmap Path Node) unit :=
  (* Create a temporary file in the same directory as the target *)
  temp_path <- NamedTemporaryFile (parent filepath) (py ".tmp") ;;
  r <- try (produce_and_sync body temp_path) ;;
  match r with
  | Raise e =>
      (* If an exception occurs, cleanup the temporary file *)
      unlink true temp_path ;;
      raise e
  | Return _ =>
      (* Replace the target file with the temporary file atomically *)
      os_replace temp_path filepath
  end.

(** * unlocker.py *)

(** [pikepdf]: what parsing a file's bytes with a password (or with
    none) gives, a document or an exception, [PasswordError] among them;
    and what [pdf.save(f)] writes to [f]. *)
Class Pikepdf : Type := {
  Pdf : Type;
  pdf_parse : bytes -> option str -> outcome Pdf;
  pdf_save : Pdf -> producer;
}.

(** The state a call of the unlocker runs in: the disk, and the journal
    of the [pikepdf.open] calls made so far (path and password, oldest
    first). *)
Record World : Type := MkWorld {
  fs : gmap Path Node;
  opens : list (Path * option str);
}.

(** A disk operation, run in the world: the journal is not its
    business. *)
Definition on_disk {A} (m : M (gmap Path Node) A) : M World A :=
  fun w => let '(r, d) := m (fs w) in (r, {| fs := d; opens := opens w |}).

(** What [pikepdf.open] gives on the disk [d]. *)
Definition open_on `{Pikepdf} (d : gmap Path Node) (filepath : Path)
    (password : option str) : outcome Pdf :=
  match d !! filepath with
  | Some (File content _) => pdf_parse content password
  | Some (Dir _) => Raise (EISDIR filepath)
  | None => Raise (ENOENT filepath)
  end.

Definition journal (w : World) (filepath : Path) (password : option str) : World :=
  {| fs := fs w; opens := opens w ++ [(filepath, password)] |}.

(** [pikepdf.open(filepath)] and [pikepdf.open(filepath, password=...)];
    every call is entered in the journal. *)
Definition pikepdf_open `{Pikepdf} (filepath : Path) (password : option str)
    : M World Pdf :=
  fun w => (open_on (fs w) filepath password, journal w filepath password).

Inductive UnlockStatus : Type :=
  | UNCHANGED   (* File was already unlocked *)
  | UNLOCKED    (* File was locked but successfully unlocked *)
  | FAILED.     (* File was locked but unlock failed *)

Record UnlockResult : Type := MkUnlockResult {
  file_path : Path;
  status : UnlockStatus;
  error_message : option str;
  method_used : option str;
}.

Definition is_pdf_encrypted `{Pikepdf} (filepath : Path) : M World bool :=
  r <- try (pikepdf_open filepath None) ;;
  match r with
  | Return _ =>
      (* If we can open it without a password, it's not encrypted *)
      ret false
  | Raise e =>
      if is_PasswordError e then ret true
      else
        (* any other error (parsing/IO issues): assume it's encrypted *)
        ret true
  end.

Definition already_unlocked (filepath : Path) : UnlockResult :=
  {| file_path := filepath; status := UNCHANGED;
     error_message := None; method_used := Some (py "already_unlocked") |}.

Definition check_failed (filepath : Path) (e : exn) : UnlockResult :=
  {| file_path := filepath; status := FAILED;
     error_message := Some (py "Error checking if PDF is encrypted: " ++ str_of e);
     method_used := None |}.

Definition backup_failed (filepath : Path) (e : exn) : UnlockResult :=
  {| file_path := filepath; status := FAILED;
     error_message := Some (py "Failed to create backup: " ++ str_of e);
     method_used := None |}.

Definition unlocked (filepath : Path) (source : str) : UnlockResult :=
  {| file_path := filepath; status := UNLOCKED;
     error_message := None; method_used := Some source |}.

Definition processing_failed (filepath : Path) (e : exn) : UnlockResult :=
  {| file_path := filepath; status := FAILED;
     error_message := Some (py "Error processing PDF with password: " ++ str_of e);
     method_used := None |}.

Definition all_failed (filepath : Path) : UnlockResult :=
  {| file_path := filepath; status := FAILED;
     error_message := Some (py "All passwords failed");
     method_used := None |}.

(** The first [try] block of [unlock_file] and of [try_unlock_dry_run]:
    [Some result] when the function returns there. *)
Definition check_already_unlocked `{Pikepdf} (filepath : Path)
    : M World (option UnlockResult) :=
  r <- try (is_pdf_encrypted filepath) ;;
  match r with
  | Return false => ret (Some (already_unlocked filepath))
  | Return true => ret None
  | Raise e => ret (Some (check_failed filepath e))
  end.

(** What a [for] loop draws from an iterable of passwords: the pairs
    it yields, and the exception that ends the iteration where the
    iterator raises one instead of stopping. *)
Record Iteration : Type := MkIteration {
  yields : list (str * str);
  breaks : option exn;
}.

(** [passwords: Iterable[tuple[str, str]]].  A list gives the same
    pairs whenever it is iterated; a generator object has not run a
    line of its body when the unlocker is handed it, and what it yields
    is decided by the disk it finds once the loop starts it.  That disk
    is still the one the generator reads later on: the loop goes on
    only past candidates that were rejected, and those leave the disk
    as it was. *)
Definition Iterable : Type := gmap Path Node -> Iteration.

(** A list of pairs as an iterable. *)
Definition of_list (l : list (str * str)) : Iterable :=
  fun _ => {| yields := l; breaks := None |}.

(** The [for password, source in passwords] loop of [unlock_file], on
    what is left to draw: the pairs [passwords], then the end [breaks].
    An exception of the iterator is raised by the [for] statement
    itself, outside the [try] of the loop's body. *)
Fixpoint unlock_trials `{Pikepdf} `{Device} (filepath : Path)
    (passwords : list (str * str)) (breaks : option exn) : M World UnlockResult :=
  match passwords with
  | [] =>
      match breaks with
      | Some e => raise e
      | None =>
          (* If we get here, no password worked *)
          ret (all_failed filepath)
      end
  | (password, source) :: rest =>
      r <- try (pdf_file <- pikepdf_open filepath (Some password) ;;
                (* If successful, save the unlocked PDF atomically *)
                on_disk (atomic_write filepath (pdf_save pdf_file))) ;;
      match r with
      | Return _ => ret (unlocked filepath source)
      | Raise e =>
          if is_PasswordError e then unlock_trials filepath rest breaks
          else ret (processing_failed filepath e)
      end
  end.

(** The body of the second [try] block of [unlock_file]. *)
Definition create_backup (filepath : Path) (backup_dir_name : str)
    : M (gmap Path Node) Path :=
  validate_backup_path filepath backup_dir_name ;;
  (* Actually create the backup *)
  copy_backup filepath backup_dir_name.

(** [unlock_file] from its second [try] block on. *)
Definition unlock_encrypted `{Pikepdf} `{Device} (filepath : Path)
    (passwords : Iterable) (backup_dir_name : str) : M World UnlockResult :=
  b <- try (on_disk (create_backup filepath backup_dir_name)) ;;
  match b with
  | Raise e => ret (backup_failed filepath e)
  | Return _ =>
      (* Try each password *)
      d <- on_disk get ;;
      unlock_trials filepath (yields (passwords d)) (breaks (passwords d))
  end.

Definition unlock_file `{Pikepdf} `{Device} (filepath : Path)
    (passwords : Iterable) (backup_dir_name : str) : M World UnlockResult :=
  c <- check_already_unlocked filepath ;;
  match c with
  | Some result => ret result
  | None => unlock_encrypted filepath passwords backup_dir_name
  end.

(** The loop of [try_unlock_dry_run]. *)
Fixpoint dry_run_trials `{Pikepdf} (filepath : Path)
    (passwords : list (str * str)) (breaks : option exn) : M World UnlockResult :=
  match passwords with
  | [] =>
      match breaks with
      | Some e => raise e
      | None => ret (all_failed filepath)
      end
  | (password, source) :: rest =>
      r <- try (pikepdf_open filepath (Some password)) ;;
      match r with
      | Return _ => ret (unlocked filepath source)
      | Raise e =>
          if is_PasswordError e then dry_run_trials filepath rest breaks
          else ret (processing_failed filepath e)
      end
  end.

(** [try_unlock_dry_run] from its second [try] block on. *)
Definition dry_run_encrypted `{Pikepdf} (filepath : Path)
    (passwords : Iterable) (backup_dir_name : str) : M World UnlockResult :=
  b <- try (on_disk (validate_backup_path_no_side_effects filepath backup_dir_name)) ;;
  match b with
  | Raise e => ret (backup_failed filepath e)
  | Return _ =>
      (* Try each password (without actually modifying the file) *)
      d <- on_disk get ;;
      dry_run_trials filepath (yields (passwords d)) (breaks (passwords d))
  end.

Definition try_unlock_dry_run `{Pikepdf} (filepath : Path)
    (passwords : Iterable) (backup_dir_name : str) : M World UnlockResult :=
  c <- check_already_unlocked filepath ;;
  match c with
  | Some result => ret result
  | None => dry_run_encrypted filepath passwords backup_dir_name
  end.

(** * scanner.py *)

(** [str.lower], the interpreter's Unicode lower-casing. *)
Class Unicodecase : Type := {
  lower : str -> str;
}.

(** [s.rfind(c)] for one character [c]: the last index where it
    occurs, [None] where Python answers -1. *)
Fixpoint rfind (c : N) (s : str) : option nat :=
  match s with
  | [] => None
  | x :: s' =>
      match rfind c s' with
      | Some i => Some (S i)
      | None => if x =? c then Some 0%nat else None
      end
  end.

(** [PurePath.suffix], from the final component [name]:
    [i = name.rfind('.')], then [name[i:]] if [0 < i < len(name) - 1]
    and the empty string otherwise. *)
Definition suffix (name : str) : str :=
  match rfind 0x2E name with
  | Some i =>
      if (0 <? i)%nat && (i <? length name - 1)%nat then drop i name else []
  | None => []
  end.

(** The entry [p] lies directly in the directory [root]. *)
Definition is_child_of (root p : Path) : bool :=
  match p with
  | Root => false
  | Child q _ => bool_decide (q = root)
  end.

(** [root.iterdir()] on a directory: its entries.  The order of a
    listing is the file system's own; the order of the map's keys
    stands for it. *)
Definition iterdir (d : gmap Path Node) (root : Path) : list Path :=
  List.filter (is_child_of root) (elements (dom d)).

(** The depth of the deepest entry of the disk. *)
Definition deepest (d : gmap Path Node) : nat :=
  max_list ((fun p => length (components p)) <$> elements (dom d)).

Module scanner.

(** The generator [find_pdfs], run to its end on a directory, with the
    nesting of its recursive calls bounded by [fuel]. *)
Fixpoint walk `{Unicodecase} (fuel : nat) (d : gmap Path Node) (root : Path)
    (backup_dir_name : str) : list Path :=
  match fuel with
  | O => []
  | S fuel' =>
      flat_map
        (fun item =>
           match d !! item with
           | Some (Dir _) =>
               (* Skip if it's a directory with the backup name *)
               if bool_decide (name item = backup_dir_name) then []
               (* If it's a subdirectory, recurse into it *)
               else walk fuel' d item backup_dir_name
           | Some (File _ _) =>
               (* If it's a file with .pdf extension (case-insensitive),
                  yield it *)
               if bool_decide (lower (suffix (name item)) = py ".pdf")
               then [item] else []
           | None => []
           end)
        (iterdir d root)
  end.

(** [list(find_pdfs(root, backup_dir_name))]: [iterdir] raises when
    [root] is missing or is not a directory (directories are taken to
    be readable, and the disk has no links); no directory of the disk
    is nested deeper than the deepest entry, which bounds the
    recursion. *)
Definition find_pdfs `{Unicodecase} (d : gmap Path Node) (root : Path)
    (backup_dir_name : str) : outcome (list Path) :=
  match d !! root with
  | Some (Dir _) => Return (walk (S (deepest d)) d root backup_dir_name)
  | Some (File _ _) => Raise (ENOTDIR root)
  | None => Raise (ENOENT root)
  end.

End scanner.

(** * logging_utils.py *)

(** The [logging] module: the exception that
    [logger.setLevel(getattr(logging, level.upper()))] raises when the
    text [level] does not name a level, [None] when it does. *)
Class Logging : Type := {
  setLevel_fault : str -> option exn;
}.

(** [get_logger(name, level)]: the logger goes to the console only;
    the call matters here by the exception it can raise.  The handler's
    [setLevel] gets the same level after the logger's. *)
Definition get_logger `{Logging} {S} (name level : str) : M S unit :=
  match setLevel_fault level with
  | Some e => raise e
  | None => ret tt
  end.

(** [mask(value)]: the empty string for a false value, else
    ["*" * len(value)]. *)
Definition mask (value : str) : str :=
  if negb (truthy value) then []
  else concat (replicate (length value) (py "*")).

(** * cli.py *)

(** What the module writes to the log, the progress display and the
    summary table goes to the console only and is left out. *)

(** The counters of [process_pdfs]. *)
Record counts : Type := Counts {
  processed : nat;
  unlocked_count : nat;
  failed : nat;
  unchanged : nat;
}.

(** "Update counts and log", then [processed += 1]. *)
Definition count_result (result : UnlockResult) (c : counts) : counts :=
  let c :=
    match status result with
    | UNLOCKED =>
        {| processed := processed c; unlocked_count := S (unlocked_count c);
           failed := failed c; unchanged := unchanged c |}
    | UNCHANGED =>
        {| processed := processed c; unlocked_count := unlocked_count c;
           failed := failed c; unchanged := S (unchanged c) |}
    | FAILED =>
        {| processed := processed c; unlocked_count := unlocked_count c;
           failed := S (failed c); unchanged := unchanged c |}
    end in
  {| processed := S (processed c); unlocked_count := unlocked_count c;
     failed := failed c; unchanged := unchanged c |}.

(** One turn of the loop of [process_pdfs], up to its result. *)
Definition process_one `{Pikepdf} `{Device}
    (password_factory : M World Iterable) (backup_dir_name : str)
    (dry_run : bool) (pdf_path : Path) : M World UnlockResult :=
  if dry_run then
    (* Get a fresh password iterator for each file *)
    password_iter <- password_factory ;;
    try_unlock_dry_run pdf_path password_iter backup_dir_name
  else
    password_iter <- password_factory ;;
    unlock_file pdf_path password_iter backup_dir_name.

Fixpoint process_loop `{Pikepdf} `{Device} (pdf_files : list Path)
    (password_factory : M World Iterable) (backup_dir_name : str)
    (dry_run : bool) (c : counts) : M World counts :=
  match pdf_files with
  | [] => ret c
  | pdf_path :: rest =>
      result <- process_one password_factory backup_dir_name dry_run pdf_path ;;
      process_loop rest password_factory backup_dir_name dry_run
                   (count_result result c)
  end.

Definition process_pdfs `{Pikepdf} `{Device} (pdf_files : list Path)
    (password_factory : M World Iterable) (backup_dir_name : str)
    (dry_run : bool) : M World counts :=
  process_loop pdf_files password_factory backup_dir_name dry_run
    {| processed := 0; unlocked_count := 0; failed := 0; unchanged := 0 |}.

(** What [main] takes from outside the package: [os.environ],
    [Path(text)] for the current directory, [base / other], and what
    reading a file's bytes as text gives with [encoding="utf-8-sig"]:
    the lines handed over, each with its terminator, and the
    [UnicodeDecodeError] that follows them where the bytes are not
    UTF-8. *)
Class Shell : Type := {
  os_environ : gmap str str;
  Path_of : str -> Path;
  joinpath : Path -> Path -> Path;
  decode_lines : bytes -> list str * option exn;
}.

(** The wordlist as the disk [d] holds it: the lines read from it. *)
Definition text_files `{Shell} (d : gmap Path Node) : TextFiles :=
  {| path_exists := fun p => bool_decide (is_Some (d !! p));
     open_lines := fun p =>
       match d !! p with
       | Some (File content _) => (decode_lines content).1
       | _ => []
       end |}.

(** What reading the wordlist raises on the disk [d]:
    [dictionary_path.open("r", ...)] on a directory, or the decoding of
    the file's bytes. *)
Definition wordlist_fault `{Shell} (d : gmap Path Node)
    (dictionary_path : option Path) : option exn :=
  match dictionary_path with
  | Some p =>
      match d !! p with
      | Some (Dir _) => Some (EISDIR p)
      | Some (File content _) => (decode_lines content).2
      | None => None
      end
  | None => None
  end.

(** The generator object that the call [iter_passwords(...)] returns.
    Started on the disk [d], it yields what the body of
    [iter_passwords] yields there; when reading the wordlist raises, the
    exception ends it after the single password and the lines read so
    far, before the environment and the empty password are looked
    at. *)
Definition iter_passwords_generator `{Unicodedata} `{Shell}
    (single : option str) (dictionary_path : option Path)
    (env : option (gmap str str)) (try_empty : bool) : Iterable :=
  fun d =>
    match wordlist_fault d dictionary_path with
    | Some e =>
        {| yields := @iter_passwords _ (text_files d) single dictionary_path
                       None false;
           breaks := Some e |}
    | None =>
        {| yields := @iter_passwords _ (text_files d) single dictionary_path
                       env try_empty;
           breaks := None |}
    end.

(** The options of a command line that typer has parsed, one without
    [--help] and [--version], which end the run before the body of
    [main] is entered. *)
Record Options : Type := MkOptions {
  opt_path : option Path;
  opt_password : option str;
  opt_dictionary : str;
  opt_try_empty : bool;
  opt_backup_dir_name : str;
  opt_backup_root : option Path;
  opt_dry_run : bool;
  opt_summary : bool;
  opt_log_level : str;
}.

(** The closure [password_factory] of [main]: the wordlist's path is
    settled when the factory is called, the generator it returns has
    not started. *)
Definition password_factory `{Unicodedata} `{Shell} (o : Options) (path : Path)
    : M World Iterable :=
  let dictionary_path :=
    if truthy (opt_dictionary o) then Some (Path_of (opt_dictionary o)) else None in
  final_dict_path <-
    match dictionary_path with
    | Some dp =>
        e <- on_disk (exists_ dp) ;;
        if e : bool then ret (Some dp)
        else
          (* If relative path doesn't exist from CWD, try relative to scan root *)
          let scan_relative_path := joinpath path dp in
          e' <- on_disk (exists_ scan_relative_path) ;;
          if e' : bool then ret (Some scan_relative_path) else ret None
    | None => ret None
    end ;;
  ret (iter_passwords_generator (opt_password o) final_dict_path
         (Some os_environ) (opt_try_empty o)).

(** [typer.Option(None, "--path", exists=True, file_okay=False,
    dir_okay=True)]: a path given on the command line has to be an
    existing directory, or the run ends as a usage error. *)
Definition is_existing_directory (d : gmap Path Node) (path : Path) : bool :=
  match d !! path with
  | Some (Dir _) => true
  | _ => false
  end.

(** [main], by the exit code it raises [typer.Exit] with; typer turns a
    usage error into the code 2.  An exception that [main] does not
    catch leaves it, [Raise e]. *)
Definition main `{Unicodedata} `{Unicodecase} `{Logging} `{Shell} `{Pikepdf}
    `{Device} (o : Options) : M World N :=
  match opt_path o with
  | None =>
      (* "Error: --path is required" *)
      ret 2
  | Some path =>
      d <- on_disk get ;;
      if negb (is_existing_directory d path) then ret 2
      else
        (* Get logger *)
        get_logger (py "pdf_mass_unlock.cli") (opt_log_level o) ;;
        (* Find PDF files *)
        pdf_files <- lift (scanner.find_pdfs d path (py "pdf_with_password")) ;;
        match pdf_files with
        | [] => ret 0
        | _ :: _ =>
            (* Handle deprecated --backup-root option *)
            let backup_dir_name :=
              match opt_backup_root o with
              | Some backup_root => name backup_root
              | None => opt_backup_dir_name o
              end in
            (* Process files *)
            c <- process_pdfs pdf_files (password_factory o path)
                              backup_dir_name (opt_dry_run o) ;;
            (* Determine exit code *)
            let exit_code := if Nat.eqb (failed c) 0 then 0 else 1 in
            ret exit_code
        end
  end.

(** The status the process ends with: the code of [typer.Exit], and 1
    when an exception is not caught. *)
Definition exit_status (r : outcome N) : N :=
  match r with
  | Return code => code
  | Raise _ => 1
  end.

(** * What the claims speak of *)

(** ** Credential sources, as the specification lists them *)

Definition from_single (single : option str) : list (str * str) :=
  match single with Some s => [(s, py "single")] | None => [] end.

Definition from_dictionary `{Unicodedata} `{TextFiles}
    (dictionary_path : option Path) : list (str * str) :=
  match dictionary_path with
  | Some p =>
      if path_exists p
      then map (fun s => (s, py "dictionary")) (_iter_from_dictionary p)
      else []
  | None => []
  end.

(** The value of the recognised variable, when the environment has it. *)
Definition env_value (env : option (gmap str str)) : option str :=
  match env with
  | Some m => m !! PDFMASSUNLOCK_PASSWORD
  | None => None
  end.

(** The environment as a source when every value it holds counts. *)
Definition from_environment_any (env : option (gmap str str)) : list (str * str) :=
  match env_value env with
  | Some v => [(v, py "environment")]
  | None => []
  end.

(** The environment as a source when only a non-empty value counts. *)
Definition from_environment (env : option (gmap str str)) : list (str * str) :=
  match env_value env with
  | Some v => if truthy v then [(v, py "environment")] else []
  | None => []
  end.

Definition from_empty (try_empty : bool) : list (str * str) :=
  if try_empty then [([], py "empty")] else [].

(** First origin wins: a candidate stays exactly when no candidate before
    it has its secret; [earlier] holds the secrets met so far. *)
Fixpoint first_wins_after (earlier : list str) (l : list (str * str))
    : list (str * str) :=
  match l with
  | [] => []
  | (secret, origin) :: l' =>
      (if bool_decide (secret ∈ earlier) then [] else [(secret, origin)])
      ++ first_wins_after (earlier ++ [secret]) l'
  end.

Definition first_wins (l : list (str * str)) : list (str * str) :=
  first_wins_after [] l.

(** The sequence the specification describes, every environment value
    counted as a credential. *)
Definition specified_sequence `{Unicodedata} `{TextFiles}
    (single : option str) (dictionary_path : option Path)
    (env : option (gmap str str)) (try_empty : bool) : list (str * str) :=
  first_wins (from_single single ++ from_dictionary dictionary_path
              ++ from_environment_any env ++ from_empty try_empty).

(** The candidates the code draws from. *)
Definition candidates `{Unicodedata} `{TextFiles}
    (single : option str) (dictionary_path : option Path)
    (env : option (gmap str str)) (try_empty : bool) : list (str * str) :=
  from_single single ++ from_dictionary dictionary_path
  ++ from_environment env ++ from_empty try_empty.

(** The generator fed a list of candidates. *)
Definition feed (g : gen) (l : list (str * str)) : gen :=
  fold_left (fun g c => yield_unseen c.2 c.1 g) l g.

(** ** Wordlist lines, as the specification reads them *)

(** A line without its terminators, normalised to [form]. *)
Definition text_of_line `{Unicodedata} (form line : str) : str :=
  normalize form (rstrip CRLF line).

(** Blank: nothing but white space.  Comment: [#] first after any
    leading white space. *)
Definition is_blank (text : str) : bool := forallb isspace text.
Definition is_comment (text : str) : bool := startswith (lstrip text) (py "#").

Definition is_password (text : str) : bool :=
  negb (is_blank text) && negb (is_comment text).

(** The wordlist candidates when lines are normalised to [form]. *)
Definition wordlist_in_form `{Unicodedata} `{TextFiles} (form : str)
    (dictionary_path : Path) : list str :=
  List.filter is_password
    (map (text_of_line form) (open_lines dictionary_path)).

(** ** The mutating steps of [unlock_file] *)

(** Every atomic save that the loop of [unlock_file] reaches on the disk
    [d] returns: the loop stops at the first password the document
    opens with, or at the first error that is not a wrong password. *)
Fixpoint saves_succeed `{Pikepdf} `{Device} (filepath : Path)
    (passwords : list (str * str)) (d : gmap Path Node) : bool :=
  match passwords with
  | [] => true
  | (password, _) :: rest =>
      match open_on d filepath (Some password) with
      | Return pdf_file =>
          match atomic_write filepath (pdf_save pdf_file) d with
          | (Return _, _) => true
          | (Raise _, _) => false
          end
      | Raise e =>
          if is_PasswordError e then saves_succeed filepath rest d else true
      end
  end.

(** Every mutating step that [unlock_file] reaches returns: the backup,
    when the file does not open without a password, and then the
    saves. *)
Definition mutations_succeed `{Pikepdf} `{Device} (filepath : Path)
    (passwords : list (str * str)) (backup_dir_name : str)
    (d : gmap Path Node) : bool :=
  match open_on d filepath None with
  | Return _ => true
  | Raise _ =>
      match create_backup filepath backup_dir_name d with
      | (Return _, d1) => saves_succeed filepath passwords d1
      | (Raise _, _) => false
      end
  end.

(** The results that [unlock_file] and [try_unlock_dry_run] build once
    the classification is over. *)
Inductive later_result (filepath : Path) : UnlockResult -> Prop :=
  | later_backup_failed e : later_result filepath (backup_failed filepath e)
  | later_unlocked source : later_result filepath (unlocked filepath source)
  | later_processing_failed e : later_result filepath (processing_failed filepath e)
  | later_all_failed : later_result filepath (all_failed filepath).

(** ** The results behind the counters of [process_pdfs] *)



(** ** Libraries at work in the examples *)

(** Compatibility decompositions of UnicodeData.txt for a few characters
    that have no canonical decomposition and take part in no
    composition: NO-BREAK SPACE, SUPERSCRIPT TWO, CIRCLED DIGIT ONE,
    LATIN SMALL LIGATURE FI, FULLWIDTH LATIN CAPITAL LETTER A. *)
Definition compatibility (c : N) : str :=
  if c =? 0xA0 then [0x20]
  else if c =? 0xB2 then [0x32]
  else if c =? 0x2460 then [0x31]
  else if c =? 0xFB01 then [0x66; 0x69]
  else if c =? 0xFF21 then [0x41]
  else [c].

(** [unicodedata.normalize] on text made of ASCII characters and of the
    characters above: the canonical forms leave it as it is, the
    compatibility forms replace each character by its decomposition. *)
Definition unicodedata_fragment : Unicodedata :=
  {| normalize := fun form text =>
       if bool_decide (form = py "NFKC") || bool_decide (form = py "NFKD")
       then flat_map compatibility text
       else text |}.

(** A disk view with one text file. *)
Definition one_text_file (file : Path) (lines : list str) : TextFiles :=
  {| path_exists := fun p => bool_decide (p = file);
     open_lines := fun p => if bool_decide (p = file) then lines else [] |}.


(** A device without faults, and one whose flush fails. *)
Definition steady_device : Device :=
  {| temp_name := fun _ _ suffix => py "tmpq3x8w_1z" ++ suffix;
     flush_fault := fun _ _ => None;
     fsync_fault := fun _ _ => None |}.

Definition full_device : Device :=
  {| temp_name := fun _ _ suffix => py "tmpq3x8w_1z" ++ suffix;
     flush_fault := fun _ _ =>
       Some {| class_of := OSError;
               str_of := py "[Errno 28] No space left on device" |};
     fsync_fault := fun _ _ => None |}.

(** A toy document format.  "P" and a body: a plain document.  "E", a
    key byte and a body: a document that opens with the one-character
    password of that code and with nothing else.  Any other content is
    malformed.  Saving writes the plain form. *)
Definition toy_parse (content : bytes) (password : option str) : outcome bytes :=
  match content with
  | Byte.x50 :: body => Return body
  | Byte.x45 :: key :: body =>
      if bool_decide (password = Some [Byte.to_N key]) then Return body
      else Raise {| class_of := PasswordError; str_of := py "invalid password" |}
  | _ => Raise {| class_of := PdfError; str_of := py "unable to find PDF header" |}
  end.

Definition toy_pikepdf : Pikepdf :=
  {| Pdf := bytes;
     pdf_parse := toy_parse;
     pdf_save := fun body => {| chunks := [Byte.x50 :: body]; raises := None |} |}.

(** A disk: [/docs] holds a plain document and one locked with "h". *)
Definition docs : Path := Root // py "docs".
Definition a_pdf : Path := docs // py "a.pdf".
Definition b_pdf : Path := docs // py "b.pdf".
Definition pdf_with_password : str := py "pdf_with_password".

Definition sample_disk : gmap Path Node :=
  {[ Root := Dir true;
     docs := Dir true;
     a_pdf := File (list_byte_of_string "Pplain text") true;
     b_pdf := File (list_byte_of_string "Ehlocked text") true ]}.

Definition sample_world : World := {| fs := sample_disk; opens := [] |}.

(** The same documents in a directory that is read-only, beside a backup
    directory left writable by an earlier run. *)
Definition readonly_disk : gmap Path Node :=
  {[ Root := Dir true;
     docs := Dir false;
     docs // pdf_with_password := Dir true;
     a_pdf := File (list_byte_of_string "Pplain text") true;
     b_pdf := File (list_byte_of_string "Ehlocked text") true ]}.

(** Text as the interpreter reads it with universal newlines: a
    carriage return, with the line feed after it if there is one,
    becomes one line feed. *)
Fixpoint universal_newlines (text : str) : str :=
  match text with
  | [] => []
  | c :: text' =>
      if c =? 0x0D then
        0x0A :: match text' with
                | [] => []
                | c' :: text'' =>
                    if c' =? 0x0A then universal_newlines text''
                    else universal_newlines text'
                end
      else c :: universal_newlines text'
  end.

(** The lines of a text, each with its line feed; [line] is the line
    begun so far. *)
Fixpoint lines_from (line text : str) : list str :=
  match text with
  | [] => match line with [] => [] | _ => [line] end
  | c :: text' =>
      if c =? 0x0A then (line ++ [c]) :: lines_from [] text'
      else lines_from (line ++ [c]) text'
  end.

(** Reading a short ASCII file as text: its lines.  A byte from 0x80
    on stands for bytes that are not UTF-8 (alone it is not); a file
    shorter than the reader's buffer then hands over no line before
    the error. *)
Definition ascii_lines (content : bytes) : list str * option exn :=
  let text := map Byte.to_N content in
  if forallb (fun c => c <? 0x80) text
  then (lines_from [] (universal_newlines text), None)
  else ([], Some {| class_of := UnicodeDecodeError;
                    str_of := py "'utf-8' codec can't decode byte: invalid start byte" |}).

(** A shell with an empty environment, run from the root directory. *)
Definition toy_shell : Shell :=
  {| os_environ := ∅;
     Path_of := fun text => Root // text;
     joinpath := fun base other => base // name other;
     decode_lines := ascii_lines |}.

(** [str.lower] and [str.upper] on ASCII text: the letters A to Z move
    to a to z, or back, and every other character stays. *)
Definition ascii_lower : Unicodecase :=
  {| lower := map (fun c => if (0x41 <=? c) && (c <=? 0x5A) then c + 32 else c) |}.

Definition ascii_upper (text : str) : str :=
  map (fun c => if (0x61 <=? c) && (c <=? 0x7A) then c - 32 else c) text.

(** The names of the levels of [logging]; a text that upper-cases to
    none of them names no attribute of the module. *)
Definition level_names : list str :=
  [py "CRITICAL"; py "FATAL"; py "ERROR"; py "WARNING"; py "WARN";
   py "INFO"; py "DEBUG"; py "NOTSET"].

Definition toy_logging : Logging :=
  {| setLevel_fault := fun level =>
       if bool_decide (ascii_upper level ∈ level_names) then None
       else Some {| class_of := AttributeError;
                    str_of := py "module 'logging' has no attribute '"
                              ++ ascii_upper level ++ py "'" |} |}.

Definition sample_options : Options :=
  {| opt_path := Some docs;
     opt_password := Some (py "h");
     opt_dictionary := py "dictionary.txt";
     opt_try_empty := false;
     opt_backup_dir_name := pdf_with_password;
     opt_backup_root := None;
     opt_dry_run := false;
     opt_summary := false;
     opt_log_level := py "INFO" |}.

(** A body that writes and then raises, a temporary file name, and a few
    more disks. *)
Definition simulated_error : exn :=
  {| class_of := ValueError; str_of := py "Simulated error" |}.

Definition failing_body : producer :=
  {| chunks := [list_byte_of_string "partial content"];
     raises := Some simulated_error |}.

Definition sample_tmp : Path := docs // py "tmpq3x8w_1z.tmp".

Definition non_existent_pdf : Path := docs // py "non_existent.pdf".

(** [/docs] read-only, without a backup directory. *)
Definition sealed_disk : gmap Path Node :=
  {[ Root := Dir true;
     docs := Dir false;
     b_pdf := File (list_byte_of_string "Ehlocked text") true ]}.

(** The sample disk after an earlier run left a backup of "b.pdf". *)
Definition backed_up_disk : gmap Path Node :=
  <[docs // pdf_with_password // py "b.pdf" := File (list_byte_of_string "Ehearlier text") true]>
    (<[docs // pdf_with_password := Dir true]> sample_disk).



Definition two_passwords : list (str * str) :=
  [(py "x", py "single"); (py "h", py "dictionary")].


(** ** Words for the statements about the password trials *)

(** The document with these bytes rejects the password:
    [pikepdf.open] raises [PasswordError] for it. *)
Definition wrong_password `{Pikepdf} (content : bytes) (password : str) : bool :=
  match pdf_parse content (Some password) with
  | Raise e => is_PasswordError e
  | Return _ => false
  end.

(** The journal entries of trying the candidates [l] on [filepath],
    one [pikepdf.open] each, in order. *)
Definition trials_of (filepath : Path) (l : list (str * str))
    : list (Path * option str) :=
  map (fun x => (filepath, Some x.1)) l.

(** The journal of [w'] is the journal of [w] followed by opens of
    the one file [filepath]. *)
Definition opens_only (filepath : Path) (w w' : World) : Prop :=
  exists l, opens w' = opens w ++ l /\ Forall (fun x => x.1 = filepath) l.


(** The directories above [p], nearest first. *)
Fixpoint ancestors (p : Path) : list Path :=
  match p with
  | Root => []
  | Child q _ => q :: ancestors q
  end.

(** ** Words for the statements about the traversal *)

(** What the traversal of [root] is to find: [p] is a regular file
    somewhere below [root], its suffix lower-cases to ".pdf", and
    every directory on the way from [root] down to it is a directory
    of the disk that does not bear the backup name. *)
Definition to_find `{Unicodecase} (d : gmap Path Node) (backup_dir_name : str)
    (root p : Path) : Prop :=
  root ∈ ancestors p
  /\ (exists content mode, d !! p = Some (File content mode))
  /\ lower (suffix (name p)) = py ".pdf"
  /\ forall q, q ∈ ancestors p -> root ∈ ancestors q ->
       (exists writable, d !! q = Some (Dir writable))
       /\ name q <> backup_dir_name.

(** A body that writes a whole plain document and completes. *)
Definition whole_body : producer :=
  {| chunks := [list_byte_of_string "Punlocked "; list_byte_of_string "text"];
     raises := None |}.

(** The temporary file a write next to [/docs] works with. *)
Definition root_tmp : Path := Root // py "tmpq3x8w_1z.tmp".

(** The sample disk with a regular file where the backup directory of
    [/docs] should be. *)
Definition blocked_disk : gmap Path Node :=
  <[docs // pdf_with_password := File (list_byte_of_string "not a directory") true]>
    sample_disk.

(** The sample disk after a run that left a backup directory holding
    a file with the name of the test file of "b.pdf". *)
Definition probe_disk : gmap Path Node :=
  <[docs // pdf_with_password // py "b.pdf.tmp_test" := File (list_byte_of_string "notes") true]>
    (<[docs // pdf_with_password := Dir true]> sample_disk).

(** The sample disk with "b.pdf" damaged. *)
Definition damaged_disk : gmap Path Node :=
  <[b_pdf := File (list_byte_of_string "damaged") true]> sample_disk.

(** [/docs] with a sub-directory, a backup directory from an earlier
    run, a backup directory of another name, a hidden file ".pdf" and
    a text file. *)
Definition nested_disk : gmap Path Node :=
  {[ Root := Dir true;
     docs := Dir true;
     a_pdf := File (list_byte_of_string "Pplain text") true;
     docs // py "notes.txt" := File (list_byte_of_string "notes") true;
     docs // py ".pdf" := File (list_byte_of_string "Phidden") true;
     docs // py "sub" := Dir true;
     docs // py "sub" // py "c.PDF" := File (list_byte_of_string "Ehlocked text") true;
     docs // pdf_with_password := Dir true;
     docs // pdf_with_password // py "b.pdf" := File (list_byte_of_string "Ehlocked text") true;
     docs // py "bak" := Dir true;
     docs // py "bak" // py "d.pdf" := File (list_byte_of_string "Ehlocked text") true ]}.

(** The sample options as a dry run, and with backups sent to "bak". *)
Definition dry_options : Options :=
  {| opt_path := Some docs;
     opt_password := Some (py "h");
     opt_dictionary := py "dictionary.txt";
     opt_try_empty := false;
     opt_backup_dir_name := pdf_with_password;
     opt_backup_root := None;
     opt_dry_run := true;
     opt_summary := false;
     opt_log_level := py "INFO" |}.

Definition bak_options : Options :=
  {| opt_path := Some docs;
     opt_password := Some (py "h");
     opt_dictionary := py "dictionary.txt";
     opt_try_empty := false;
     opt_backup_dir_name := py "bak";
     opt_backup_root := None;
     opt_dry_run := false;
     opt_summary := false;
     opt_log_level := py "INFO" |}.

(** Candidates for the sample disk: "h" opens "b.pdf". *)
Definition three_passwords : list (str * str) :=
  [(py "x", py "single"); (py "h", py "dictionary"); (py "z", py "environment")].

Definition wrong_passwords : list (str * str) :=
  [(py "x", py "single"); (py "y", py "dictionary")].

(** A wordlist read with Unix and with Windows line terminators. *)
Definition wordlist_txt : Path := docs // py "dictionary.txt".

Definition unix_wordlist : TextFiles :=
  one_text_file wordlist_txt [py "alpha" ++ [0x0A]; py "beta"].

Definition windows_wordlist : TextFiles :=
  one_text_file wordlist_txt [py "alpha" ++ CRLF; py "beta" ++ [0x0A]].

(** The sample disk with "b.pdf" read-only. *)
Definition read_only_document_disk : gmap Path Node :=
  <[b_pdf := File (list_byte_of_string "Ehlocked text") false]> sample_disk.

(** The sample disk with a read-only regular file where the backup
    directory of [/docs] should be. *)
Definition sealed_blocked_disk : gmap Path Node :=
  <[docs // pdf_with_password := File (list_byte_of_string "not a directory") false]>
    sample_disk.

(** The sample disk with a wordlist in [/docs]: the wrong password "x",
    a comment, and the password "h" of "b.pdf". *)
Definition wordlist_disk : gmap Path Node :=
  <[wordlist_txt := File (list_byte_of_string "x
# the key
h
") true]> sample_disk.

(** The same with a wordlist that is not UTF-8. *)
Definition latin_wordlist_disk : gmap Path Node :=
  <[wordlist_txt := File [Byte.x78; Byte.x0a; Byte.xff; Byte.x0a] true]> sample_disk.

(** The sample options with another password, wordlist or log level. *)
Definition options_with (password : option str) (dictionary log_level : string)
    : Options :=
  {| opt_path := Some docs;
     opt_password := password;
     opt_dictionary := py dictionary;
     opt_try_empty := false;
     opt_backup_dir_name := pdf_with_password;
     opt_backup_root := None;
     opt_dry_run := false;
     opt_summary := false;
     opt_log_level := py log_level |}.

(** What a damaged document answers to every open. *)
Definition damaged : exn :=
  {| class_of := PdfError; str_of := py "unable to find PDF header" |}.
(** * Proofs *)

(** ** Python text *)

Lemma forallb_rev {A} (f : A -> bool) (l : list A) :
  forallb f (rev l) = forallb f l.
Proof.
  induction l as [|a l IH]; simpl; [done|].
  rewrite forallb_app, IH. simpl. rewrite andb_true_r. apply andb_comm.
Qed.

Section TextFacts.

Variable drop : N -> bool.

Lemma lstrip_by_split (s : str) :
  exists pre, s = pre ++ lstrip_by drop s /\ forallb drop pre = true.
Proof.
  induction s as [|c s IH]; simpl.
  - by exists [].
  - destruct (drop c) eqn:Hc.
    + destruct IH as (pre & Hs & Hpre). exists (c :: pre). simpl.
      rewrite Hc, Hpre. split; [by f_equal | done].
    + by exists [].
Qed.

Lemma lstrip_by_head (s : str) c rest :
  lstrip_by drop s = c :: rest -> drop c = false.
Proof.
  induction s as [|c' s IH]; simpl; [done|].
  destruct (drop c') eqn:Hc; [done|]. by intros [= -> _].
Qed.

Lemma lstrip_by_nil (s : str) :
  lstrip_by drop s = [] <-> forallb drop s = true.
Proof.
  induction s as [|c s IH]; simpl; [done|].
  destruct (drop c); simpl; [done|]. split; discriminate.
Qed.

Lemma rstrip_by_split (s : str) :
  exists post, s = rstrip_by drop s ++ post /\ forallb drop post = true.
Proof.
  unfold rstrip_by.
  destruct (lstrip_by_split (rev s)) as (pre & Hs & Hpre).
  exists (rev pre). split.
  - rewrite <- rev_app_distr, <- Hs. by rewrite rev_involutive.
  - by rewrite forallb_rev.
Qed.

Lemma rstrip_by_last (s : str) kept c :
  rstrip_by drop s = kept ++ [c] -> drop c = false.
Proof.
  unfold rstrip_by. intros Hs.
  apply (f_equal (@rev N)) in Hs. rewrite rev_involutive, rev_app_distr in Hs.
  simpl in Hs. by apply lstrip_by_head in Hs.
Qed.

Lemma strip_by_nil (s : str) :
  strip_by drop s = [] <-> forallb drop s = true.
Proof.
  unfold strip_by, rstrip_by. split.
  - intros Hs. apply (f_equal (@rev N)) in Hs. rewrite rev_involutive in Hs.
    simpl in Hs. apply lstrip_by_nil in Hs. rewrite forallb_rev in Hs.
    destruct (lstrip_by drop s) as [|c rest] eqn:Hl.
    + by apply lstrip_by_nil.
    + apply lstrip_by_head in Hl. simpl in Hs. by rewrite Hl in Hs.
  - intros Hs. apply lstrip_by_nil in Hs. by rewrite Hs.
Qed.

End TextFacts.

Lemma truthy_strip (s : str) : truthy (strip s) = negb (forallb isspace s).
Proof.
  destruct (forallb isspace s) eqn:Hs.
  - apply strip_by_nil in Hs. unfold strip. by rewrite Hs.
  - destruct (strip s) as [|c rest] eqn:Hstrip; [|done].
    apply strip_by_nil in Hstrip. congruence.
Qed.

(** ** passwords.py *)

Section PasswordFacts.

Context `{Unicodedata} `{TextFiles}.

Lemma feed_app g l1 l2 : feed g (l1 ++ l2) = feed (feed g l1) l2.
Proof. apply fold_left_app. Qed.

Lemma feed_map_source g source (l : list str) :
  fold_left (fun g password => yield_unseen source password g) l g
  = feed g (map (fun s => (s, source)) l).
Proof.
  revert g. induction l as [|s l IH]; intros g; simpl; [done|]. apply IH.
Qed.

Lemma iter_passwords_feed single dictionary_path env try_empty :
  iter_passwords single dictionary_path env try_empty
  = yielded (feed gen_start (candidates single dictionary_path env try_empty)).
Proof.
  unfold iter_passwords, candidates. rewrite !feed_app. f_equal.
  assert (E4 : forall g, (if try_empty then yield_unseen (py "empty") [] g else g)
                         = feed g (from_empty try_empty)).
  { intros g. by destruct try_empty. }
  rewrite E4. f_equal.
  assert (E3 : forall g,
    match env with
    | Some m =>
        if bool_decide (m = ∅) then g
        else match m !! PDFMASSUNLOCK_PASSWORD with
             | Some env_password =>
                 if truthy env_password
                 then yield_unseen (py "environment") env_password g
                 else g
             | None => g
             end
    | None => g
    end = feed g (from_environment env)).
  { intros g. unfold from_environment, env_value.
    destruct env as [m|]; [|done].
    case_bool_decide as Hm.
    - subst m. by rewrite lookup_empty.
    - destruct (m !! PDFMASSUNLOCK_PASSWORD) as [v|]; [|done].
      by destruct (truthy v). }
  rewrite E3. f_equal.
  unfold from_dictionary.
  destruct dictionary_path as [p|]; simpl.
  - destruct (path_exists p); simpl.
    + rewrite feed_map_source. f_equal. by destruct single.
    + by destruct single.
  - by destruct single.
Qed.

Lemma feed_first_wins l : forall g earlier,
  (forall s, s ∈ seen g <-> s ∈ earlier) ->
  yielded (feed g l) = yielded g ++ first_wins_after earlier l.
Proof.
  induction l as [|[s o] l IH]; intros g earlier Hseen; simpl.
  - by rewrite app_nil_r.
  - destruct (decide (s ∈ seen g)) as [Hin|Hout].
    + assert (Hg : yield_unseen o s g = g).
      { unfold yield_unseen. by rewrite bool_decide_eq_true_2. }
      rewrite Hg.
      rewrite (bool_decide_eq_true_2 (s ∈ earlier)) by (by apply Hseen).
      simpl. apply IH. intros s'. rewrite elem_of_app, list_elem_of_singleton.
      rewrite <- Hseen. split; [by left | intros [? | ->]; done].
    + assert (Hg : yield_unseen o s g
                   = {| seen := {[s]} ∪ seen g; yielded := yielded g ++ [(s, o)] |}).
      { unfold yield_unseen. by rewrite bool_decide_eq_false_2. }
      rewrite Hg.
      rewrite (bool_decide_eq_false_2 (s ∈ earlier)) by (by rewrite <- Hseen).
      rewrite (IH _ (earlier ++ [s])); simpl.
      * by rewrite <- app_assoc.
      * intros s'. rewrite elem_of_union, elem_of_singleton, elem_of_app,
          list_elem_of_singleton, Hseen. tauto.
Qed.

Lemma iter_passwords_first_wins single dictionary_path env try_empty :
  iter_passwords single dictionary_path env try_empty
  = first_wins (candidates single dictionary_path env try_empty).
Proof.
  rewrite iter_passwords_feed.
  rewrite (feed_first_wins _ gen_start []); [done|].
  intros s. simpl. rewrite elem_of_empty, elem_of_nil. tauto.
Qed.

(** *** First origin wins *)

Lemma first_wins_after_sublist l : forall earlier,
  sublist (first_wins_after earlier l) l.
Proof.
  induction l as [|[s o] l IH]; intros earlier; simpl; [done|].
  case_bool_decide; simpl.
  - apply sublist_cons, IH.
  - apply sublist_skip, IH.
Qed.

Lemma first_wins_after_fresh l : forall earlier s,
  s ∈ (first_wins_after earlier l).*1 -> s ∉ earlier.
Proof.
  induction l as [|[s o] l IH]; intros earlier s' Hin; simpl in Hin.
  - by apply elem_of_nil in Hin.
  - rewrite fmap_app, elem_of_app in Hin. destruct Hin as [Hin|Hin].
    + case_bool_decide as Hs; simpl in Hin.
      * by apply elem_of_nil in Hin.
      * apply list_elem_of_singleton in Hin. by subst.
    + apply IH in Hin. rewrite elem_of_app in Hin. tauto.
Qed.

Lemma first_wins_after_NoDup l : forall earlier,
  NoDup (first_wins_after earlier l).*1.
Proof.
  induction l as [|[s o] l IH]; intros earlier; simpl; [constructor|].
  case_bool_decide; simpl; [apply IH|].
  constructor; [|apply IH].
  intros Hin. apply first_wins_after_fresh in Hin.
  rewrite elem_of_app, list_elem_of_singleton in Hin. tauto.
Qed.

Lemma first_wins_after_complete l : forall earlier s,
  s ∈ l.*1 -> s ∉ earlier -> s ∈ (first_wins_after earlier l).*1.
Proof.
  induction l as [|[s o] l IH]; intros earlier s' Hin Hout; simpl in *.
  - by apply elem_of_nil in Hin.
  - rewrite fmap_app, elem_of_app.
    destruct (decide (s' = s)) as [->|Hne].
    + left. rewrite bool_decide_eq_false_2 by done. simpl. by left.
    + right. apply IH.
      * apply elem_of_cons in Hin. by destruct Hin.
      * rewrite elem_of_app, list_elem_of_singleton. tauto.
Qed.

Lemma first_wins_after_earliest l : forall earlier s o,
  (s, o) ∈ first_wins_after earlier l ->
  exists l1 l2, l = l1 ++ (s, o) :: l2 /\ s ∉ l1.*1.
Proof.
  induction l as [|[s o] l IH]; intros earlier s' o' Hin; simpl in Hin.
  - by apply elem_of_nil in Hin.
  - rewrite elem_of_app in Hin. destruct Hin as [Hin|Hin].
    + case_bool_decide; simpl in Hin; [by apply elem_of_nil in Hin|].
      apply list_elem_of_singleton in Hin. injection Hin as -> ->.
      exists [], l. split; [done|]. simpl. apply not_elem_of_nil.
    + assert (Hfresh : s' ∉ earlier ++ [s]).
      { eapply first_wins_after_fresh. apply (list_elem_of_fmap_2 fst) in Hin. exact Hin. }
      destruct (IH _ _ _ Hin) as (l1 & l2 & -> & Hl1).
      exists ((s, o) :: l1), l2. split; [done|].
      simpl. rewrite not_elem_of_cons. split; [|done].
      intros ->. apply Hfresh. rewrite elem_of_app, list_elem_of_singleton. by right.
Qed.

(** *** The claims on the credential sequence *)

(** What [password_of_line] is, in the words of the wordlist rules. *)
Lemma password_of_line_spec line :
  password_of_line line
  = (if is_password (text_of_line (py "NFKC") line)
     then Some (text_of_line (py "NFKC") line) else None).
Proof.
  unfold password_of_line, is_password, is_blank, is_comment, text_of_line.
  rewrite truthy_strip, negb_involutive.
  destruct (forallb isspace _); simpl; [done|].
  by destruct (startswith _ _).
Qed.

Lemma omap_password_of_line (lines : list str) :
  omap password_of_line lines
  = List.filter is_password (map (text_of_line (py "NFKC")) lines).
Proof.
  induction lines as [|line lines IH]; [done|].
  cbn [omap list_omap map List.filter].
  rewrite password_of_line_spec.
  destruct (is_password _); cbn [omap list_omap];
    fold (omap password_of_line lines); by rewrite IH.
Qed.

Lemma filter_Forall {A} (keep : A -> bool) (l : list A) :
  Forall (fun a => keep a = true) (List.filter keep l).
Proof.
  induction l as [|a l IH]; simpl; [constructor|].
  destruct (keep a) eqn:Ha; [by constructor | done].
Qed.

Lemma is_password_not_blank text :
  is_password text = true -> forallb isspace text = false.
Proof.
  unfold is_password, is_blank. intros Hp.
  apply andb_true_iff in Hp as [Hp _]. by apply negb_true_iff in Hp.
Qed.

Lemma spaces_blank n : forallb isspace (replicate n 0x20) = true.
Proof. induction n as [|n IH]; simpl; [done | exact IH]. Qed.

(** C4, amended.  For every single credential, wordlist, environment and
    [try_empty] flag, [iter_passwords] emits the supplied candidates
    (single, then the wordlist passwords in file order, then the
    environment value if it is not empty, then the empty string) in
    that order, each secret once, under the origin of its first
    supplier: the emitted list is the first-wins reading of the
    candidates, a subsequence of them, without a repeated secret,
    missing no supplied secret, and no candidate before an emitted one
    has its secret. *)
Theorem iter_passwords_priority_first_wins
    (single : option str) (dictionary_path : option Path)
    (env : option (gmap str str)) (try_empty : bool) :
  let emitted := iter_passwords single dictionary_path env try_empty in
  let supplied := candidates single dictionary_path env try_empty in
  emitted = first_wins supplied
  /\ sublist emitted supplied
  /\ NoDup emitted.*1
  /\ (forall s, s ∈ supplied.*1 -> s ∈ emitted.*1)
  /\ (forall s o, (s, o) ∈ emitted ->
        exists l1 l2, supplied = l1 ++ (s, o) :: l2 /\ s ∉ l1.*1).
Proof.
  intros emitted supplied.
  assert (E : emitted = first_wins supplied)
    by apply iter_passwords_first_wins.
  rewrite E. unfold first_wins. repeat split.
  - apply first_wins_after_sublist.
  - apply first_wins_after_NoDup.
  - intros s Hs. apply first_wins_after_complete; [done | apply not_elem_of_nil].
  - intros s o. apply first_wins_after_earliest.
Qed.

(** C7, amended.  The wordlist candidates are the lines of the file, in
    order, each with its trailing carriage returns and line feeds
    removed and then normalised to NFKC (compatibility decomposition,
    then canonical composition), less the lines that are then blank
    or comments.  What [rstrip] removes is a run of line terminators
    at the end of the line and nothing else, and it removes the whole
    run. *)
Theorem wordlist_candidates_NFKC (dictionary_path : Path) :
  _iter_from_dictionary dictionary_path
  = wordlist_in_form (py "NFKC") dictionary_path
  /\ (forall line : str, exists terminators : str,
        line = rstrip CRLF line ++ terminators
        /\ Forall (fun c => c = 0x0D \/ c = 0x0A) terminators
        /\ (forall kept c, rstrip CRLF line = kept ++ [c] ->
              c <> 0x0D /\ c <> 0x0A)).
Proof.
  split; [apply omap_password_of_line|].
  intros line. unfold rstrip.
  destruct (rstrip_by_split (fun c => bool_decide (c ∈ CRLF)) line)
    as (post & Hline & Hpost).
  exists post. split; [done|]. split.
  - apply Forall_forall. intros c Hc.
    rewrite forallb_forall in Hpost. apply list_elem_of_In, Hpost in Hc.
    apply bool_decide_eq_true in Hc. unfold CRLF in Hc.
    rewrite !elem_of_cons, elem_of_nil in Hc. tauto.
  - intros kept c Hkept. apply rstrip_by_last in Hkept.
    apply bool_decide_eq_false in Hkept. unfold CRLF in Hkept.
    rewrite !elem_of_cons, elem_of_nil in Hkept. split; intros ->; tauto.
Qed.

(** C10.  A line whose text, once normalised, is nothing but white
    space yields no candidate; so every wordlist candidate has a
    character that is not white space, and no run of spaces, of any
    length, is ever a wordlist candidate.  A line that does yield a
    candidate yields its whole normalised text, leading and trailing
    spaces included: only the line terminators are stripped. *)
Theorem whitespace_lines_never_emitted (dictionary_path : Path) :
  (forall line,
     forallb isspace (normalize (py "NFKC") (rstrip CRLF line)) = true ->
     password_of_line line = None)
  /\ Forall (fun s => exists c, c ∈ s /\ isspace c = false)
       (_iter_from_dictionary dictionary_path)
  /\ (forall n, replicate n 0x20 ∉ _iter_from_dictionary dictionary_path)
  /\ (forall line password,
        password_of_line line = Some password ->
        password = normalize (py "NFKC") (rstrip CRLF line)).
Proof.
  assert (Hall : Forall (fun s => forallb isspace s = false)
                   (_iter_from_dictionary dictionary_path)).
  { unfold _iter_from_dictionary. rewrite omap_password_of_line.
    eapply Forall_impl; [apply filter_Forall|].
    intros s. apply is_password_not_blank. }
  split; [|split; [|split]].
  - intros line Hblank. rewrite password_of_line_spec.
    unfold is_password, is_blank, text_of_line. by rewrite Hblank.
  - eapply Forall_impl; [exact Hall|]. intros s Hs.
    apply not_true_iff_false in Hs.
    destruct (existsb (fun c => negb (isspace c)) s) eqn:He.
    + apply existsb_exists in He as (c & Hc & Hsp).
      exists c. split; [by apply list_elem_of_In | by apply negb_true_iff].
    + exfalso. apply Hs. apply forallb_forall. intros c Hc.
      destruct (isspace c) eqn:Hsp; [done|].
      assert (existsb (fun c => negb (isspace c)) s = true); [|congruence].
      apply existsb_exists. exists c. by rewrite Hsp.
  - intros n Hn. rewrite Forall_forall in Hall. apply Hall in Hn.
    by rewrite spaces_blank in Hn.
  - intros line password. rewrite password_of_line_spec.
    destruct (is_password _); [|done]. by intros [= <-].
Qed.

End PasswordFacts.

(** C4, as stated, fails.  With no single credential and no wordlist, the
    recognised variable set to the empty string and [try_empty] on, the
    empty secret is supplied by the environment first and by the empty
    source second, yet it is emitted under the origin "empty": the guard
    [if env_password and ...] takes an empty value for no value. *)
Lemma iter_passwords_ignores_empty_environment_value :
  let env : option (gmap str str) := Some {[ PDFMASSUNLOCK_PASSWORD := [] ]} in
  @iter_passwords unicodedata_fragment (one_text_file Root []) None None env true
  = [([], py "empty")]
  /\ @specified_sequence unicodedata_fragment (one_text_file Root []) None None env true
     = [([], py "environment")]
  /\ @iter_passwords unicodedata_fragment (one_text_file Root []) None None env true
     <> @specified_sequence unicodedata_fragment (one_text_file Root []) None None env true.
Proof. vm_compute. repeat split. discriminate. Qed.

(** C7, as stated, fails.  The one-line wordlist "x²" (SUPERSCRIPT TWO)
    yields the candidate "x2": NFKC folds the compatibility character,
    where the canonical composed form, NFC, keeps the line as written.
    In the same way a NO-BREAK SPACE inside a line comes out as a plain
    space. *)
Lemma wordlist_candidate_not_canonical_form :
  let wordlist := Root // py "dictionary.txt" in
  let files := one_text_file wordlist [[0x78; 0xB2; 0x0A]; [0x61; 0xA0; 0x62; 0x0A]] in
  @_iter_from_dictionary unicodedata_fragment files wordlist
  = [[0x78; 0x32]; [0x61; 0x20; 0x62]]
  /\ @wordlist_in_form unicodedata_fragment files (py "NFC") wordlist
     = [[0x78; 0xB2]; [0x61; 0xA0; 0x62]]
  /\ @_iter_from_dictionary unicodedata_fragment files wordlist
     <> @wordlist_in_form unicodedata_fragment files (py "NFC") wordlist.
Proof. vm_compute. repeat split. discriminate. Qed.


(** ** io_utils.py *)

Lemma Child_neq (p : Path) (n : str) : p // n <> p.
Proof.
  revert n. induction p as [|q IH m]; intros n; [done|].
  intros [= Hq _]. by apply (IH m).
Qed.

(** Unfolding of the monad's plumbing. *)
Ltac run := unfold bind, try, ret, raise, get, put in *; cbn in *.

Section AtomicWriteFacts.

Context `{Device}.

Lemma write_all_spec (f : Path) (l : list bytes) :
  forall (d : gmap Path Node) content mode,
  d !! f = Some (File content mode) ->
  write_all f l d = (Return tt, <[f := File (content ++ concat l) mode]> d).
Proof.
  induction l as [|data l IH]; intros d content mode Hf; simpl.
  - rewrite app_nil_r, insert_id by done. by run.
  - unfold write. run. rewrite Hf. cbn.
    erewrite IH; [|apply lookup_insert_eq].
    by rewrite insert_insert_eq, app_assoc.
Qed.

(** Whether it returns or raises, the block between the creation of the
    temporary file and the end of [try] changes the disk at the
    temporary file only. *)
Lemma produce_and_sync_disk (body : producer) (tmp : Path)
    (d : gmap Path Node) content mode r d' :
  d !! tmp = Some (File content mode) ->
  produce_and_sync body tmp d = (r, d') ->
  d' = <[tmp := File (content ++ concat (chunks body)) mode]> d.
Proof.
  intros Htmp. unfold produce_and_sync, produce, flush, fsync. run.
  rewrite (write_all_spec _ _ _ _ _ Htmp). cbn.
  destruct (raises body); [by intros [= _ <-]|].
  destruct (flush_fault _ _); [by intros [= _ <-]|].
  destruct (fsync_fault _ _); by intros [= _ <-].
Qed.

Lemma NamedTemporaryFile_inv (dir : Path) (suffix : str)
    (d : gmap Path Node) tmp d' :
  NamedTemporaryFile dir suffix d = (Return tmp, d') ->
  tmp = dir // temp_name d dir suffix
  /\ d !! tmp = None
  /\ d !! dir = Some (Dir true)
  /\ d' = <[tmp := File [] true]> d.
Proof.
  unfold NamedTemporaryFile, check_entry_change. run.
  destruct (d !! (dir // _)) eqn:Hfree; [done|].
  destruct (d !! dir) as [[? ?|[]]|] eqn:Hdir; try done.
  by intros [= <- <-].
Qed.

(** C1.  Once the temporary file exists, if the body of the [with]
    block, the flush or the sync raises, [atomic_write] raises the same
    exception and leaves the disk exactly as it found it: the target
    holds what it held and the temporary file, which did not exist
    before the call, is gone.  Until then the temporary file, a
    sibling of the target, is the only path whose content differs from
    the initial disk, so nothing partial shows at the target. *)
Theorem atomic_write_failure_restores_disk
    (filepath : Path) (body : producer) (d d1 d2 : gmap Path Node)
    (tmp : Path) (e : exn) :
  NamedTemporaryFile (parent filepath) (py ".tmp") d = (Return tmp, d1) ->
  produce_and_sync body tmp d1 = (Raise e, d2) ->
  atomic_write filepath body d = (Raise e, d)
  /\ d !! tmp = None
  /\ parent tmp = parent filepath
  /\ (forall p, p <> tmp -> d2 !! p = d !! p).
Proof.
  intros Hcreate Hbody.
  destruct (NamedTemporaryFile_inv _ _ _ _ _ Hcreate) as (Htmp & Hfree & Hdir & ->).
  assert (Hd2 := produce_and_sync_disk body tmp _ [] true _ _
                   (lookup_insert_eq _ _ _) Hbody).
  simpl in Hd2. rewrite insert_insert_eq in Hd2.
  assert (Hparent : parent tmp = parent filepath) by (by rewrite Htmp).
  split; [|split; [done|split; [done|]]].
  - unfold atomic_write. unfold bind at 1. rewrite Hcreate.
    unfold bind at 1. unfold try. rewrite Hbody. subst d2.
    unfold unlink, check_entry_change. run.
    rewrite lookup_insert_eq. rewrite Hparent. cbn.
    rewrite lookup_insert_ne by (rewrite Htmp; apply Child_neq).
    rewrite Hdir. cbn. by rewrite delete_insert_id.
  - intros p Hp. subst d2. by rewrite lookup_insert_ne.
Qed.

(** When the block completes, the one change the target sees is the
    rename: [atomic_write] is then [os.replace] of the finished
    temporary file, and when that returns the disk is the initial disk
    with the whole new content at the target. *)
Lemma atomic_write_success_is_one_rename
    (filepath : Path) (body : producer) (d d1 d2 : gmap Path Node) (tmp : Path) :
  NamedTemporaryFile (parent filepath) (py ".tmp") d = (Return tmp, d1) ->
  produce_and_sync body tmp d1 = (Return tt, d2) ->
  atomic_write filepath body d = os_replace tmp filepath d2
  /\ (forall p, p <> tmp -> d2 !! p = d !! p)
  /\ (forall d', os_replace tmp filepath d2 = (Return tt, d') ->
        d' = <[filepath := File (concat (chunks body)) true]> d).
Proof.
  intros Hcreate Hbody.
  destruct (NamedTemporaryFile_inv _ _ _ _ _ Hcreate) as (Htmp & Hfree & Hdir & ->).
  assert (Hd2 := produce_and_sync_disk body tmp _ [] true _ _
                   (lookup_insert_eq _ _ _) Hbody).
  simpl in Hd2. rewrite insert_insert_eq in Hd2.
  split; [|split].
  - unfold atomic_write. unfold bind at 1. rewrite Hcreate.
    unfold bind at 1. unfold try. by rewrite Hbody.
  - intros p Hp. subst d2. by rewrite lookup_insert_ne.
  - intros d'. subst d2. unfold os_replace, check_entry_change. run.
    rewrite lookup_insert_eq. cbn.
    set (dt := <[tmp:=File (concat (chunks body)) true]> d).
    destruct (dt !! filepath) as [[? ?|?]|]; cbn; try discriminate;
      destruct (dt !! parent tmp) as [[? ?|[]]|]; cbn; try discriminate;
      destruct (dt !! parent filepath) as [[? ?|[]]|]; cbn; try discriminate;
      intros Hd; injection Hd as Hd; subst d'; unfold dt;
      by rewrite delete_insert_id.
Qed.

End AtomicWriteFacts.

(** *** Paths by depth *)

Lemma depth_parent (p : Path) :
  (length (components p) <= S (length (components (parent p))))%nat.
Proof. destruct p; simpl; lia. Qed.

Lemma deeper_neq (p q : Path) :
  (length (components p) < length (components q))%nat -> p <> q.
Proof. intros Hlt ->. lia. Qed.

(** *** One primitive at a time *)

Lemma bind_Return {S A B} (m : M S A) (k : A -> M S B) s b s'' :
  (x <- m ;; k x) s = (Return b, s'') ->
  exists a s', m s = (Return a, s') /\ k a s' = (Return b, s'').
Proof.
  unfold bind. destruct (m s) as [[a|e] s']; [|done]. intros Hk. by exists a, s'.
Qed.

Lemma bind_unfold {S A B} (m : M S A) (k : A -> M S B) s :
  (x <- m ;; k x) s
  = match m s with
    | (Return a, s') => k a s'
    | (Raise e, s') => (Raise e, s')
    end.
Proof. reflexivity. Qed.

Section DiskFacts.

Implicit Types (d : gmap Path Node) (p q : Path).

Lemma check_entry_change_Return p d u d' :
  check_entry_change p d = (Return u, d') ->
  d !! parent p = Some (Dir true) /\ d' = d.
Proof.
  unfold check_entry_change. run.
  destruct (d !! parent p) as [[|[]]|]; try done. by intros [= _ <-].
Qed.

Lemma mkdir_exist_ok_Return p d u d' :
  mkdir_exist_ok p d = (Return u, d') ->
  (exists writable, d !! p = Some (Dir writable) /\ d' = d)
  \/ (d !! p = None /\ d !! parent p = Some (Dir true) /\ d' = <[p := Dir true]> d).
Proof.
  unfold mkdir_exist_ok, check_entry_change. run.
  destruct (d !! p) as [[|writable]|] eqn:Hp; try done.
  - intros [= _ <-]. left. by exists writable.
  - destruct (d !! parent p) as [[|[]]|]; try done.
    intros [= _ <-]. by right.
Qed.

Lemma touch_Return p d u d' :
  touch p d = (Return u, d') ->
  (is_Some (d !! p) /\ d' = d)
  \/ (d !! p = None /\ d !! parent p = Some (Dir true) /\ d' = <[p := File [] true]> d).
Proof.
  unfold touch, check_entry_change. run.
  destruct (d !! p) as [n|] eqn:Hp.
  - intros [= _ <-]. left. eauto.
  - destruct (d !! parent p) as [[|[]]|]; try done.
    intros [= _ <-]. by right.
Qed.

Lemma unlink_Return p d u d' :
  unlink false p d = (Return u, d') ->
  d !! parent p = Some (Dir true) /\ d' = delete p d.
Proof.
  unfold unlink, check_entry_change. run.
  destruct (d !! p) as [[|]|]; try done.
  destruct (d !! parent p) as [[|[]]|]; try done.
  by intros [= _ <-].
Qed.

Lemma stat_Return p d u d' : stat p d = (Return u, d') -> d' = d.
Proof.
  unfold stat. run. destruct (d !! p); [|done]. by intros [= _ <-].
Qed.

Lemma copy2_Return (src dst : Path) d u d' :
  copy2 src dst d = (Return u, d') ->
  exists content mode,
    d !! src = Some (File content mode)
    /\ d' = <[copy_target d src dst := File content mode]> d.
Proof.
  unfold copy2, check_entry_change. run.
  set (target := copy_target d src dst).
  destruct (d !! src) as [[content mode|]|]; try done.
  destruct (d !! target) as [[old []|]|]; try done.
  - intros [= _ <-]. by exists content, mode.
  - destruct (d !! parent target) as [[|[]]|]; try done.
    intros [= _ <-]. by exists content, mode.
Qed.

(** *** The backup step *)

(** What a backup directory that [ensure_backup] returned from looks
    like, and what else is left alone. *)
Lemma ensure_backup_Return (src : Path) backup_dir_name d bd d' :
  ensure_backup src backup_dir_name d = (Return bd, d') ->
  bd = parent src // backup_dir_name
  /\ (exists writable, d' !! bd = Some (Dir writable))
  /\ (forall q, q <> bd -> d' !! q = d !! q)
  /\ ((exists writable, d !! bd = Some (Dir writable) /\ d' = d)
      \/ (d !! bd = None /\ d !! parent src = Some (Dir true)
          /\ d' = <[bd := Dir true]> d)).
Proof.
  unfold ensure_backup. intros Hm.
  apply bind_Return in Hm as (u & d1 & Hmk & Hret).
  unfold ret in Hret. injection Hret as <- <-.
  split; [done|].
  apply mkdir_exist_ok_Return in Hmk as [(wr & Hbd & ->)|(Hbd & Hpar & ->)].
  - split; [eauto|]. split; [done|]. left. eauto.
  - split; [rewrite lookup_insert_eq; eauto|].
    split; [intros q Hq; by rewrite lookup_insert_ne|]. by right.
Qed.

(** A validation that returned found, or made, a writable backup
    directory, and changed no path but that directory and the test
    file in it. *)
Lemma validate_backup_path_Return (src : Path) backup_dir_name d bp d' :
  validate_backup_path src backup_dir_name d = (Return bp, d') ->
  let bd := parent src // backup_dir_name in
  let test_path := bd // (name src ++ py ".tmp_test") in
  bp = bd // name src
  /\ d' !! bd = Some (Dir true)
  /\ (forall q, q <> bd -> q <> test_path -> d' !! q = d !! q)
  /\ ((d !! bd = Some (Dir true)) \/ (d !! bd = None /\ d !! parent src = Some (Dir true))).
Proof.
  intros Hm bd test_path. unfold validate_backup_path in Hm.
  apply bind_Return in Hm as (bd' & d1 & Hens & Hm).
  apply ensure_backup_Return in Hens as (-> & [wr Hbd1] & Hframe1 & Hcases).
  fold bd in Hm, Hbd1, Hframe1, Hcases.
  apply bind_Return in Hm as (u & d2 & Hm & Hret).
  unfold ret in Hret. injection Hret as <- <-. split; [done|].
  apply bind_Return in Hm as (e & d1' & Hex & Hm).
  unfold exists_ in Hex. run. injection Hex as <- <-.
  apply bind_Return in Hm as (u1 & d1' & Hstat & Hm).
  assert (d1' = d1) as ->.
  { destruct (bool_decide _); [by eapply stat_Return | by injection Hstat]. }
  unfold with_name in Hm. cbn [parent name] in Hm. fold test_path in Hm.
  apply bind_Return in Hm as (u2 & d3 & Htouch & Hunlink).
  apply unlink_Return in Hunlink as [Hpar ->]. cbn [parent] in Hpar.
  assert (Hne : bd <> test_path) by (symmetry; apply Child_neq).
  assert (Hd3 : forall q, q <> test_path -> d3 !! q = d1 !! q).
  { intros q Hq. apply touch_Return in Htouch as [[_ ->]|(_ & _ & ->)]; [done|].
    by rewrite lookup_insert_ne. }
  assert (Hwr : d1 !! bd = Some (Dir true)).
  { rewrite <- Hd3 by done. exact Hpar. }
  split; [by rewrite lookup_delete_ne, Hd3|].
  split.
  - intros q Hq1 Hq2. rewrite lookup_delete_ne, Hd3 by done. by apply Hframe1.
  - destruct Hcases as [(wr' & Hbd & ->)|(Hbd & Hpar' & ->)]; [by left|by right].
Qed.

(** A backup step that returned found the source a regular file and
    left it as it was. *)
Lemma create_backup_keeps_source (src : Path) backup_dir_name d bp d' :
  create_backup src backup_dir_name d = (Return bp, d') ->
  d' !! src = d !! src /\ exists content mode, d !! src = Some (File content mode).
Proof.
  unfold create_backup. intros Hm.
  apply bind_Return in Hm as (bp1 & d1 & Hval & Hcopy).
  apply validate_backup_path_Return in Hval as (_ & _ & Hframe & _).
  unfold copy_backup in Hcopy.
  apply bind_Return in Hcopy as (bd & d2 & Hens & Hcopy).
  apply ensure_backup_Return in Hens as (-> & [wr Hbd2] & Hframe2 & _).
  apply bind_Return in Hcopy as (u & d3 & Hcopy & Hret).
  unfold ret in Hret. injection Hret as <- <-.
  apply copy2_Return in Hcopy as (content & mode & Hsrc2 & ->).
  set (bd := parent src // backup_dir_name) in *.
  assert (Hsrc_bd : src <> bd) by (intros Heq; rewrite <- Heq in Hbd2; congruence).
  assert (Hdepth := depth_parent src).
  assert (Hsrc_test : src <> bd // (name src ++ py ".tmp_test")).
  { apply deeper_neq. unfold bd. simpl. lia. }
  assert (Hsrc_target : src <> copy_target d2 src (bd // name src)).
  { apply deeper_neq. unfold copy_target, bd.
    destruct (d2 !! (parent src // backup_dir_name // name src)) as [[|]|];
      simpl; lia. }
  rewrite lookup_insert_ne by done.
  rewrite Hframe2 in Hsrc2 |- * by done.
  rewrite Hframe in Hsrc2 |- * by done.
  split; [done | by exists content, mode].
Qed.

(** What the mutating validation accepts, the check without side
    effects accepts too, and that check never writes. *)
Lemma validate_backup_path_no_side_effects_disk (src : Path) backup_dir_name d r d' :
  validate_backup_path_no_side_effects src backup_dir_name d = (r, d') -> d' = d.
Proof.
  unfold validate_backup_path_no_side_effects, exists_, access_W_OK. run.
  destruct (bool_decide _).
  - destruct (d !! _) as [[? []|[]]|]; cbn; by intros [= _ <-].
  - destruct (d !! _) as [[? []|[]]|]; cbn; by intros [= _ <-].
Qed.

Lemma validate_backup_path_feasible (src : Path) backup_dir_name d bp d' :
  validate_backup_path src backup_dir_name d = (Return bp, d') ->
  validate_backup_path_no_side_effects src backup_dir_name d = (Return bp, d).
Proof.
  intros Hval.
  apply validate_backup_path_Return in Hval as (-> & _ & _ & Hcases).
  unfold validate_backup_path_no_side_effects, exists_, access_W_OK.
  unfold bind, get, ret, raise.
  destruct Hcases as [Hbd|[Hbd Hpar]].
  - rewrite Hbd. rewrite bool_decide_eq_true_2 by eauto.
    cbv beta iota. by rewrite Hbd.
  - rewrite Hbd. rewrite bool_decide_eq_false_2 by (intros [? ?]; done).
    cbv beta iota. by rewrite Hpar.
Qed.

Lemma copy_backup_existing
    (src : Path) (backup_dir_name : str) (d : gmap Path Node)
    (content old : bytes) (mode writable old_writable : bool) :
  d !! src = Some (File content mode) ->
  d !! (parent src // backup_dir_name) = Some (Dir writable) ->
  d !! (parent src // backup_dir_name // name src) = Some (File old old_writable) ->
  copy_backup src backup_dir_name d
  = if old_writable
    then (Return (parent src // backup_dir_name // name src),
          <[parent src // backup_dir_name // name src := File content mode]> d)
    else (Raise (EACCES (parent src // backup_dir_name // name src)), d).
Proof.
  intros Hsrc Hbd Hbp.
  unfold copy_backup, ensure_backup, mkdir_exist_ok, copy2, copy_target.
  unfold bind, get, ret, raise, put.
  rewrite Hbd. cbv beta iota. rewrite Hbp, Hsrc. cbv beta iota.
  rewrite Hbp. by destruct old_writable.
Qed.

(** C9, amended.  When the source is a regular file and a backup of it
    is already in the backup directory, what [copy_backup] does turns
    on the write permission of that earlier backup.  If it is writable,
    [copy_backup] returns the backup path and the disk differs from the
    one before only there: the old backup is gone, and the path holds
    the source's current bytes under the source's mode.  If it is
    read-only, as the backup of a read-only document is, [copy_backup]
    raises [PermissionError] and the disk is as before: the earlier
    backup is kept.  The write permission of the backup directory plays
    no part. *)
Theorem copy_backup_overwrites_unless_read_only
    (src : Path) (backup_dir_name : str) (d : gmap Path Node)
    (content old : bytes) (mode writable old_writable : bool) :
  d !! src = Some (File content mode) ->
  d !! (parent src // backup_dir_name) = Some (Dir writable) ->
  d !! (parent src // backup_dir_name // name src) = Some (File old old_writable) ->
  copy_backup src backup_dir_name d
  = if old_writable
    then (Return (parent src // backup_dir_name // name src),
          <[parent src // backup_dir_name // name src := File content mode]> d)
    else (Raise (EACCES (parent src // backup_dir_name // name src)), d).
Proof.
  apply copy_backup_existing.
Qed.

(** The same holds for the whole backup step of [unlock_file] when the
    backup directory is writable and holds no test file: validation
    creates and removes the test file, and the copy replaces a writable
    old backup. *)
Lemma create_backup_overwrites_existing_backup
    (src : Path) (backup_dir_name : str) (d : gmap Path Node)
    (content old : bytes) (mode : bool) :
  d !! src = Some (File content mode) ->
  d !! (parent src // backup_dir_name) = Some (Dir true) ->
  d !! (parent src // backup_dir_name // name src) = Some (File old true) ->
  d !! (parent src // backup_dir_name // (name src ++ py ".tmp_test")) = None ->
  create_backup src backup_dir_name d
  = (Return (parent src // backup_dir_name // name src),
     <[parent src // backup_dir_name // name src := File content mode]> d).
Proof.
  intros Hsrc Hbd Hbp Htest.
  assert (Hval : validate_backup_path src backup_dir_name d
                 = (Return (parent src // backup_dir_name // name src), d)).
  { unfold validate_backup_path, ensure_backup, mkdir_exist_ok, exists_, stat,
      touch, unlink, check_entry_change, with_name.
    unfold bind, get, ret, raise, put. cbn [parent name].
    rewrite Hbd. cbv beta iota. rewrite Hbp.
    rewrite bool_decide_eq_true_2 by eauto. cbv beta iota.
    rewrite Hbp, Htest. cbv beta iota. rewrite Hbd. cbv beta iota.
    rewrite lookup_insert_eq. cbv beta iota.
    rewrite lookup_insert_ne by apply Child_neq.
    rewrite Hbd. cbv beta iota. by rewrite delete_insert_id. }
  unfold create_backup. unfold bind at 1. rewrite Hval.
  by rewrite (copy_backup_existing _ _ _ _ _ _ _ _ Hsrc Hbd Hbp).
Qed.

End DiskFacts.

(** ** unlocker.py *)

Section UnlockerFacts.

Context `{Pikepdf} `{Device}.

Lemma World_eta (w : World) : {| fs := fs w; opens := opens w |} = w.
Proof. by destruct w. Qed.

Lemma on_disk_get w : on_disk get w = (Return (fs w), w).
Proof. by destruct w. Qed.

Lemma open_on_file (d : gmap Path Node) (filepath : Path) content mode password :
  d !! filepath = Some (File content mode) ->
  open_on d filepath password = pdf_parse content password.
Proof. unfold open_on. by intros ->. Qed.

(** One turn of the loop of [unlock_file]. *)
Lemma unlock_trials_cons (filepath : Path) password source rest ending w :
  unlock_trials filepath ((password, source) :: rest) ending w
  = let w1 d := {| fs := d; opens := opens w ++ [(filepath, Some password)] |} in
    let after e d :=
      if is_PasswordError e then unlock_trials filepath rest ending (w1 d)
      else (Return (processing_failed filepath e), w1 d) in
    match open_on (fs w) filepath (Some password) with
    | Raise e => after e (fs w)
    | Return pdf =>
        match atomic_write filepath (pdf_save pdf) (fs w) with
        | (Return _, d') => (Return (unlocked filepath source), w1 d')
        | (Raise e, d') => after e d'
        end
    end.
Proof.
  simpl. unfold bind at 1. unfold try. unfold bind at 1. unfold pikepdf_open.
  destruct (open_on (fs w) filepath (Some password)) as [pdf|e];
    [|by destruct (is_PasswordError e)].
  unfold on_disk, journal. cbn [fs opens].
  destruct (atomic_write filepath (pdf_save pdf) (fs w)) as [[u|e] d'];
    [done|by destruct (is_PasswordError e)].
Qed.

Lemma dry_run_trials_cons (filepath : Path) password source rest ending w :
  dry_run_trials filepath ((password, source) :: rest) ending w
  = match open_on (fs w) filepath (Some password) with
    | Raise e =>
        if is_PasswordError e
        then dry_run_trials filepath rest ending (journal w filepath (Some password))
        else (Return (processing_failed filepath e),
              journal w filepath (Some password))
    | Return pdf =>
        (Return (unlocked filepath source), journal w filepath (Some password))
    end.
Proof.
  simpl. unfold bind at 1. unfold try, pikepdf_open.
  destruct (open_on (fs w) filepath (Some password)) as [pdf|e];
    [done|by destruct (is_PasswordError e)].
Qed.

(** *** Classification *)

Lemma is_pdf_encrypted_spec (filepath : Path) (w : World) :
  is_pdf_encrypted filepath w
  = (Return match open_on (fs w) filepath None with
            | Return _ => false
            | Raise _ => true
            end,
     journal w filepath None).
Proof.
  unfold is_pdf_encrypted, pikepdf_open. run.
  destruct (open_on (fs w) filepath None) as [pdf|e]; [done|].
  by destruct (is_PasswordError e).
Qed.

Lemma check_already_unlocked_spec (filepath : Path) (w : World) :
  check_already_unlocked filepath w
  = (Return match open_on (fs w) filepath None with
            | Return _ => Some (already_unlocked filepath)
            | Raise _ => None
            end,
     journal w filepath None).
Proof.
  unfold check_already_unlocked. unfold bind, try.
  rewrite is_pdf_encrypted_spec.
  by destruct (open_on (fs w) filepath None).
Qed.

Lemma unlock_file_encrypted (filepath : Path) passwords backup_dir_name w e :
  open_on (fs w) filepath None = Raise e ->
  unlock_file filepath passwords backup_dir_name w
  = unlock_encrypted filepath passwords backup_dir_name (journal w filepath None).
Proof.
  intros He. unfold unlock_file. unfold bind at 1.
  by rewrite check_already_unlocked_spec, He.
Qed.

Lemma try_unlock_dry_run_encrypted (filepath : Path) passwords backup_dir_name w e :
  open_on (fs w) filepath None = Raise e ->
  try_unlock_dry_run filepath passwords backup_dir_name w
  = dry_run_encrypted filepath passwords backup_dir_name (journal w filepath None).
Proof.
  intros He. unfold try_unlock_dry_run. unfold bind at 1.
  by rewrite check_already_unlocked_spec, He.
Qed.

Lemma unlock_file_plain (filepath : Path) passwords backup_dir_name w pdf :
  open_on (fs w) filepath None = Return pdf ->
  unlock_file filepath passwords backup_dir_name w
  = (Return (already_unlocked filepath), journal w filepath None).
Proof.
  intros Hopen. unfold unlock_file. unfold bind.
  by rewrite check_already_unlocked_spec, Hopen.
Qed.

Lemma try_unlock_dry_run_plain (filepath : Path) passwords backup_dir_name w pdf :
  open_on (fs w) filepath None = Return pdf ->
  try_unlock_dry_run filepath passwords backup_dir_name w
  = (Return (already_unlocked filepath), journal w filepath None).
Proof.
  intros Hopen. unfold try_unlock_dry_run. unfold bind.
  by rewrite check_already_unlocked_spec, Hopen.
Qed.

(** The part of [unlock_file] after the classification, by the
    outcome of the backup step; the iterable is started on the disk
    that step leaves. *)
Lemma unlock_encrypted_unfold (filepath : Path) (passwords : Iterable)
    backup_dir_name w :
  unlock_encrypted filepath passwords backup_dir_name w
  = match create_backup filepath backup_dir_name (fs w) with
    | (Return _, d1) =>
        unlock_trials filepath (yields (passwords d1)) (breaks (passwords d1))
          {| fs := d1; opens := opens w |}
    | (Raise e, d1) =>
        (Return (backup_failed filepath e), {| fs := d1; opens := opens w |})
    end.
Proof.
  unfold unlock_encrypted. unfold bind at 1. unfold try, on_disk.
  destruct (create_backup filepath backup_dir_name (fs w)) as [[p|e] d1]; [|done].
  by rewrite bind_unfold.
Qed.

Lemma dry_run_encrypted_unfold (filepath : Path) (passwords : Iterable)
    backup_dir_name w :
  dry_run_encrypted filepath passwords backup_dir_name w
  = match validate_backup_path_no_side_effects filepath backup_dir_name (fs w) with
    | (Return _, d1) =>
        dry_run_trials filepath (yields (passwords d1)) (breaks (passwords d1))
          {| fs := d1; opens := opens w |}
    | (Raise e, d1) =>
        (Return (backup_failed filepath e), {| fs := d1; opens := opens w |})
    end.
Proof.
  unfold dry_run_encrypted. unfold bind at 1. unfold try, on_disk.
  destruct (validate_backup_path_no_side_effects filepath backup_dir_name (fs w))
    as [[p|e] d1]; [|done].
  by rewrite bind_unfold.
Qed.

(** C3.  A file that opens without a password is reported [UNCHANGED]
    with the method "already_unlocked" by [unlock_file] and by
    [try_unlock_dry_run], whatever the passwords and the backup
    directory name; the disk is left as it was, so no backup directory
    or file appears, and the only call of [pikepdf.open] is the one
    without a password. *)
Theorem already_unlocked_is_unchanged
    (filepath : Path) (passwords : Iterable) (backup_dir_name : str)
    (w : World) (pdf : Pdf) :
  open_on (fs w) filepath None = Return pdf ->
  let unchanged_result :=
    {| file_path := filepath; status := UNCHANGED; error_message := None;
       method_used := Some (py "already_unlocked") |} in
  let w' := {| fs := fs w; opens := opens w ++ [(filepath, None)] |} in
  unlock_file filepath passwords backup_dir_name w = (Return unchanged_result, w')
  /\ try_unlock_dry_run filepath passwords backup_dir_name w
     = (Return unchanged_result, w').
Proof.
  intros Hopen unchanged_result w'. split.
  - by rewrite (unlock_file_plain _ _ _ _ _ Hopen).
  - by rewrite (try_unlock_dry_run_plain _ _ _ _ _ Hopen).
Qed.

(** C2.  When the file does not open without a password and the backup
    step (validation, then copy) raises [e], [unlock_file] returns
    [FAILED] with the message "Failed to create backup: " followed by
    [str(e)], whatever the passwords are: the journal of
    [pikepdf.open] holds the classification call and no call with a
    password.  The disk is as the failed backup step left it. *)
Theorem backup_failure_tries_no_password
    (filepath : Path) (passwords : Iterable) (backup_dir_name : str)
    (w : World) (e0 e : exn) (d1 : gmap Path Node) :
  open_on (fs w) filepath None = Raise e0 ->
  create_backup filepath backup_dir_name (fs w) = (Raise e, d1) ->
  unlock_file filepath passwords backup_dir_name w
  = (Return {| file_path := filepath; status := FAILED;
               error_message := Some (py "Failed to create backup: " ++ str_of e);
               method_used := None |},
     {| fs := d1; opens := opens w ++ [(filepath, None)] |}).
Proof.
  intros Hopen Hbackup.
  rewrite (unlock_file_encrypted _ _ _ _ _ Hopen), unlock_encrypted_unfold.
  cbn [journal fs opens]. by rewrite Hbackup.
Qed.

(** *** No result blames the classification *)

Lemma later_result_not_check_failed (filepath : Path) r e :
  later_result filepath r -> r <> check_failed filepath e.
Proof.
  intros [e'|source|e'|]; unfold check_failed, backup_failed, unlocked,
    processing_failed, all_failed; intros Heq; injection Heq; clear Heq;
    cbn; discriminate.
Qed.

(** The loops end with a result of theirs, or with the exception that
    ends the iteration. *)
Lemma unlock_trials_outcome (filepath : Path) (passwords : list (str * str))
    (ending : option exn) :
  forall w, exists w',
    (exists r, unlock_trials filepath passwords ending w = (Return r, w')
               /\ later_result filepath r)
    \/ (exists e, ending = Some e
                  /\ unlock_trials filepath passwords ending w = (Raise e, w')).
Proof.
  induction passwords as [|[password source] rest IH]; intros w.
  - simpl. destruct ending as [e|].
    + exists w. right. by exists e.
    + exists w. left. eexists. split; [reflexivity | constructor].
  - rewrite unlock_trials_cons. cbv zeta.
    destruct (open_on (fs w) filepath (Some password)) as [pdf|e].
    + destruct (atomic_write filepath (pdf_save pdf) (fs w)) as [[u|e] d'].
      * eexists. left. eexists. split; [reflexivity | constructor].
      * destruct (is_PasswordError e); [apply IH|].
        eexists. left. eexists. split; [reflexivity | constructor].
    + destruct (is_PasswordError e); [apply IH|].
      eexists. left. eexists. split; [reflexivity | constructor].
Qed.

Lemma dry_run_trials_outcome (filepath : Path) (passwords : list (str * str))
    (ending : option exn) :
  forall w, exists w',
    (exists r, dry_run_trials filepath passwords ending w = (Return r, w')
               /\ later_result filepath r)
    \/ (exists e, ending = Some e
                  /\ dry_run_trials filepath passwords ending w = (Raise e, w')).
Proof.
  induction passwords as [|[password source] rest IH]; intros w.
  - simpl. destruct ending as [e|].
    + exists w. right. by exists e.
    + exists w. left. eexists. split; [reflexivity | constructor].
  - rewrite dry_run_trials_cons.
    destruct (open_on (fs w) filepath (Some password)) as [pdf|e].
    + eexists. left. eexists. split; [reflexivity | constructor].
    + destruct (is_PasswordError e); [apply IH|].
      eexists. left. eexists. split; [reflexivity | constructor].
Qed.

Lemma unlock_encrypted_outcome (filepath : Path) (passwords : Iterable)
    backup_dir_name w :
  exists w',
    (exists r, unlock_encrypted filepath passwords backup_dir_name w = (Return r, w')
               /\ later_result filepath r)
    \/ (exists e d, breaks (passwords d) = Some e
                    /\ unlock_encrypted filepath passwords backup_dir_name w
                       = (Raise e, w')).
Proof.
  rewrite unlock_encrypted_unfold.
  destruct (create_backup filepath backup_dir_name (fs w)) as [[p|e] d1].
  - destruct (unlock_trials_outcome filepath (yields (passwords d1))
                (breaks (passwords d1)) {| fs := d1; opens := opens w |})
      as (w' & [Hr|(e & He & Hraise)]).
    + exists w'. by left.
    + exists w'. right. by exists e, d1.
  - eexists. left. eexists. split; [reflexivity | constructor].
Qed.

Lemma dry_run_encrypted_outcome (filepath : Path) (passwords : Iterable)
    backup_dir_name w :
  exists w',
    (exists r, dry_run_encrypted filepath passwords backup_dir_name w = (Return r, w')
               /\ later_result filepath r)
    \/ (exists e d, breaks (passwords d) = Some e
                    /\ dry_run_encrypted filepath passwords backup_dir_name w
                       = (Raise e, w')).
Proof.
  rewrite dry_run_encrypted_unfold.
  destruct (validate_backup_path_no_side_effects filepath backup_dir_name (fs w))
    as [[p|e] d1].
  - destruct (dry_run_trials_outcome filepath (yields (passwords d1))
                (breaks (passwords d1)) {| fs := d1; opens := opens w |})
      as (w' & [Hr|(e & He & Hraise)]).
    + exists w'. by left.
    + exists w'. right. by exists e, d1.
  - eexists. left. eexists. split; [reflexivity | constructor].
Qed.

Lemma already_unlocked_not_check_failed (filepath : Path) e :
  already_unlocked filepath <> check_failed filepath e.
Proof. discriminate. Qed.

(** *** The dry run against the real run *)

Lemma open_on_same (d1 d0 : gmap Path Node) (filepath : Path) password :
  d1 !! filepath = d0 !! filepath ->
  open_on d1 filepath password = open_on d0 filepath password.
Proof. unfold open_on. by intros ->. Qed.

Lemma dry_run_trials_disk (filepath : Path) (passwords : list (str * str))
    (ending : option exn) :
  forall w, fs (dry_run_trials filepath passwords ending w).2 = fs w.
Proof.
  induction passwords as [|[password source] rest IH]; intros w; simpl;
    [by destruct ending|].
  unfold bind at 1. unfold try, pikepdf_open.
  destruct (open_on (fs w) filepath (Some password)) as [pdf|e]; [done|].
  destruct (is_PasswordError e); [|done].
  by rewrite IH.
Qed.

Lemma try_unlock_dry_run_disk (filepath : Path) passwords backup_dir_name w :
  fs (try_unlock_dry_run filepath passwords backup_dir_name w).2 = fs w.
Proof.
  destruct (open_on (fs w) filepath None) as [pdf|e] eqn:He.
  - by rewrite (try_unlock_dry_run_plain _ _ _ _ _ He).
  - rewrite (try_unlock_dry_run_encrypted _ _ _ _ _ He).
    rewrite dry_run_encrypted_unfold.
    destruct (validate_backup_path_no_side_effects filepath backup_dir_name
                (fs (journal w filepath None))) as [r d'] eqn:Hval.
    apply validate_backup_path_no_side_effects_disk in Hval as ->.
    destruct r as [bp|e']; [|done].
    by rewrite dry_run_trials_disk.
Qed.

(** While every save it reaches returns, the loop of [unlock_file]
    ends as the loop of the dry run does on a disk that holds the same
    file. *)
Lemma trials_agree (filepath : Path) (passwords : list (str * str))
    (ending : option exn) :
  forall w1 w0,
    fs w1 !! filepath = fs w0 !! filepath ->
    saves_succeed filepath passwords (fs w1) = true ->
    (unlock_trials filepath passwords ending w1).1
    = (dry_run_trials filepath passwords ending w0).1.
Proof.
  induction passwords as [|[password source] rest IH]; intros w1 w0 Hsame Hsaves;
    simpl; [by destruct ending|].
  simpl in Hsaves.
  unfold bind at 1 3. unfold try. unfold bind at 1. unfold pikepdf_open.
  rewrite <- (open_on_same _ _ _ (Some password) Hsame).
  destruct (open_on (fs w1) filepath (Some password)) as [pdf|e].
  - unfold on_disk. cbn [fs journal].
    destruct (atomic_write filepath (pdf_save pdf) (fs w1)) as [[u|e] d']; done.
  - destruct (is_PasswordError e); [|done].
    by apply IH.
Qed.

(** C5, amended.  [try_unlock_dry_run] never changes the disk: no file
    or directory is created and the target is not written.  And
    whenever every mutating step that [unlock_file] reaches on that
    disk returns (the backup validation and copy, and the atomic save
    for the password that opens the file), the two functions return
    the same result: same status, same method, same message.  The
    passwords are those of an iterable that gives the same before and
    after the backup step, as every list does, and every generator
    whose wordlist the backup step does not write to. *)
Theorem dry_run_previews_unlock_file
    (filepath : Path) (passwords : Iterable) (backup_dir_name : str)
    (w : World) :
  fs (try_unlock_dry_run filepath passwords backup_dir_name w).2 = fs w
  /\ (mutations_succeed filepath (yields (passwords (fs w))) backup_dir_name
        (fs w) = true ->
      (forall bp d1,
         create_backup filepath backup_dir_name (fs w) = (Return bp, d1) ->
         passwords d1 = passwords (fs w)) ->
      (try_unlock_dry_run filepath passwords backup_dir_name w).1
      = (unlock_file filepath passwords backup_dir_name w).1).
Proof.
  split; [apply try_unlock_dry_run_disk|].
  unfold mutations_succeed.
  destruct (open_on (fs w) filepath None) as [pdf|e] eqn:He.
  - intros _ _. by rewrite (try_unlock_dry_run_plain _ _ _ _ _ He),
      (unlock_file_plain _ _ _ _ _ He).
  - rewrite (try_unlock_dry_run_encrypted _ _ _ _ _ He),
      (unlock_file_encrypted _ _ _ _ _ He).
    rewrite dry_run_encrypted_unfold, unlock_encrypted_unfold.
    cbn [fs journal opens].
    destruct (create_backup filepath backup_dir_name (fs w)) as [[bp|e'] d1] eqn:Hbackup;
      [|done].
    intros Hsaves Hsame. rewrite (Hsame bp d1 eq_refl).
    destruct (create_backup_keeps_source _ _ _ _ _ Hbackup) as [Hkeep _].
    unfold create_backup in Hbackup.
    apply bind_Return in Hbackup as (bp' & d' & Hval & _).
    rewrite (validate_backup_path_feasible _ _ _ _ _ Hval).
    symmetry. by apply trials_agree.
Qed.

End UnlockerFacts.

(** ** cli.py *)

Section CliFacts.

Context `{Unicodedata} `{Unicodecase} `{Logging} `{Shell} `{Pikepdf} `{Device}.



Lemma on_disk_exists (p : Path) w :
  on_disk (exists_ p) w = (Return (bool_decide (is_Some (fs w !! p))), w).
Proof. by destruct w. Qed.

(** The factory of [main] always hands out a generator of
    [iter_passwords], and reads only. *)
Lemma password_factory_returns (o : Options) (path : Path) w :
  exists final_dict_path,
    password_factory o path w
    = (Return (iter_passwords_generator (opt_password o) final_dict_path
                 (Some os_environ) (opt_try_empty o)), w).
Proof.
  unfold password_factory. unfold bind at 1.
  destruct (truthy (opt_dictionary o)).
  - unfold bind at 1. rewrite on_disk_exists.
    destruct (bool_decide _).
    + unfold ret at 1. by eexists.
    + unfold bind at 1. rewrite on_disk_exists.
      destruct (bool_decide _); unfold ret at 1; by eexists.
  - unfold ret at 1. by eexists.
Qed.


Section Loop.

Variable factory : M World Iterable.
Variable started : Iterable -> Prop.
Hypothesis factory_returns :
  forall w, exists passwords w', factory w = (Return passwords, w') /\ started passwords.
Variable backup_dir_name : str.
Variable dry_run : bool.





End Loop.



(** [main] up to the traversal. *)
Lemma main_unfold (o : Options) (w : World) :
  main o w
  = match opt_path o with
    | None => (Return 2, w)
    | Some path =>
        if negb (is_existing_directory (fs w) path) then (Return 2, w)
        else
          match setLevel_fault (opt_log_level o) with
          | Some e => (Raise e, w)
          | None =>
              match scanner.find_pdfs (fs w) path (py "pdf_with_password") with
              | Raise e => (Raise e, w)
              | Return [] => (Return 0, w)
              | Return pdf_files =>
                  (c <- process_pdfs pdf_files (password_factory o path)
                          match opt_backup_root o with
                          | Some backup_root => name backup_root
                          | None => opt_backup_dir_name o
                          end (opt_dry_run o) ;;
                   ret (if Nat.eqb (failed c) 0 then 0 else 1)) w
              end
          end
    end.
Proof.
  unfold main. destruct (opt_path o) as [path|]; [|done].
  rewrite bind_unfold, on_disk_get.
  destruct (negb (is_existing_directory (fs w) path)); [done|].
  rewrite bind_unfold. unfold get_logger.
  destruct (setLevel_fault (opt_log_level o)) as [e|]; [done|].
  unfold ret at 1. rewrite bind_unfold. unfold lift.
  destruct (scanner.find_pdfs (fs w) path (py "pdf_with_password")) as [[|p l]|e];
    done.
Qed.


End CliFacts.

(** ** io_utils.py: every way out of its functions *)

Section DiskOutcomes.

Implicit Types (d : gmap Path Node) (p q : Path).

(** The primitives, whatever they answer: what the disk can look like
    afterwards. *)
Lemma mkdir_exist_ok_disk p d (r : outcome unit) d' :
  mkdir_exist_ok p d = (r, d') ->
  d' = d \/ (d !! p = None /\ d' = <[p := Dir true]> d).
Proof.
  unfold mkdir_exist_ok, check_entry_change. run.
  destruct (d !! p) as [[|writable]|] eqn:Hp; try (intros [= _ <-]; by left).
  destruct (d !! parent p) as [[|[]]|]; intros [= _ <-]; auto.
Qed.

Lemma touch_disk p d (r : outcome unit) d' :
  touch p d = (r, d') ->
  d' = d \/ (d !! p = None /\ d' = <[p := File [] true]> d).
Proof.
  unfold touch, check_entry_change. run.
  destruct (d !! p) as [n|] eqn:Hp; try (intros [= _ <-]; by left).
  destruct (d !! parent p) as [[|[]]|]; intros [= _ <-]; auto.
Qed.

Lemma unlink_disk (missing_ok : bool) p d (r : outcome unit) d' :
  unlink missing_ok p d = (r, d') ->
  d' = d \/ ((exists content mode, d !! p = Some (File content mode)) /\ d' = delete p d).
Proof.
  unfold unlink, check_entry_change. run.
  destruct (d !! p) as [[content mode|]|] eqn:Hp.
  - destruct (d !! parent p) as [[|[]]|]; intros [= _ <-]; eauto.
  - intros [= _ <-]; by left.
  - destruct missing_ok; intros [= _ <-]; by left.
Qed.

Lemma copy2_disk (src dst : Path) d (r : outcome unit) d' :
  copy2 src dst d = (r, d') ->
  d' = d
  \/ exists content mode, d !! src = Some (File content mode)
       /\ d' = <[copy_target d src dst := File content mode]> d.
Proof.
  unfold copy2, check_entry_change. run.
  set (target := copy_target d src dst).
  destruct (d !! src) as [[content mode|]|]; try (intros [= _ <-]; by left).
  destruct (d !! target) as [[old []|]|].
  - intros [= _ <-]. right. by exists content, mode.
  - intros [= _ <-]. by left.
  - intros [= _ <-]. by left.
  - destruct (d !! parent target) as [[|[]]|]; intros [= _ <-]; eauto.
Qed.

End DiskOutcomes.

Section AtomicWriteOutcomes.

Context `{Device}.

Implicit Types (d : gmap Path Node).

(** The name of the temporary file a call on the disk [d] works with. *)
Let tmp_of (filepath : Path) d : Path :=
  parent filepath // temp_name d (parent filepath) (py ".tmp").

Lemma NamedTemporaryFile_disk (dir : Path) (suffix : str) d r d' :
  NamedTemporaryFile dir suffix d = (r, d') ->
  (d' = d /\ exists e, r = Raise e)
  \/ (r = Return (dir // temp_name d dir suffix)
      /\ d !! (dir // temp_name d dir suffix) = None
      /\ d !! dir = Some (Dir true)
      /\ d' = <[dir // temp_name d dir suffix := File [] true]> d).
Proof.
  unfold NamedTemporaryFile, check_entry_change. run.
  destruct (d !! (dir // _)) eqn:Hfree; [intros [= <- <-]; eauto|].
  destruct (d !! dir) as [[|[]]|] eqn:Hdir; intros [= <- <-]; eauto.
Qed.

(** Every run of [atomic_write], taken apart: it stops at the creation
    of the temporary file, or in the block (and then removes the
    temporary file), or at the rename, or it returns. *)
Lemma atomic_write_cases (filepath : Path) (body : producer) d r d' :
  atomic_write filepath body d = (r, d') ->
  let tmp := tmp_of filepath d in
  let full := <[tmp := File (concat (chunks body)) true]> d in
  (d' = d /\ exists e, r = Raise e)
  \/ (d !! tmp = None /\ d !! parent filepath = Some (Dir true)
      /\ os_replace tmp filepath full = (r, d')).
Proof.
  intros Hm tmp full. unfold atomic_write in Hm.
  rewrite bind_unfold in Hm.
  destruct (NamedTemporaryFile _ _ d) as [rt d1] eqn:Hcreate.
  apply NamedTemporaryFile_disk in Hcreate
    as [[-> [e ->]]|(-> & Hfree & Hdir & ->)].
  { injection Hm as <- <-. left. eauto. }
  fold (tmp_of filepath d) in Hm, Hfree. fold tmp in Hm, Hfree.
  rewrite bind_unfold in Hm. unfold try in Hm.
  destruct (produce_and_sync body tmp _) as [rb d2] eqn:Hbody.
  assert (Hd2 := produce_and_sync_disk body tmp _ [] true _ _
                   (lookup_insert_eq _ _ _) Hbody).
  simpl in Hd2. rewrite insert_insert_eq in Hd2. subst d2.
  destruct rb as [[]|e].
  - right. done.
  - left. revert Hm. unfold unlink, check_entry_change. run.
    rewrite lookup_insert_eq.
    rewrite lookup_insert_ne by apply Child_neq.
    rewrite Hdir. cbn. rewrite delete_insert_id by done.
    intros [= <- <-]. eauto.
Qed.

Lemma os_replace_disk (src dst : Path) d (r : outcome unit) d' :
  os_replace src dst d = (r, d') ->
  (d' = d /\ exists e, r = Raise e)
  \/ (r = Return tt
      /\ exists content mode, d !! src = Some (File content mode)
         /\ d' = <[dst := File content mode]> (delete src d)).
Proof.
  unfold os_replace, check_entry_change. run.
  destruct (d !! src) as [[content mode|]|]; try (intros [= <- <-]; eauto).
  destruct (d !! dst) as [[|]|];
    try (intros [= <- <-]; eauto);
    destruct (d !! parent src) as [[|[]]|]; try (intros [= <- <-]; eauto);
    destruct (d !! parent dst) as [[|[]]|]; intros [= <- <-]; eauto 8.
Qed.

(** A rename of the finished temporary file onto itself cannot fail:
    a failed rename has a target other than the temporary file. *)
Lemma os_replace_same (p q : Path) d content mode e d' :
  q = p ->
  d !! p = Some (File content mode) ->
  d !! parent p = Some (Dir true) ->
  os_replace p q d = (Raise e, d') -> False.
Proof.
  intros -> Hp Hdir. unfold os_replace, check_entry_change. run.
  rewrite Hp. cbn. rewrite Hdir. cbn. rewrite Hdir. cbn. discriminate.
Qed.

(** What a failed [atomic_write] leaves. *)
Lemma atomic_write_Raise
    (filepath : Path) (body : producer) d e d' :
  atomic_write filepath body d = (Raise e, d') ->
  d' !! filepath = d !! filepath
  /\ (forall p,
        p <> parent filepath // temp_name d (parent filepath) (py ".tmp") ->
        d' !! p = d !! p).
Proof.
  intros Hm. apply atomic_write_cases in Hm as [[-> _]|(Hfree & Hdir & Hmv)];
    [done|].
  set (tmp := tmp_of filepath d) in *.
  assert (Hne : filepath <> tmp).
  { intros Heq. eapply os_replace_same; [exact Heq| | |exact Hmv].
    - apply lookup_insert_eq.
    - rewrite lookup_insert_ne by apply Child_neq. exact Hdir. }
  apply os_replace_disk in Hmv as [[-> _]|[[=] _]].
  split; [by rewrite lookup_insert_ne|].
  intros p Hp. by rewrite lookup_insert_ne.
Qed.

(** A save that ends with [PasswordError] was stopped before the
    rename, which raises [OSError]s only: the temporary file is gone
    and the disk is as it was.  So the candidates that the loop of
    [unlock_file] goes past leave the disk as the loop found it. *)
Lemma rejected_save_keeps_disk (filepath : Path) (body : producer) d e d' :
  atomic_write filepath body d = (Raise e, d') ->
  is_PasswordError e = true ->
  d' = d.
Proof.
  intros Hm He.
  apply atomic_write_cases in Hm as [[-> _]|(_ & _ & Hmv)]; [done|].
  revert Hmv. unfold os_replace, check_entry_change.
  unfold bind, get, put, ret, raise.
  repeat match goal with
         | |- context [match ?m !! ?k with _ => _ end] =>
             destruct (m !! k) as [[? ?|[]]|]
         end;
    intros [= <- <-]; discriminate.
Qed.

(** X1.  However [atomic_write] fails (the temporary file cannot be
    created, the body, the flush or the sync raises, or the final
    rename is refused), the target holds exactly what it held before
    the call, and no other path differs from the initial disk except,
    possibly, the temporary file. *)
Theorem atomic_write_failure_keeps_target
    (filepath : Path) (body : producer) d e d' :
  atomic_write filepath body d = (Raise e, d') ->
  d' !! filepath = d !! filepath
  /\ (forall p,
        p <> parent filepath // temp_name d (parent filepath) (py ".tmp") ->
        d' !! p = d !! p).
Proof. apply atomic_write_Raise. Qed.

(** What an [atomic_write] that returned leaves. *)
Lemma atomic_write_Return
    (filepath : Path) (body : producer) d u d' :
  atomic_write filepath body d = (Return u, d') ->
  d' = <[filepath := File (concat (chunks body)) true]> d.
Proof.
  intros Hm. apply atomic_write_cases in Hm as [[_ [e [=]]]|(Hfree & Hdir & Hmv)].
  apply os_replace_disk in Hmv as [[_ [e [=]]]|[_ (content & mode & Htmp & ->)]].
  rewrite lookup_insert_eq in Htmp. injection Htmp as <- <-.
  by rewrite delete_insert_id.
Qed.

(** X2.  When [atomic_write] returns, the disk is the initial disk
    with one change: the target holds the concatenation of everything
    the body wrote.  The temporary file is gone, and the body did not
    raise. *)
Theorem atomic_write_return_is_whole_content
    (filepath : Path) (body : producer) d u d' :
  atomic_write filepath body d = (Return u, d') ->
  d' = <[filepath := File (concat (chunks body)) true]> d.
Proof. apply atomic_write_Return. Qed.

Lemma NamedTemporaryFile_succeeds (dir : Path) (suffix : str) d :
  d !! dir = Some (Dir true) ->
  d !! (dir // temp_name d dir suffix) = None ->
  NamedTemporaryFile dir suffix d
  = (Return (dir // temp_name d dir suffix),
     <[dir // temp_name d dir suffix := File [] true]> d).
Proof.
  intros Hdir Hfree. unfold NamedTemporaryFile, check_entry_change.
  unfold bind, get, put, ret, raise. cbn. by rewrite Hfree, Hdir.
Qed.

Lemma produce_and_sync_succeeds (body : producer) (tmp : Path) d :
  raises body = None ->
  flush_fault tmp (concat (chunks body)) = None ->
  fsync_fault tmp (concat (chunks body)) = None ->
  produce_and_sync body tmp (<[tmp := File [] true]> d)
  = (Return tt, <[tmp := File (concat (chunks body)) true]> d).
Proof.
  intros Hbody Hflush Hsync.
  unfold produce_and_sync, produce, flush, fsync, content_of.
  unfold bind, get, put, ret, raise.
  rewrite (write_all_spec _ _ _ [] true (lookup_insert_eq _ _ _)). cbn.
  rewrite insert_insert_eq, Hbody, lookup_insert_eq, Hflush. cbn.
  rewrite lookup_insert_eq, Hsync. done.
Qed.

(** X3.  [atomic_write] does return when the directory of the target
    is writable, the name drawn for the temporary file is free, the
    target is not a directory, the body does not raise and the device
    accepts the flush and the sync. *)
Theorem atomic_write_succeeds
    (filepath : Path) (body : producer) d :
  let tmp := parent filepath // temp_name d (parent filepath) (py ".tmp") in
  d !! parent filepath = Some (Dir true) ->
  d !! tmp = None ->
  (forall writable, d !! filepath <> Some (Dir writable)) ->
  raises body = None ->
  flush_fault tmp (concat (chunks body)) = None ->
  fsync_fault tmp (concat (chunks body)) = None ->
  atomic_write filepath body d
  = (Return tt, <[filepath := File (concat (chunks body)) true]> d).
Proof.
  intros tmp Hdir Hfree Htarget Hbody Hflush Hsync.
  assert (Hcreate := NamedTemporaryFile_succeeds _ (py ".tmp") d Hdir Hfree).
  assert (Hblock := produce_and_sync_succeeds body tmp d Hbody Hflush Hsync).
  fold tmp in Hcreate.
  unfold atomic_write. rewrite bind_unfold, Hcreate.
  rewrite bind_unfold. unfold try. rewrite Hblock.
  unfold os_replace, check_entry_change. run.
  rewrite lookup_insert_eq. cbn.
  assert (Hpar : (<[tmp := File (concat (chunks body)) true]> d) !! parent filepath
                 = Some (Dir true)).
  { rewrite lookup_insert_ne by apply Child_neq. done. }
  rewrite lookup_insert.
  destruct (decide (tmp = filepath)) as [Heq|Hne]; cbn.
  - rewrite Hpar. cbn. rewrite Hpar. cbn. by rewrite delete_insert_id.
  - destruct (d !! filepath) as [[content mode|writable]|] eqn:Hf; cbn;
      [| by destruct (Htarget writable) |];
      rewrite Hpar; cbn; rewrite Hpar; cbn; by rewrite delete_insert_id.
Qed.

(** X4.  The rename is outside the [try] block: when the target is a
    directory and everything before the rename went well,
    [atomic_write] raises [IsADirectoryError] and the finished
    temporary file stays behind in the target's directory. *)
Theorem atomic_write_refused_rename_leaves_temporary_file
    (filepath : Path) (body : producer) d (writable : bool) :
  let tmp := parent filepath // temp_name d (parent filepath) (py ".tmp") in
  d !! filepath = Some (Dir writable) ->
  d !! parent filepath = Some (Dir true) ->
  d !! tmp = None ->
  raises body = None ->
  flush_fault tmp (concat (chunks body)) = None ->
  fsync_fault tmp (concat (chunks body)) = None ->
  atomic_write filepath body d
  = (Raise (EISDIR filepath), <[tmp := File (concat (chunks body)) true]> d).
Proof.
  intros tmp Htarget Hdir Hfree Hbody Hflush Hsync.
  assert (Hne : filepath <> tmp) by (intros Heq; congruence).
  assert (Hcreate := NamedTemporaryFile_succeeds _ (py ".tmp") d Hdir Hfree).
  assert (Hblock := produce_and_sync_succeeds body tmp d Hbody Hflush Hsync).
  fold tmp in Hcreate.
  unfold atomic_write. rewrite bind_unfold, Hcreate.
  rewrite bind_unfold. unfold try. rewrite Hblock.
  unfold os_replace. run.
  rewrite lookup_insert_eq. cbn.
  rewrite lookup_insert_ne by done. by rewrite Htarget.
Qed.

End AtomicWriteOutcomes.

(** ** io_utils.py: the backup functions at their edges *)

Section BackupOutcomes.

Implicit Types (d : gmap Path Node) (p q : Path).

Lemma bind_any {S A B} (m : M S A) (k : A -> M S B) s r s'' :
  (x <- m ;; k x) s = (r, s'') ->
  (exists e, m s = (Raise e, s'') /\ r = Raise e)
  \/ exists a s', m s = (Return a, s') /\ k a s' = (r, s'').
Proof.
  unfold bind. destruct (m s) as [[a|e] s']; [eauto|].
  intros [= <- <-]. eauto.
Qed.

Lemma probe_name_neq (n : str) : n ++ py ".tmp_test" <> n.
Proof.
  intros Heq. apply (f_equal length) in Heq.
  rewrite length_app in Heq.
  change (length (py ".tmp_test")) with 9%nat in Heq. lia.
Qed.

Lemma Child_inj_name p (n m : str) : n <> m -> p // n <> p // m.
Proof. intros Hne [=]. done. Qed.

Lemma ensure_backup_disk (src : Path) backup_dir_name d r d' :
  ensure_backup src backup_dir_name d = (r, d') ->
  let bd := parent src // backup_dir_name in
  d' = d \/ (d !! bd = None /\ d' = <[bd := Dir true]> d).
Proof.
  intros Hm bd. unfold ensure_backup in Hm.
  apply bind_any in Hm as [(e & Hmk & _)|(u & d1 & Hmk & Hret)].
  - by apply mkdir_exist_ok_disk in Hmk.
  - unfold ret in Hret. injection Hret as _ <-.
    by apply mkdir_exist_ok_disk in Hmk.
Qed.

(** Whatever they answer, the validation and the copy leave alone
    every entry that was on the disk and is neither the test file nor
    the place the copy writes to. *)
Lemma validate_backup_path_keeps (src : Path) backup_dir_name d r d' q :
  validate_backup_path src backup_dir_name d = (r, d') ->
  q <> parent src // backup_dir_name // (name src ++ py ".tmp_test") ->
  is_Some (d !! q) ->
  d' !! q = d !! q.
Proof.
  intros Hm Hq Hsome. unfold validate_backup_path in Hm.
  set (bd := parent src // backup_dir_name) in *.
  set (test_path := bd // (name src ++ py ".tmp_test")) in *.
  assert (Hens : forall r1 d1, ensure_backup src backup_dir_name d = (r1, d1) ->
                               d1 !! q = d !! q).
  { intros r1 d1 Hens. apply ensure_backup_disk in Hens as [->|[Hbd ->]]; [done|].
    fold bd in Hbd |- *. rewrite lookup_insert_ne; [done|].
    intros <-. rewrite Hbd in Hsome. by destruct Hsome. }
  apply bind_any in Hm as [(e & Hm & _)|(bd' & d1 & Hm1 & Hm)]; [by eapply Hens|].
  rewrite <- (Hens _ _ Hm1).
  assert (bd' = bd) as ->.
  { by apply ensure_backup_Return in Hm1 as [-> _]. }
  clear Hens Hm1.
  assert (Hrest : forall r2 d2,
    (e <- exists_ (bd // name src) ;;
     (if e : bool then stat (bd // name src) else ret tt) ;;
     touch test_path ;; unlink false test_path) d1 = (r2, d2) ->
    d2 !! q = d1 !! q).
  { intros r2 d2 Hb.
    apply bind_any in Hb as [(e & Hb & _)|(ex & d1' & Hex & Hb)].
    { unfold exists_ in Hb. by run. }
    unfold exists_, bind, get, ret in Hex. injection Hex as <- <-.
    assert (Hst : forall r3 d3,
      (if bool_decide (is_Some (d1 !! (bd // name src)))
       then stat (bd // name src) else ret tt) d1 = (r3, d3) -> d3 = d1).
    { intros r3 d3. destruct (bool_decide _).
      - unfold stat. unfold bind, get, ret, raise.
        destruct (d1 !! _); by intros [= _ <-].
      - by intros [= _ <-]. }
    apply bind_any in Hb as [(e & Hb & _)|(u & d1' & Hb1 & Hb)].
    { by rewrite (Hst _ _ Hb). }
    apply Hst in Hb1 as ->.
    assert (Htouch : forall r3 d3, touch test_path d1 = (r3, d3) ->
                                   d3 !! q = d1 !! q).
    { intros r3 d3 Ht. apply touch_disk in Ht as [->|[_ ->]]; [done|].
      by rewrite lookup_insert_ne. }
    apply bind_any in Hb as [(e & Hb & _)|(u' & d3 & Hb1 & Hb)].
    { by eapply Htouch. }
    rewrite <- (Htouch _ _ Hb1).
    apply unlink_disk in Hb as [->|[_ ->]]; [done|].
    by rewrite lookup_delete_ne. }
  unfold with_name in Hm. cbn [parent name] in Hm. fold test_path in Hm.
  apply bind_any in Hm as [(e & Hm & _)|(u & d2 & Hm & Hret)].
  - by eapply Hrest.
  - unfold ret in Hret. injection Hret as _ <-. by eapply Hrest.
Qed.

Lemma copy_backup_keeps (src : Path) backup_dir_name d r d' q :
  copy_backup src backup_dir_name d = (r, d') ->
  (length (components q) <= S (length (components (parent src))))%nat ->
  is_Some (d !! q) ->
  d' !! q = d !! q.
Proof.
  intros Hm Hq Hsome. unfold copy_backup in Hm.
  set (bd := parent src // backup_dir_name) in *.
  assert (Hens : forall r1 d1, ensure_backup src backup_dir_name d = (r1, d1) ->
                               d1 !! q = d !! q).
  { intros r1 d1 Hens. apply ensure_backup_disk in Hens as [->|[Hbd ->]]; [done|].
    fold bd in Hbd |- *. rewrite lookup_insert_ne; [done|].
    intros <-. rewrite Hbd in Hsome. by destruct Hsome. }
  apply bind_any in Hm as [(e & Hm & _)|(bd' & d1 & Hm1 & Hm)]; [by eapply Hens|].
  rewrite <- (Hens _ _ Hm1).
  assert (bd' = bd) as ->.
  { by apply ensure_backup_Return in Hm1 as [-> _]. }
  assert (Hcopy : forall r2 d2, copy2 src (bd // name src) d1 = (r2, d2) ->
                                d2 !! q = d1 !! q).
  { intros r2 d2 Hc. apply copy2_disk in Hc as [->|(content & mode & _ & ->)]; [done|].
    rewrite lookup_insert_ne; [done|]. symmetry. apply deeper_neq.
    unfold copy_target, bd.
    destruct (d1 !! (parent src // backup_dir_name // name src)) as [[|]|];
      simpl; lia. }
  apply bind_any in Hm as [(e & Hm & _)|(u & d2 & Hm & Hret)].
  - by eapply Hcopy.
  - unfold ret in Hret. injection Hret as _ <-. by eapply Hcopy.
Qed.

(** The backup step of [unlock_file], whatever it answers, leaves a
    source that is a regular file as it is. *)
Lemma create_backup_keeps_file (src : Path) backup_dir_name d r d' content mode :
  d !! src = Some (File content mode) ->
  create_backup src backup_dir_name d = (r, d') ->
  d' !! src = Some (File content mode).
Proof.
  intros Hsrc Hm. unfold create_backup in Hm.
  assert (Hdepth := depth_parent src).
  assert (Hval : forall r1 d1,
            validate_backup_path src backup_dir_name d = (r1, d1) ->
            d1 !! src = Some (File content mode)).
  { intros r1 d1 Hv. rewrite <- Hsrc.
    eapply validate_backup_path_keeps; [exact Hv| |by rewrite Hsrc].
    apply deeper_neq. simpl. lia. }
  apply bind_any in Hm as [(e & Hm & _)|(bp & d1 & Hm1 & Hm)]; [by eapply Hval|].
  apply Hval in Hm1. rewrite <- Hm1.
  eapply copy_backup_keeps; [exact Hm|lia|by rewrite Hm1].
Qed.

(** What [copy_backup] leaves when it returns and the backup path is
    not a directory. *)
Lemma copy_backup_Return (src : Path) backup_dir_name d bp d' :
  copy_backup src backup_dir_name d = (Return bp, d') ->
  (forall writable,
     d !! (parent src // backup_dir_name // name src) <> Some (Dir writable)) ->
  let bd := parent src // backup_dir_name in
  bp = bd // name src
  /\ exists content mode,
       d !! src = Some (File content mode)
       /\ d' !! src = Some (File content mode)
       /\ d' !! bp = Some (File content mode)
       /\ (forall q, q <> bp -> q <> bd -> d' !! q = d !! q).
Proof.
  intros Hm Hnodir bd. unfold copy_backup in Hm.
  apply bind_Return in Hm as (bd' & d1 & Hens & Hm).
  apply ensure_backup_Return in Hens as (-> & [wr Hbd1] & Hframe1 & _).
  fold bd in Hm, Hbd1, Hframe1, Hnodir.
  apply bind_Return in Hm as (u & d2 & Hcopy & Hret).
  unfold ret in Hret. injection Hret as <- <-.
  split; [done|].
  apply copy2_Return in Hcopy as (content & mode & Hsrc1 & ->).
  assert (Hbp_bd : bd // name src <> bd) by apply Child_neq.
  assert (Htarget : copy_target d1 src (bd // name src) = bd // name src).
  { unfold copy_target. rewrite Hframe1 by done.
    destruct (d !! (bd // name src)) as [[|writable]|] eqn:Hbp; try done.
    by destruct (Hnodir writable). }
  rewrite Htarget.
  assert (Hsrc_bd : src <> bd) by (intros Heq; rewrite <- Heq in Hbd1; congruence).
  assert (Hsrc_bp : src <> bd // name src).
  { assert (Hdepth := depth_parent src). apply deeper_neq. unfold bd. simpl. lia. }
  exists content, mode. rewrite Hframe1 in Hsrc1 by done.
  split; [done|]. split.
  { rewrite lookup_insert_ne by done. by rewrite Hframe1. }
  split; [apply lookup_insert_eq|].
  intros q Hq1 Hq2. rewrite lookup_insert_ne by done. by apply Hframe1.
Qed.

(** X5.  [ensure_backup] can be repeated: once it has returned, a
    second call on the resulting disk returns the same directory and
    changes nothing. *)
Theorem ensure_backup_idempotent (src : Path) backup_dir_name d bd d' :
  ensure_backup src backup_dir_name d = (Return bd, d') ->
  ensure_backup src backup_dir_name d' = (Return bd, d').
Proof.
  intros Hm. apply ensure_backup_Return in Hm as (-> & [wr Hbd] & _ & _).
  unfold ensure_backup, mkdir_exist_ok. unfold bind, get, ret.
  by rewrite Hbd.
Qed.

(** X6.  The check without side effects and the real validation
    part ways when a regular file sits where the backup directory
    should be.  [validate_backup_path] raises [FileExistsError] from
    [mkdir].  The dry check only asks [os.access] about the entry: it
    accepts when the file is writable, and for a read-only file it
    raises [PermissionError] with the message "Backup directory exists
    but is not writable: ...".  Neither changes the disk. *)
Theorem backup_dir_is_a_file_dry_check_asks_access_only
    (src : Path) backup_dir_name d content (writable : bool) :
  let bd := parent src // backup_dir_name in
  d !! bd = Some (File content writable) ->
  validate_backup_path_no_side_effects src backup_dir_name d
  = (if writable then Return (bd // name src)
     else Raise {| class_of := PermissionError;
                   str_of := py "Backup directory exists but is not writable: "
                             ++ str_of_path bd |},
     d)
  /\ validate_backup_path src backup_dir_name d = (Raise (EEXIST bd), d).
Proof.
  intros bd Hbd. split.
  - unfold validate_backup_path_no_side_effects, exists_, access_W_OK.
    unfold bind, get, ret, raise. fold bd.
    rewrite bool_decide_eq_true_2 by (rewrite Hbd; eauto).
    cbv beta iota. rewrite Hbd. by destruct writable.
  - unfold validate_backup_path, ensure_backup, mkdir_exist_ok.
    unfold bind, get, ret, raise. fold bd. by rewrite Hbd.
Qed.

(** X7.  A validation that returns leaves no test file: whatever was
    at [<backup dir>/<name>.tmp_test] before the call (a file of that
    name is only touched, then unlinked) is gone, the backup
    directory is a writable directory, and every other path is as it
    was. *)
Theorem validate_backup_path_leaves_no_test_file
    (src : Path) backup_dir_name d bp d' :
  validate_backup_path src backup_dir_name d = (Return bp, d') ->
  let bd := parent src // backup_dir_name in
  let test_path := bd // (name src ++ py ".tmp_test") in
  d' !! test_path = None
  /\ d' !! bd = Some (Dir true)
  /\ (forall q, q <> bd -> q <> test_path -> d' !! q = d !! q).
Proof.
  intros Hm bd test_path.
  destruct (validate_backup_path_Return _ _ _ _ _ Hm) as (_ & Hbd & Hframe & _).
  split; [|by split].
  unfold validate_backup_path in Hm.
  apply bind_Return in Hm as (bd' & d1 & Hens & Hm).
  apply ensure_backup_Return in Hens as (-> & _).
  apply bind_Return in Hm as (u & d2 & Hm & Hret).
  unfold ret in Hret. injection Hret as <- <-.
  apply bind_Return in Hm as (e & d1' & _ & Hm).
  apply bind_Return in Hm as (u1 & d1'' & _ & Hm).
  apply bind_Return in Hm as (u2 & d3 & _ & Hunlink).
  apply unlink_Return in Hunlink as [_ ->].
  unfold with_name. cbn [parent name]. apply lookup_delete_eq.
Qed.

(** X8.  When [copy_backup] returns and the backup path is not a
    directory, the source was a regular file, it is unchanged, the
    backup path [<parent>/<backup dir>/<name>] holds exactly the
    source's bytes, under the source's mode, and nothing else changed
    except that the backup directory may have been created. *)
Theorem copy_backup_copies_source (src : Path) backup_dir_name d bp d' :
  copy_backup src backup_dir_name d = (Return bp, d') ->
  (forall writable,
     d !! (parent src // backup_dir_name // name src) <> Some (Dir writable)) ->
  bp = parent src // backup_dir_name // name src
  /\ exists content mode,
       d !! src = Some (File content mode)
       /\ d' !! src = Some (File content mode)
       /\ d' !! bp = Some (File content mode)
       /\ (forall q, q <> bp -> q <> parent src // backup_dir_name ->
                     d' !! q = d !! q).
Proof.
  intros Hm Hnodir. by apply copy_backup_Return.
Qed.

(** X9.  [copy_backup] makes the backup directory before it looks at
    the source: with a missing source it raises [FileNotFoundError]
    for the source and the new, empty backup directory stays on the
    disk. *)
Theorem copy_backup_missing_source_leaves_directory
    (src : Path) backup_dir_name d :
  let bd := parent src // backup_dir_name in
  d !! src = None ->
  d !! parent src = Some (Dir true) ->
  d !! bd = None ->
  backup_dir_name <> name src ->
  copy_backup src backup_dir_name d = (Raise (ENOENT src), <[bd := Dir true]> d).
Proof.
  intros bd Hsrc Hpar Hbd Hname.
  assert (Hne : bd <> src).
  { intros Heq. apply Hname. by rewrite <- Heq. }
  unfold copy_backup, ensure_backup, mkdir_exist_ok, check_entry_change, copy2.
  unfold bind, get, put, ret, raise. subst bd. cbn [parent].
  rewrite Hbd, Hpar. cbv beta iota.
  rewrite lookup_insert_ne by done. by rewrite Hsrc.
Qed.

(** X26.  The check without side effects raises no false alarm:
    wherever [validate_backup_path] returns, the dry check on the same
    disk returns the same backup path (and, as always, changes
    nothing). *)
Theorem dry_check_accepts_what_validation_accepts
    (src : Path) backup_dir_name d bp d' :
  validate_backup_path src backup_dir_name d = (Return bp, d') ->
  validate_backup_path_no_side_effects src backup_dir_name d = (Return bp, d).
Proof. apply validate_backup_path_feasible. Qed.

End BackupOutcomes.

(** ** unlocker.py: what the trials do to the file and to the journal *)

Section UnlockerOutcomes.

Context `{Pikepdf} `{Device}.

(** The loop on a regular file: it ends with the target rewritten by
    the save of a document one of the candidates opened, or without a
    result [UNLOCKED] and the target as it was; paths outside the
    target's directory are not touched. *)
Lemma unlock_trials_inv (filepath : Path) content mode
    (passwords : list (str * str)) (ending : option exn) :
  forall w o w',
    fs w !! filepath = Some (File content mode) ->
    unlock_trials filepath passwords ending w = (o, w') ->
    (forall q, parent q <> parent filepath -> fs w' !! q = fs w !! q)
    /\ ((exists password source pdf,
           (password, source) ∈ passwords
           /\ pdf_parse content (Some password) = Return pdf
           /\ o = Return (unlocked filepath source)
           /\ fs w' !! filepath
              = Some (File (concat (chunks (pdf_save pdf))) true))
        \/ ((forall r, o = Return r -> status r = FAILED)
            /\ fs w' !! filepath = Some (File content mode))).
Proof.
  induction passwords as [|[password source] rest IH]; intros w o w' Hfile.
  { simpl. destruct ending as [e|]; intros [= <- <-];
      (split; [done|]); right; (split; [|done]); intros r [=]. by subst r. }
  rewrite unlock_trials_cons. cbv zeta.
  rewrite (open_on_file _ _ _ _ _ Hfile).
  assert (Hrest : forall d1,
    d1 !! filepath = Some (File content mode) ->
    (forall q, parent q <> parent filepath -> d1 !! q = fs w !! q) ->
    forall e,
    (if is_PasswordError e
     then unlock_trials filepath rest ending
            {| fs := d1; opens := opens w ++ [(filepath, Some password)] |}
     else (Return (processing_failed filepath e),
           {| fs := d1; opens := opens w ++ [(filepath, Some password)] |}))
    = (o, w') ->
    (forall q, parent q <> parent filepath -> fs w' !! q = fs w !! q)
    /\ ((exists password0 source0 pdf,
           (password0, source0) ∈ (password, source) :: rest
           /\ pdf_parse content (Some password0) = Return pdf
           /\ o = Return (unlocked filepath source0)
           /\ fs w' !! filepath
              = Some (File (concat (chunks (pdf_save pdf))) true))
        \/ ((forall r, o = Return r -> status r = FAILED)
            /\ fs w' !! filepath = Some (File content mode)))).
  { intros d1 Hd1 Hframe e. destruct (is_PasswordError e).
    - intros Hm. apply IH in Hm as [Hfr Hcases]; [|done]. cbn [fs] in Hfr.
      split; [intros q Hq; by rewrite Hfr, Hframe|].
      destruct Hcases as [(pw & so & pdf & Hin & Hparse & -> & Hnew)|Hfail];
        [left|by right].
      exists pw, so, pdf. split; [by apply elem_of_cons; right|done].
    - intros [= <- <-]. cbn [fs]. split; [done|]. right.
      split; [|done]. intros r [=]. by subst r. }
  destruct (pdf_parse content (Some password)) as [pdf|e] eqn:Hparse.
  - destruct (atomic_write filepath (pdf_save pdf) (fs w)) as [[u|e] d'] eqn:Haw.
    + intros [= <- <-]. cbn [fs].
      apply atomic_write_Return in Haw as ->.
      split.
      * intros q Hq. rewrite lookup_insert_ne; [done|]. by intros <-.
      * left. exists password, source, pdf.
        split; [apply elem_of_cons; by left|].
        split; [done|]. split; [done|]. apply lookup_insert_eq.
    + apply atomic_write_Raise in Haw as [Htarget Hframe].
      apply Hrest; [by rewrite Htarget|].
      intros q Hq. apply Hframe. intros ->. by apply Hq.
  - by apply Hrest.
Qed.

(** Candidates the document rejects cost one open each and change
    nothing on the disk. *)
Lemma unlock_trials_wrong_prefix (filepath : Path) content mode
    (pre rest : list (str * str)) (ending : option exn) :
  forall w,
    fs w !! filepath = Some (File content mode) ->
    forallb (fun x => wrong_password content x.1) pre = true ->
    unlock_trials filepath (pre ++ rest) ending w
    = unlock_trials filepath rest ending
        {| fs := fs w; opens := opens w ++ trials_of filepath pre |}.
Proof.
  induction pre as [|[password source] pre IH]; intros w Hfile Hwrong.
  { simpl. rewrite app_nil_r. by destruct w. }
  simpl in Hwrong. apply andb_true_iff in Hwrong as [Hw Hwrong].
  rewrite <- app_comm_cons, unlock_trials_cons. cbv zeta.
  rewrite (open_on_file _ _ _ _ _ Hfile).
  unfold wrong_password in Hw.
  destruct (pdf_parse content (Some password)) as [pdf|e]; [done|].
  rewrite Hw, IH by done. cbn [fs opens trials_of map].
  by rewrite <- app_assoc.
Qed.

Lemma dry_run_trials_wrong_prefix (filepath : Path) content mode
    (pre rest : list (str * str)) (ending : option exn) :
  forall w,
    fs w !! filepath = Some (File content mode) ->
    forallb (fun x => wrong_password content x.1) pre = true ->
    dry_run_trials filepath (pre ++ rest) ending w
    = dry_run_trials filepath rest ending
        {| fs := fs w; opens := opens w ++ trials_of filepath pre |}.
Proof.
  induction pre as [|[password source] pre IH]; intros w Hfile Hwrong.
  { simpl. rewrite app_nil_r. by destruct w. }
  simpl in Hwrong. apply andb_true_iff in Hwrong as [Hw Hwrong].
  rewrite <- app_comm_cons, dry_run_trials_cons.
  rewrite (open_on_file _ _ _ _ _ Hfile).
  unfold wrong_password in Hw.
  destruct (pdf_parse content (Some password)) as [pdf|e]; [done|].
  rewrite Hw, IH by done. unfold journal. cbn [fs opens trials_of map].
  by rewrite <- app_assoc.
Qed.

(** The three ways the loop of [unlock_file] ends on a regular file:
    at the first candidate that opens the document, at the first error
    that is not a wrong password, or at the end of the iteration. *)
Lemma unlock_trials_winner (filepath : Path) content mode
    (pre post : list (str * str)) password source ending w pdf d2 :
  fs w !! filepath = Some (File content mode) ->
  forallb (fun x => wrong_password content x.1) pre = true ->
  pdf_parse content (Some password) = Return pdf ->
  atomic_write filepath (pdf_save pdf) (fs w) = (Return tt, d2) ->
  unlock_trials filepath (pre ++ (password, source) :: post) ending w
  = (Return (unlocked filepath source),
     {| fs := d2;
        opens := opens w ++ trials_of filepath (pre ++ [(password, source)]) |}).
Proof.
  intros Hfile Hwrong Hparse Hsave.
  rewrite (unlock_trials_wrong_prefix _ content mode) by done.
  rewrite unlock_trials_cons. cbv zeta. cbn [fs opens].
  rewrite (open_on_file _ _ _ _ _ Hfile), Hparse, Hsave.
  unfold trials_of. rewrite map_app. cbn [map].
  by rewrite <- !app_assoc.
Qed.

Lemma unlock_trials_other_error (filepath : Path) content mode
    (pre post : list (str * str)) password source ending w e :
  fs w !! filepath = Some (File content mode) ->
  forallb (fun x => wrong_password content x.1) pre = true ->
  pdf_parse content (Some password) = Raise e ->
  is_PasswordError e = false ->
  unlock_trials filepath (pre ++ (password, source) :: post) ending w
  = (Return (processing_failed filepath e),
     {| fs := fs w;
        opens := opens w ++ trials_of filepath (pre ++ [(password, source)]) |}).
Proof.
  intros Hfile Hwrong Hparse Hother.
  rewrite (unlock_trials_wrong_prefix _ content mode) by done.
  rewrite unlock_trials_cons. cbv zeta. cbn [fs opens].
  rewrite (open_on_file _ _ _ _ _ Hfile), Hparse, Hother.
  unfold trials_of. rewrite map_app. cbn [map].
  by rewrite <- !app_assoc.
Qed.

Lemma unlock_trials_all_wrong (filepath : Path) content mode
    (passwords : list (str * str)) ending w :
  fs w !! filepath = Some (File content mode) ->
  forallb (fun x => wrong_password content x.1) passwords = true ->
  unlock_trials filepath passwords ending w
  = (match ending with
     | Some e => Raise e
     | None => Return (all_failed filepath)
     end,
     {| fs := fs w; opens := opens w ++ trials_of filepath passwords |}).
Proof.
  intros Hfile Hwrong.
  rewrite <- (app_nil_r passwords) at 1.
  rewrite (unlock_trials_wrong_prefix _ content mode) by done.
  simpl. by destruct ending.
Qed.

Lemma dry_run_trials_winner (filepath : Path) content mode
    (pre post : list (str * str)) password source ending w pdf :
  fs w !! filepath = Some (File content mode) ->
  forallb (fun x => wrong_password content x.1) pre = true ->
  pdf_parse content (Some password) = Return pdf ->
  dry_run_trials filepath (pre ++ (password, source) :: post) ending w
  = (Return (unlocked filepath source),
     {| fs := fs w;
        opens := opens w ++ trials_of filepath (pre ++ [(password, source)]) |}).
Proof.
  intros Hfile Hwrong Hparse.
  rewrite (dry_run_trials_wrong_prefix _ content mode) by done.
  rewrite dry_run_trials_cons. cbn [fs opens].
  rewrite (open_on_file _ _ _ _ _ Hfile), Hparse.
  unfold journal, trials_of. cbn [fs opens]. rewrite map_app. cbn [map].
  by rewrite <- !app_assoc.
Qed.

Lemma dry_run_trials_other_error (filepath : Path) content mode
    (pre post : list (str * str)) password source ending w e :
  fs w !! filepath = Some (File content mode) ->
  forallb (fun x => wrong_password content x.1) pre = true ->
  pdf_parse content (Some password) = Raise e ->
  is_PasswordError e = false ->
  dry_run_trials filepath (pre ++ (password, source) :: post) ending w
  = (Return (processing_failed filepath e),
     {| fs := fs w;
        opens := opens w ++ trials_of filepath (pre ++ [(password, source)]) |}).
Proof.
  intros Hfile Hwrong Hparse Hother.
  rewrite (dry_run_trials_wrong_prefix _ content mode) by done.
  rewrite dry_run_trials_cons. cbn [fs opens].
  rewrite (open_on_file _ _ _ _ _ Hfile), Hparse, Hother.
  unfold journal, trials_of. cbn [fs opens]. rewrite map_app. cbn [map].
  by rewrite <- !app_assoc.
Qed.

Lemma dry_run_trials_all_wrong (filepath : Path) content mode
    (passwords : list (str * str)) ending w :
  fs w !! filepath = Some (File content mode) ->
  forallb (fun x => wrong_password content x.1) passwords = true ->
  dry_run_trials filepath passwords ending w
  = (match ending with
     | Some e => Raise e
     | None => Return (all_failed filepath)
     end,
     {| fs := fs w; opens := opens w ++ trials_of filepath passwords |}).
Proof.
  intros Hfile Hwrong.
  rewrite <- (app_nil_r passwords) at 1.
  rewrite (dry_run_trials_wrong_prefix _ content mode) by done.
  simpl. by destruct ending.
Qed.

(** [unlock_file] on a document that does not open without a password,
    once the backup step has returned: the loop runs on what the
    iterable gives on the disk the backup step left. *)
Lemma unlock_file_after_backup (filepath : Path) (passwords : Iterable)
    backup_dir_name w e0 bp d1 :
  open_on (fs w) filepath None = Raise e0 ->
  create_backup filepath backup_dir_name (fs w) = (Return bp, d1) ->
  unlock_file filepath passwords backup_dir_name w
  = unlock_trials filepath (yields (passwords d1)) (breaks (passwords d1))
      {| fs := d1; opens := opens w ++ [(filepath, None)] |}.
Proof.
  intros Hlocked Hbackup.
  rewrite (unlock_file_encrypted _ _ _ _ e0 Hlocked), unlock_encrypted_unfold.
  cbn [journal fs opens]. by rewrite Hbackup.
Qed.

Lemma try_unlock_dry_run_after_check (filepath : Path) (passwords : Iterable)
    backup_dir_name w e0 bp :
  open_on (fs w) filepath None = Raise e0 ->
  validate_backup_path_no_side_effects filepath backup_dir_name (fs w)
  = (Return bp, fs w) ->
  try_unlock_dry_run filepath passwords backup_dir_name w
  = dry_run_trials filepath (yields (passwords (fs w))) (breaks (passwords (fs w)))
      {| fs := fs w; opens := opens w ++ [(filepath, None)] |}.
Proof.
  intros Hlocked Hcheck.
  rewrite (try_unlock_dry_run_encrypted _ _ _ _ e0 Hlocked),
    dry_run_encrypted_unfold.
  cbn [journal fs opens]. by rewrite Hcheck.
Qed.

(** X10.  [unlock_file] on a regular file: unless the result is
    [UNLOCKED], the file holds afterwards exactly the bytes it held
    before, under the same mode, whatever failed on the way (the
    backup, an open, a save, the rename, or the iteration of the
    passwords, which makes [unlock_file] raise) and whatever passwords
    were tried. *)
Theorem unlock_file_changes_file_only_when_unlocked
    (filepath : Path) (passwords : Iterable) backup_dir_name w content mode o w' :
  fs w !! filepath = Some (File content mode) ->
  unlock_file filepath passwords backup_dir_name w = (o, w') ->
  (forall r, o = Return r -> status r <> UNLOCKED) ->
  fs w' !! filepath = Some (File content mode).
Proof.
  intros Hfile Hm Hstatus.
  destruct (open_on (fs w) filepath None) as [pdf|e] eqn:He.
  { rewrite (unlock_file_plain _ _ _ _ _ He) in Hm. by injection Hm as <- <-. }
  rewrite (unlock_file_encrypted _ _ _ _ _ He), unlock_encrypted_unfold in Hm.
  cbn [journal fs opens] in Hm.
  destruct (create_backup filepath backup_dir_name (fs w)) as [rb d1] eqn:Hb.
  apply (create_backup_keeps_file _ _ _ _ _ _ _ Hfile) in Hb.
  destruct rb as [bp|e'].
  - apply (unlock_trials_inv _ content mode) in Hm as [_ Hcases]; [|done].
    destruct Hcases as [(pw & so & pdf & _ & _ & -> & _)|[_ Hsame]]; [|done].
    by destruct (Hstatus _ eq_refl).
  - by injection Hm as <- <-.
Qed.

(** X11.  When [unlock_file] answers [UNLOCKED] for a regular file
    (and the backup path is not a directory), the backup path
    [<parent>/<backup dir>/<name>] holds the original bytes, one of
    the candidates the iterable gave opened the original document, the
    file now holds exactly what [pdf.save] wrote for that document,
    and [method_used] is that candidate's origin label. *)
Theorem unlock_file_unlocked_backup_and_content
    (filepath : Path) (passwords : Iterable) backup_dir_name w content mode r w' :
  let bp := parent filepath // backup_dir_name // name filepath in
  fs w !! filepath = Some (File content mode) ->
  (forall writable, fs w !! bp <> Some (Dir writable)) ->
  unlock_file filepath passwords backup_dir_name w = (Return r, w') ->
  status r = UNLOCKED ->
  fs w' !! bp = Some (File content mode)
  /\ exists d1 password source pdf,
       (password, source) ∈ yields (passwords d1)
       /\ pdf_parse content (Some password) = Return pdf
       /\ method_used r = Some source
       /\ fs w' !! filepath = Some (File (concat (chunks (pdf_save pdf))) true).
Proof.
  intros bp Hfile Hnodir Hm Hstatus.
  destruct (open_on (fs w) filepath None) as [pdf|e] eqn:He.
  { rewrite (unlock_file_plain _ _ _ _ _ He) in Hm. by injection Hm as <- <-. }
  rewrite (unlock_file_encrypted _ _ _ _ _ He), unlock_encrypted_unfold in Hm.
  cbn [journal fs opens] in Hm.
  destruct (create_backup filepath backup_dir_name (fs w)) as [rb d2] eqn:Hb.
  destruct rb as [bp'|e']; [|by injection Hm as <- <-].
  assert (Hbackup : d2 !! bp = Some (File content mode)
                    /\ d2 !! filepath = Some (File content mode)).
  { unfold create_backup in Hb.
    apply bind_Return in Hb as (bp1 & d1 & Hval & Hcopy).
    assert (Hf1 : d1 !! filepath = Some (File content mode)).
    { rewrite <- Hfile. eapply validate_backup_path_keeps;
        [exact Hval| |by rewrite Hfile].
      assert (Hdepth := depth_parent filepath). apply deeper_neq. simpl. lia. }
    apply validate_backup_path_Return in Hval as (_ & _ & Hframe & _).
    assert (Hbp1 : d1 !! bp = fs w !! bp).
    { apply Hframe; [apply Child_neq|].
      apply Child_inj_name. intros Heq. by apply (probe_name_neq (name filepath)). }
    apply copy_backup_Return in Hcopy
      as (-> & content' & mode' & Hsrc & Hsrc' & Hbp & _).
    - rewrite Hf1 in Hsrc. injection Hsrc as <- <-. done.
    - intros writable. fold bp. rewrite Hbp1. apply Hnodir. }
  destruct Hbackup as [Hbp2 Hf2].
  apply (unlock_trials_inv _ content mode) in Hm as [Hframe Hcases]; [|done].
  cbn [fs] in Hframe.
  destruct Hcases as [(pw & so & pdf & Hin & Hparse & [= ->] & Hnew)|[Hfailed _]];
    [|by rewrite (Hfailed _ eq_refl) in Hstatus].
  split.
  - rewrite Hframe; [done|]. unfold bp. cbn [parent]. apply Child_neq.
  - by exists d2, pw, so, pdf.
Qed.

(** X12.  The first candidate that opens the document wins: when the
    candidates before it are rejected with [PasswordError] and its
    save returns, [unlock_file] answers [UNLOCKED] with that
    candidate's origin label; the journal shows one open without a
    password and one per candidate up to the winner, and none for the
    candidates after it.  The candidates are those the iterable gives
    on the disk the backup step left. *)
Theorem unlock_file_first_opening_password
    (filepath : Path) (passwords : Iterable) backup_dir_name w content mode
    e0 bp d1 (pre post : list (str * str)) password source pdf d2 :
  fs w !! filepath = Some (File content mode) ->
  pdf_parse content None = Raise e0 ->
  create_backup filepath backup_dir_name (fs w) = (Return bp, d1) ->
  yields (passwords d1) = pre ++ (password, source) :: post ->
  forallb (fun x => wrong_password content x.1) pre = true ->
  pdf_parse content (Some password) = Return pdf ->
  atomic_write filepath (pdf_save pdf) d1 = (Return tt, d2) ->
  unlock_file filepath passwords backup_dir_name w
  = (Return (unlocked filepath source),
     {| fs := d2;
        opens := opens w ++ (filepath, None)
                 :: trials_of filepath (pre ++ [(password, source)]) |}).
Proof.
  intros Hfile Hlocked Hbackup Hyields Hwrong Hparse Hsave.
  assert (Hf1 : d1 !! filepath = Some (File content mode)).
  { by apply (create_backup_keeps_file _ _ _ _ _ _ _ Hfile) in Hbackup. }
  rewrite (unlock_file_after_backup _ _ _ _ e0 _ _) with (1 := eq_trans (open_on_file _ _ _ _ _ Hfile) Hlocked) (2 := Hbackup).
  rewrite Hyields.
  rewrite (unlock_trials_winner _ content mode _ _ _ _ _ _ pdf d2) by done.
  cbn [opens]. by rewrite <- app_assoc.
Qed.

(** X13.  When the document rejects every candidate, the loop runs to
    the end of the iteration.  If the iterator stops there,
    [unlock_file] answers [FAILED] with "All passwords failed"; if it
    raises instead (a wordlist that cannot be read), that exception
    leaves [unlock_file].  Either way each candidate was tried once, in
    order, the backup made before the trials stays, and the disk is as
    the backup step left it. *)
Theorem unlock_file_all_passwords_rejected
    (filepath : Path) (passwords : Iterable) backup_dir_name w content mode
    e0 bp d1 :
  fs w !! filepath = Some (File content mode) ->
  pdf_parse content None = Raise e0 ->
  create_backup filepath backup_dir_name (fs w) = (Return bp, d1) ->
  forallb (fun x => wrong_password content x.1) (yields (passwords d1)) = true ->
  unlock_file filepath passwords backup_dir_name w
  = (match breaks (passwords d1) with
     | Some e => Raise e
     | None => Return (all_failed filepath)
     end,
     {| fs := d1;
        opens := opens w ++ (filepath, None)
                 :: trials_of filepath (yields (passwords d1)) |}).
Proof.
  intros Hfile Hlocked Hbackup Hwrong.
  assert (Hf1 : d1 !! filepath = Some (File content mode)).
  { by apply (create_backup_keeps_file _ _ _ _ _ _ _ Hfile) in Hbackup. }
  rewrite (unlock_file_after_backup _ _ _ _ e0 _ _) with (1 := eq_trans (open_on_file _ _ _ _ _ Hfile) Hlocked) (2 := Hbackup).
  rewrite (unlock_trials_all_wrong _ content mode) by done.
  cbn [fs opens]. by rewrite <- app_assoc.
Qed.

(** X14.  An error other than a wrong password ends the trials: when
    [pikepdf.open] raises it for a candidate, after candidates that
    were rejected, [unlock_file] answers [FAILED] with "Error
    processing PDF with password: ..." and tries none of the
    candidates that follow. *)
Theorem unlock_file_stops_at_other_error
    (filepath : Path) (passwords : Iterable) backup_dir_name w content mode
    e0 bp d1 (pre post : list (str * str)) password source e :
  fs w !! filepath = Some (File content mode) ->
  pdf_parse content None = Raise e0 ->
  create_backup filepath backup_dir_name (fs w) = (Return bp, d1) ->
  yields (passwords d1) = pre ++ (password, source) :: post ->
  forallb (fun x => wrong_password content x.1) pre = true ->
  pdf_parse content (Some password) = Raise e ->
  is_PasswordError e = false ->
  unlock_file filepath passwords backup_dir_name w
  = (Return (processing_failed filepath e),
     {| fs := d1;
        opens := opens w ++ (filepath, None)
                 :: trials_of filepath (pre ++ [(password, source)]) |}).
Proof.
  intros Hfile Hlocked Hbackup Hyields Hwrong Hparse Hother.
  assert (Hf1 : d1 !! filepath = Some (File content mode)).
  { by apply (create_backup_keeps_file _ _ _ _ _ _ _ Hfile) in Hbackup. }
  rewrite (unlock_file_after_backup _ _ _ _ e0 _ _) with (1 := eq_trans (open_on_file _ _ _ _ _ Hfile) Hlocked) (2 := Hbackup).
  rewrite Hyields.
  rewrite (unlock_trials_other_error _ content mode _ _ _ _ _ _ e) by done.
  cbn [fs opens]. by rewrite <- app_assoc.
Qed.

(** X15.  The dry run finds the same winner without writing: when the
    check of the backup location passes, the candidates before the
    first one that opens the document are rejected, the answer is
    [UNLOCKED] with the winner's origin label, the disk is untouched
    and the candidates after the winner are not tried. *)
Theorem try_unlock_dry_run_first_opening_password
    (filepath : Path) (passwords : Iterable) backup_dir_name w content mode
    e0 bp (pre post : list (str * str)) password source pdf :
  fs w !! filepath = Some (File content mode) ->
  pdf_parse content None = Raise e0 ->
  validate_backup_path_no_side_effects filepath backup_dir_name (fs w)
  = (Return bp, fs w) ->
  yields (passwords (fs w)) = pre ++ (password, source) :: post ->
  forallb (fun x => wrong_password content x.1) pre = true ->
  pdf_parse content (Some password) = Return pdf ->
  try_unlock_dry_run filepath passwords backup_dir_name w
  = (Return (unlocked filepath source),
     {| fs := fs w;
        opens := opens w ++ (filepath, None)
                 :: trials_of filepath (pre ++ [(password, source)]) |}).
Proof.
  intros Hfile Hlocked Hcheck Hyields Hwrong Hparse.
  rewrite (try_unlock_dry_run_after_check _ _ _ _ e0 _) with (1 := eq_trans (open_on_file _ _ _ _ _ Hfile) Hlocked) (2 := Hcheck).
  rewrite Hyields.
  rewrite (dry_run_trials_winner _ content mode _ _ _ _ _ _ pdf) by done.
  cbn [fs opens]. by rewrite <- app_assoc.
Qed.

(** The shape of every result. *)
Lemma later_result_well_formed (filepath : Path) r :
  later_result filepath r ->
  file_path r = filepath
  /\ (status r = FAILED <-> is_Some (error_message r))
  /\ (status r = FAILED <-> method_used r = None)
  /\ status r <> UNCHANGED.
Proof.
  intros [e|source|e|]; cbn; repeat split; try done;
    try (intros [? ?]; done); eauto.
Qed.

(** Every result is the one of an open document or one of the later
    steps. *)
Lemma result_shape (filepath : Path) (passwords : Iterable) backup_dir_name
    (dry_run : bool) w r w' :
  (if dry_run then try_unlock_dry_run filepath passwords backup_dir_name w
   else unlock_file filepath passwords backup_dir_name w) = (Return r, w') ->
  r = already_unlocked filepath \/ later_result filepath r.
Proof.
  intros Hm.
  destruct (open_on (fs w) filepath None) as [pdf|e] eqn:He.
  - left. destruct dry_run.
    + rewrite (try_unlock_dry_run_plain _ _ _ _ _ He) in Hm. by injection Hm.
    + rewrite (unlock_file_plain _ _ _ _ _ He) in Hm. by injection Hm.
  - right. destruct dry_run.
    + rewrite (try_unlock_dry_run_encrypted _ _ _ _ _ He) in Hm.
      destruct (dry_run_encrypted_outcome filepath passwords backup_dir_name
                  (journal w filepath None))
        as (w1 & [(r1 & Hr & Hlater)|(e1 & d & _ & Hr)]);
        rewrite Hr in Hm; [|done]. by injection Hm as <- <-.
    + rewrite (unlock_file_encrypted _ _ _ _ _ He) in Hm.
      destruct (unlock_encrypted_outcome filepath passwords backup_dir_name
                  (journal w filepath None))
        as (w1 & [(r1 & Hr & Hlater)|(e1 & d & _ & Hr)]);
        rewrite Hr in Hm; [|done]. by injection Hm as <- <-.
Qed.

(** X16.  Every result of [unlock_file] and of [try_unlock_dry_run]
    names the file it was asked about, carries an error message
    exactly when its status is [FAILED], and a method exactly when it
    is not. *)
Theorem results_are_well_formed
    (filepath : Path) (passwords : Iterable) backup_dir_name (dry_run : bool)
    w r w' :
  (if dry_run then try_unlock_dry_run filepath passwords backup_dir_name w
   else unlock_file filepath passwords backup_dir_name w) = (Return r, w') ->
  file_path r = filepath
  /\ (status r = FAILED <-> is_Some (error_message r))
  /\ (status r = FAILED <-> method_used r = None).
Proof.
  intros Hm. apply result_shape in Hm as [->|Hlater].
  - cbn. repeat split; try done; by intros [? ?].
  - apply later_result_well_formed in Hlater as (? & ? & ? & _). done.
Qed.

(** C6.  [is_pdf_encrypted] returns a boolean on every file and in
    every world, and never raises: [False] when the file opens without
    a password, [True] when that open raises anything at all.  When it
    raises, with whatever exception, [unlock_file] goes on to the
    backup step, run on the disk as it was, and from there to the
    password trials: a backup step that raises gives the result "Failed
    to create backup: ..."; after one that returns, the file is still
    in place and the candidates are tried in order on it, up to the
    first that opens the document (saved, result [UNLOCKED]), or to the
    first error that is not a wrong password, or to the end of the
    iteration.  [try_unlock_dry_run] does the same with the check of
    the backup location and without writing.  No result of either
    function comes from the [except] branch around the classification
    ("Error checking if PDF is encrypted: ..."): a result is the one of
    an open document or one built by the backup step or the trials. *)
Theorem classification_never_fails (filepath : Path) (w : World) :
  is_pdf_encrypted filepath w
  = (Return match open_on (fs w) filepath None with
            | Return _ => false
            | Raise _ => true
            end,
     journal w filepath None)
  /\ (forall e0 (passwords : Iterable) backup_dir_name,
        open_on (fs w) filepath None = Raise e0 ->
        let checked := opens w ++ [(filepath, None)] in
        (forall e d1,
           create_backup filepath backup_dir_name (fs w) = (Raise e, d1) ->
           unlock_file filepath passwords backup_dir_name w
           = (Return (backup_failed filepath e), {| fs := d1; opens := checked |}))
        /\ (forall bp d1,
              create_backup filepath backup_dir_name (fs w) = (Return bp, d1) ->
              exists content mode,
                fs w !! filepath = Some (File content mode)
                /\ d1 !! filepath = Some (File content mode)
                /\ (forall pre password source post,
                      yields (passwords d1) = pre ++ (password, source) :: post ->
                      forallb (fun x => wrong_password content x.1) pre = true ->
                      let tried :=
                        checked ++ trials_of filepath (pre ++ [(password, source)]) in
                      (forall pdf d2,
                         pdf_parse content (Some password) = Return pdf ->
                         atomic_write filepath (pdf_save pdf) d1 = (Return tt, d2) ->
                         unlock_file filepath passwords backup_dir_name w
                         = (Return (unlocked filepath source),
                            {| fs := d2; opens := tried |}))
                      /\ (forall e,
                            pdf_parse content (Some password) = Raise e ->
                            is_PasswordError e = false ->
                            unlock_file filepath passwords backup_dir_name w
                            = (Return (processing_failed filepath e),
                               {| fs := d1; opens := tried |})))
                /\ (forallb (fun x => wrong_password content x.1)
                      (yields (passwords d1)) = true ->
                    unlock_file filepath passwords backup_dir_name w
                    = (match breaks (passwords d1) with
                       | Some e => Raise e
                       | None => Return (all_failed filepath)
                       end,
                       {| fs := d1;
                          opens := checked
                                   ++ trials_of filepath (yields (passwords d1)) |})))
        /\ (forall e d1,
              validate_backup_path_no_side_effects filepath backup_dir_name (fs w)
              = (Raise e, d1) ->
              try_unlock_dry_run filepath passwords backup_dir_name w
              = (Return (backup_failed filepath e),
                 {| fs := fs w; opens := checked |}))
        /\ (forall bp d1 content mode,
              validate_backup_path_no_side_effects filepath backup_dir_name (fs w)
              = (Return bp, d1) ->
              fs w !! filepath = Some (File content mode) ->
              (forall pre password source post,
                 yields (passwords (fs w)) = pre ++ (password, source) :: post ->
                 forallb (fun x => wrong_password content x.1) pre = true ->
                 let tried :=
                   checked ++ trials_of filepath (pre ++ [(password, source)]) in
                 (forall pdf,
                    pdf_parse content (Some password) = Return pdf ->
                    try_unlock_dry_run filepath passwords backup_dir_name w
                    = (Return (unlocked filepath source),
                       {| fs := fs w; opens := tried |}))
                 /\ (forall e,
                       pdf_parse content (Some password) = Raise e ->
                       is_PasswordError e = false ->
                       try_unlock_dry_run filepath passwords backup_dir_name w
                       = (Return (processing_failed filepath e),
                          {| fs := fs w; opens := tried |})))
              /\ (forallb (fun x => wrong_password content x.1)
                    (yields (passwords (fs w))) = true ->
                  try_unlock_dry_run filepath passwords backup_dir_name w
                  = (match breaks (passwords (fs w)) with
                     | Some e => Raise e
                     | None => Return (all_failed filepath)
                     end,
                     {| fs := fs w;
                        opens := checked
                                 ++ trials_of filepath
                                      (yields (passwords (fs w))) |}))))
  /\ (forall (passwords : Iterable) backup_dir_name (dry_run : bool) r w',
        (if dry_run then try_unlock_dry_run filepath passwords backup_dir_name w
         else unlock_file filepath passwords backup_dir_name w) = (Return r, w') ->
        (r = already_unlocked filepath \/ later_result filepath r)
        /\ forall e, r <> check_failed filepath e).
Proof.
  split; [apply is_pdf_encrypted_spec|]. split.
  - intros e0 passwords backup_dir_name Hlocked checked.
    split; [|split; [|split]].
    + intros e d1 Hbackup.
      rewrite (unlock_file_encrypted _ _ _ _ _ Hlocked), unlock_encrypted_unfold.
      cbn [journal fs opens]. by rewrite Hbackup.
    + intros bp d1 Hbackup.
      destruct (create_backup_keeps_source _ _ _ _ _ Hbackup)
        as (Hkeep & content & mode & Hfile).
      exists content, mode. split; [done|].
      assert (Hf1 : d1 !! filepath = Some (File content mode))
        by (by rewrite Hkeep).
      split; [done|].
      rewrite (unlock_file_after_backup _ passwords _ _ _ _ _ Hlocked Hbackup).
      split.
      * intros pre password source post Hyields Hwrong tried. rewrite Hyields.
        split.
        -- intros pdf d2 Hparse Hsave.
           rewrite (unlock_trials_winner _ content mode _ _ _ _ _ _ pdf d2)
             by done.
           done.
        -- intros e Hparse Hother.
           rewrite (unlock_trials_other_error _ content mode _ _ _ _ _ _ e)
             by done.
           done.
      * intros Hwrong.
        by rewrite (unlock_trials_all_wrong _ content mode) by done.
    + intros e d1 Hcheck.
      rewrite (try_unlock_dry_run_encrypted _ _ _ _ _ Hlocked),
        dry_run_encrypted_unfold.
      cbn [journal fs opens]. rewrite Hcheck.
      by apply validate_backup_path_no_side_effects_disk in Hcheck as ->.
    + intros bp d1 content mode Hcheck Hfile.
      assert (d1 = fs w) as ->
        by (by apply validate_backup_path_no_side_effects_disk in Hcheck).
      rewrite (try_unlock_dry_run_after_check _ passwords _ _ _ _ Hlocked Hcheck).
      split.
      * intros pre password source post Hyields Hwrong tried. rewrite Hyields.
        split.
        -- intros pdf Hparse.
           rewrite (dry_run_trials_winner _ content mode _ _ _ _ _ _ pdf)
             by done.
           done.
        -- intros e Hparse Hother.
           rewrite (dry_run_trials_other_error _ content mode _ _ _ _ _ _ e)
             by done.
           done.
      * intros Hwrong.
        by rewrite (dry_run_trials_all_wrong _ content mode) by done.
  - intros passwords backup_dir_name dry_run r w' Hm.
    apply result_shape in Hm. split; [done|].
    intros e. destruct Hm as [->|Hlater].
    + apply already_unlocked_not_check_failed.
    + by apply later_result_not_check_failed.
Qed.

End UnlockerOutcomes.

(** ** cli.py: the counters, the dry run and the journal of a whole run *)

Section CliOutcomes.

Context `{Unicodedata} `{Unicodecase} `{Logging} `{Shell} `{Pikepdf} `{Device}.





Lemma process_loop_dry_run_disk (o : Options) (path : Path)
    (pdf_files : list Path) backup_dir_name :
  forall c w,
    fs (process_loop pdf_files (password_factory o path) backup_dir_name true
          c w).2 = fs w.
Proof.
  induction pdf_files as [|pdf_path rest IH]; intros c w; simpl; [done|].
  unfold bind at 1. unfold process_one. unfold bind at 1.
  destruct (password_factory_returns o path w) as [fdp ->].
  set (passwords := iter_passwords_generator _ _ _ _).
  assert (Hdisk := try_unlock_dry_run_disk pdf_path passwords backup_dir_name w).
  destruct (try_unlock_dry_run pdf_path passwords backup_dir_name w)
    as [[result|e] w1]; cbn [snd] in Hdisk |- *; [|done].
  by rewrite IH.
Qed.

(** X18.  A whole run of [main] with [--dry-run] leaves the disk
    exactly as it was: no directory is created, no backup copied and
    no document rewritten, whatever the files and the candidates. *)
Theorem main_dry_run_leaves_disk (o : Options) (w : World) :
  opt_dry_run o = true ->
  fs (main o w).2 = fs w.
Proof.
  intros Hdry. rewrite main_unfold.
  destruct (opt_path o) as [path|]; [|done].
  destruct (negb (is_existing_directory (fs w) path)); [done|].
  destruct (setLevel_fault (opt_log_level o)) as [e|]; [done|].
  destruct (scanner.find_pdfs (fs w) path (py "pdf_with_password"))
    as [[|pdf_path rest]|e]; [done| |done].
  rewrite bind_unfold, Hdry. unfold process_pdfs.
  assert (Hdisk := process_loop_dry_run_disk o path (pdf_path :: rest)
    match opt_backup_root o with
    | Some backup_root => name backup_root
    | None => opt_backup_dir_name o
    end {| processed := 0; unlocked_count := 0; failed := 0; unchanged := 0 |} w).
  destruct (process_loop _ _ _ true _ w) as [[c|e] w1]; by cbn [snd] in Hdisk |- *.
Qed.

(** *** Which files are opened *)

Lemma unlock_trials_opens (filepath : Path) (passwords : list (str * str))
    (ending : option exn) :
  forall w, opens_only filepath w (unlock_trials filepath passwords ending w).2.
Proof.
  induction passwords as [|[password source] rest IH]; intros w.
  { exists []. simpl. destruct ending; cbn; by rewrite app_nil_r. }
  rewrite unlock_trials_cons. cbv zeta.
  assert (Hone : forall d, opens_only filepath w
            {| fs := d; opens := opens w ++ [(filepath, Some password)] |}).
  { intros d. exists [(filepath, Some password)]. split; [done|].
    by apply Forall_singleton. }
  assert (Hafter : forall e d,
    opens_only filepath w
      (if is_PasswordError e
       then unlock_trials filepath rest ending
              {| fs := d; opens := opens w ++ [(filepath, Some password)] |}
       else (Return (processing_failed filepath e),
             {| fs := d; opens := opens w ++ [(filepath, Some password)] |})).2).
  { intros e d. destruct (is_PasswordError e); [|apply Hone].
    destruct (IH {| fs := d; opens := opens w ++ [(filepath, Some password)] |})
      as (l & Heq & Hl).
    exists ((filepath, Some password) :: l). rewrite Heq. cbn [opens].
    split; [by rewrite <- app_assoc|]. by apply Forall_cons. }
  destruct (open_on (fs w) filepath (Some password)) as [pdf|e]; [|apply Hafter].
  destruct (atomic_write filepath (pdf_save pdf) (fs w)) as [[u|e] d'];
    [apply Hone|apply Hafter].
Qed.

Lemma dry_run_trials_opens (filepath : Path) (passwords : list (str * str))
    (ending : option exn) :
  forall w, opens_only filepath w (dry_run_trials filepath passwords ending w).2.
Proof.
  induction passwords as [|[password source] rest IH]; intros w.
  { exists []. simpl. destruct ending; cbn; by rewrite app_nil_r. }
  rewrite dry_run_trials_cons.
  assert (Hone : opens_only filepath w (journal w filepath (Some password))).
  { exists [(filepath, Some password)]. split; [done|]. by apply Forall_singleton. }
  destruct (open_on (fs w) filepath (Some password)) as [pdf|e]; [apply Hone|].
  destruct (is_PasswordError e); [|apply Hone].
  destruct (IH (journal w filepath (Some password))) as (l & Heq & Hl).
  exists ((filepath, Some password) :: l). rewrite Heq. cbn [opens journal].
  split; [by rewrite <- app_assoc|]. by apply Forall_cons.
Qed.

Lemma opens_only_journal (filepath : Path) w w' :
  opens_only filepath (journal w filepath None) w' -> opens_only filepath w w'.
Proof.
  intros (l & Heq & Hl). exists ((filepath, None) :: l). rewrite Heq.
  cbn [opens journal].
  split; [by rewrite <- app_assoc|]. by apply Forall_cons.
Qed.

Lemma unlock_file_opens (filepath : Path) passwords backup_dir_name w :
  opens_only filepath w (unlock_file filepath passwords backup_dir_name w).2.
Proof.
  destruct (open_on (fs w) filepath None) as [pdf|e] eqn:He.
  { rewrite (unlock_file_plain _ _ _ _ _ He). cbn [snd].
    exists [(filepath, None)]. split; [done|]. by apply Forall_singleton. }
  rewrite (unlock_file_encrypted _ _ _ _ _ He).
  apply opens_only_journal.
  rewrite unlock_encrypted_unfold.
  destruct (create_backup filepath backup_dir_name (fs (journal w filepath None)))
    as [[bp|e'] d1].
  - set (w1 := {| fs := d1; opens := opens (journal w filepath None) |}).
    apply (unlock_trials_opens filepath _ _ w1).
  - exists []. cbn. by rewrite app_nil_r.
Qed.

Lemma try_unlock_dry_run_opens (filepath : Path) passwords backup_dir_name w :
  opens_only filepath w (try_unlock_dry_run filepath passwords backup_dir_name w).2.
Proof.
  destruct (open_on (fs w) filepath None) as [pdf|e] eqn:He.
  { rewrite (try_unlock_dry_run_plain _ _ _ _ _ He). cbn [snd].
    exists [(filepath, None)]. split; [done|]. by apply Forall_singleton. }
  rewrite (try_unlock_dry_run_encrypted _ _ _ _ _ He).
  apply opens_only_journal.
  rewrite dry_run_encrypted_unfold.
  destruct (validate_backup_path_no_side_effects filepath backup_dir_name
              (fs (journal w filepath None))) as [[bp|e'] d1].
  - set (w1 := {| fs := d1; opens := opens (journal w filepath None) |}).
    apply (dry_run_trials_opens filepath _ _ w1).
  - exists []. cbn. by rewrite app_nil_r.
Qed.

Lemma process_loop_opens (o : Options) (path : Path)
    (pdf_files : list Path) backup_dir_name dry_run :
  forall c w, exists l,
    opens (process_loop pdf_files (password_factory o path) backup_dir_name
             dry_run c w).2 = opens w ++ l
    /\ Forall (fun x => x.1 ∈ pdf_files) l.
Proof.
  induction pdf_files as [|pdf_path rest IH]; intros c w; simpl.
  { exists []. by rewrite app_nil_r. }
  unfold bind at 1.
  assert (Hone : exists l,
    opens (process_one (password_factory o path) backup_dir_name dry_run
             pdf_path w).2
    = opens w ++ l /\ Forall (fun x => x.1 = pdf_path) l).
  { unfold process_one.
    destruct (password_factory_returns o path w) as [fdp Hps].
    destruct dry_run; unfold bind; rewrite Hps.
    - apply try_unlock_dry_run_opens.
    - apply unlock_file_opens. }
  destruct Hone as (l1 & Hl1 & Hall1).
  assert (Hin1 : Forall (fun x => x.1 ∈ pdf_path :: rest) l1).
  { eapply Forall_impl; [exact Hall1|]. intros x ->. apply elem_of_cons. by left. }
  destruct (process_one _ _ _ pdf_path w) as [[result|e] w1];
    cbn [snd] in Hl1 |- *.
  - destruct (IH (count_result result c) w1) as (l2 & -> & Hall2).
    exists (l1 ++ l2). rewrite Hl1, <- app_assoc. split; [done|].
    apply Forall_app. split; [done|].
    eapply Forall_impl; [exact Hall2|]. intros x Hx. apply elem_of_cons. by right.
  - by exists l1.
Qed.

(** The journal of a whole run. *)
Lemma main_opens (o : Options) (w : World) :
  exists l,
    opens (main o w).2 = opens w ++ l
    /\ forall x, x ∈ l ->
         exists path pdf_files,
           opt_path o = Some path
           /\ scanner.find_pdfs (fs w) path (py "pdf_with_password")
              = Return pdf_files
           /\ x.1 ∈ pdf_files.
Proof.
  assert (Hnone : forall r : outcome N, exists l,
            opens (r, w).2 = opens w ++ l
            /\ forall x, x ∈ l ->
                 exists path pdf_files,
                   opt_path o = Some path
                   /\ scanner.find_pdfs (fs w) path (py "pdf_with_password")
                      = Return pdf_files
                   /\ x.1 ∈ pdf_files).
  { intros r. exists []. cbn. rewrite app_nil_r. split; [done|].
    intros x Hx. by apply elem_of_nil in Hx. }
  rewrite main_unfold.
  destruct (opt_path o) as [path|]; [|apply Hnone].
  destruct (negb (is_existing_directory (fs w) path)); [apply Hnone|].
  destruct (setLevel_fault (opt_log_level o)) as [e|]; [apply Hnone|].
  destruct (scanner.find_pdfs (fs w) path (py "pdf_with_password"))
    as [[|pdf_path rest]|e] eqn:Hfound; [apply Hnone| |apply Hnone].
  rewrite bind_unfold. unfold process_pdfs.
  destruct (process_loop_opens o path (pdf_path :: rest)
    match opt_backup_root o with
    | Some backup_root => name backup_root
    | None => opt_backup_dir_name o
    end (opt_dry_run o)
    {| processed := 0; unlocked_count := 0; failed := 0; unchanged := 0 |} w)
    as (l & Hl & Hall).
  exists l.
  destruct (process_loop _ _ _ _ _ w) as [[c|e] w1]; cbn [snd] in Hl |- *;
    (split; [done|]); intros x Hx; exists path, (pdf_path :: rest);
    (split; [done|]); (split; [done|]);
    by apply (proj1 (Forall_forall _ _) Hall).
Qed.

(** X19.  Every [pikepdf.open] of a run of [main] is on a file the
    traversal [find_pdfs(path)] returned on the initial disk: the
    journal grows only by opens of such files, and by none when the
    run ends before the traversal. *)
Theorem main_opens_only_found_files (o : Options) (w : World) :
  exists l,
    opens (main o w).2 = opens w ++ l
    /\ forall x, x ∈ l ->
         exists path pdf_files,
           opt_path o = Some path
           /\ scanner.find_pdfs (fs w) path (py "pdf_with_password")
              = Return pdf_files
           /\ x.1 ∈ pdf_files.
Proof. apply main_opens. Qed.

End CliOutcomes.

(** ** scanner.py: what the traversal finds *)

Section PathFacts.

Implicit Types (p q r root : Path).

Lemma ancestors_depth p q :
  q ∈ ancestors p -> (length (components q) < length (components p))%nat.
Proof.
  induction p as [|p' IH n]; simpl; [by intros ?%elem_of_nil|].
  intros [->|Hq]%elem_of_cons; [lia|]. apply IH in Hq. lia.
Qed.

Lemma ancestors_irrefl p : p ∉ ancestors p.
Proof. intros Hp%ancestors_depth. lia. Qed.

Lemma ancestors_trans p q r :
  q ∈ ancestors p -> r ∈ ancestors q -> r ∈ ancestors p.
Proof.
  induction p as [|p' IH n]; simpl; [by intros ?%elem_of_nil|].
  intros [->|Hq]%elem_of_cons Hr; apply elem_of_cons; right; [done|].
  by apply IH.
Qed.

Lemma ancestors_linear p q r :
  q ∈ ancestors p -> r ∈ ancestors p ->
  q = r \/ q ∈ ancestors r \/ r ∈ ancestors q.
Proof.
  induction p as [|p' IH n]; simpl; [by intros ?%elem_of_nil|].
  intros [->|Hq]%elem_of_cons [->|Hr]%elem_of_cons; auto.
Qed.

(** Below [root], a path is a child of [root] or lies under one. *)
Lemma child_on_path root p :
  root ∈ ancestors p ->
  exists x, p = root // x \/ root // x ∈ ancestors p.
Proof.
  induction p as [|p' IH n]; simpl; [by intros ?%elem_of_nil|].
  intros [->|Hroot]%elem_of_cons; [by exists n; left|].
  destruct (IH Hroot) as [x [->|Hx]]; exists x; right; apply elem_of_cons; auto.
Qed.

Lemma not_above_child root x q :
  q ∈ ancestors (root // x) -> root ∈ ancestors q -> False.
Proof.
  simpl. intros [->|Hq]%elem_of_cons Hroot.
  - by apply ancestors_irrefl in Hroot.
  - apply ancestors_depth in Hq, Hroot. lia.
Qed.

Lemma elem_of_iterdir (d : gmap Path Node) root item :
  item ∈ iterdir d root <-> is_Some (d !! item) /\ exists x, item = root // x.
Proof.
  unfold iterdir.
  rewrite list_elem_of_In, filter_In, <- list_elem_of_In, elem_of_elements,
    elem_of_dom.
  split; intros [Hsome Hchild]; (split; [done|]).
  - destruct item as [|q x]; simpl in Hchild; [done|].
    apply bool_decide_eq_true in Hchild as ->. by exists x.
  - destruct Hchild as [x ->]. simpl. by apply bool_decide_eq_true_2.
Qed.

Lemma NoDup_List_filter {A} (f : A -> bool) (l : list A) :
  NoDup l -> NoDup (List.filter f l).
Proof.
  induction l as [|a l IH]; simpl; [done|].
  intros [Ha Hl]%NoDup_cons. destruct (f a); [|by apply IH].
  apply NoDup_cons. split; [|by apply IH].
  rewrite list_elem_of_In, filter_In, <- list_elem_of_In. by intros [? _].
Qed.

Lemma NoDup_iterdir (d : gmap Path Node) root : NoDup (iterdir d root).
Proof. unfold iterdir. apply NoDup_List_filter, NoDup_elements. Qed.

Lemma deepest_bound (d : gmap Path Node) p :
  is_Some (d !! p) -> (length (components p) <= deepest d)%nat.
Proof.
  intros Hp. unfold deepest. apply max_list_elem_of_le.
  apply (list_elem_of_fmap_2 (fun p => length (components p))).
  by apply elem_of_elements, elem_of_dom.
Qed.

End PathFacts.

Section ScannerFacts.

Context `{Unicodecase}.

Variable d : gmap Path Node.
Variable backup_dir_name : str.

(** What one entry of a listing contributes. *)
Let yield_of (fuel : nat) (item : Path) : list Path :=
  match d !! item with
  | Some (Dir _) =>
      if bool_decide (name item = backup_dir_name) then []
      else scanner.walk fuel d item backup_dir_name
  | Some (File _ _) =>
      if bool_decide (lower (suffix (name item)) = py ".pdf")
      then [item] else []
  | None => []
  end.

Lemma elem_of_walk_S fuel root p :
  p ∈ scanner.walk (S fuel) d root backup_dir_name
  <-> exists item, item ∈ iterdir d root /\ p ∈ yield_of fuel item.
Proof.
  cbn [scanner.walk]. rewrite list_elem_of_In, in_flat_map.
  split; intros (item & Hitem & Hp); exists item.
  - by rewrite !list_elem_of_In.
  - by rewrite <- !list_elem_of_In.
Qed.

Lemma walk_spec (fuel : nat) : forall root p,
  p ∈ scanner.walk fuel d root backup_dir_name
  <-> to_find d backup_dir_name root p
      /\ (length (components p) <= fuel + length (components root))%nat.
Proof.
  induction fuel as [|fuel IH]; intros root p.
  { simpl. split; [by intros ?%elem_of_nil|].
    intros [(Hroot & _) Hdepth]. apply ancestors_depth in Hroot. lia. }
  rewrite elem_of_walk_S. split.
  - intros (item & [Hsome [x ->]]%elem_of_iterdir & Hp). unfold yield_of in Hp.
    destruct (d !! (root // x)) as [[content mode|writable]|] eqn:Hitem;
      [| |by apply elem_of_nil in Hp].
    + case_bool_decide as Hsuffix; [|by apply elem_of_nil in Hp].
      apply list_elem_of_singleton in Hp as ->.
      split; [|simpl; lia].
      split; [simpl; apply elem_of_cons; by left|].
      split; [by exists content, mode|]. split; [done|].
      intros q Hq Hroot. by destruct (not_above_child _ _ _ Hq Hroot).
    + case_bool_decide as Hname; [by apply elem_of_nil in Hp|].
      apply IH in Hp as [(Hitem_p & Hfile & Hsuffix & Hbetween) Hdepth].
      assert (Hroot_item : root ∈ ancestors (root // x)).
      { simpl. apply elem_of_cons. by left. }
      split; [|simpl in Hdepth; lia].
      split; [by eapply ancestors_trans|].
      split; [done|]. split; [done|].
      intros q Hq Hroot.
      destruct (ancestors_linear _ _ _ Hq Hitem_p) as [->|[Hup|Hdown]].
      * split; [by exists writable|done].
      * by destruct (not_above_child _ _ _ Hup Hroot).
      * by apply Hbetween.
  - intros [(Hroot & (content & mode & Hfile) & Hsuffix & Hbetween) Hdepth].
    destruct (child_on_path _ _ Hroot) as [x [->|Hx]].
    + exists (root // x). split.
      * apply elem_of_iterdir. split; [by rewrite Hfile|by exists x].
      * unfold yield_of. rewrite Hfile.
        rewrite bool_decide_eq_true_2 by done. by apply list_elem_of_singleton.
    + assert (Hroot_item : root ∈ ancestors (root // x)).
      { simpl. apply elem_of_cons. by left. }
      destruct (Hbetween _ Hx Hroot_item) as [[writable Hdir] Hname].
      exists (root // x). split.
      * apply elem_of_iterdir. split; [by rewrite Hdir|by exists x].
      * unfold yield_of. rewrite Hdir.
        rewrite bool_decide_eq_false_2 by done.
        apply IH. split; [|simpl; lia].
        split; [done|]. split; [by exists content, mode|]. split; [done|].
        intros q Hq Hitem. apply Hbetween; [done|].
        by eapply ancestors_trans.
Qed.

(** What one entry contributes lies at or under that entry. *)
Lemma yield_of_below fuel item p :
  p ∈ yield_of fuel item -> p = item \/ item ∈ ancestors p.
Proof.
  unfold yield_of.
  destruct (d !! item) as [[content mode|writable]|]; [| |by intros ?%elem_of_nil].
  - case_bool_decide; [|by intros ?%elem_of_nil].
    intros ->%list_elem_of_singleton. by left.
  - case_bool_decide; [by intros ?%elem_of_nil|].
    intros [(Hitem & _) _]%walk_spec. by right.
Qed.

Lemma siblings_apart root x y p :
  x <> y ->
  (p = root // x \/ root // x ∈ ancestors p) ->
  (p = root // y \/ root // y ∈ ancestors p) -> False.
Proof.
  intros Hxy [->|Hx] [Hy|Hy].
  - by injection Hy.
  - apply ancestors_depth in Hy. simpl in Hy. lia.
  - subst p. apply ancestors_depth in Hx. simpl in Hx. lia.
  - destruct (ancestors_linear _ _ _ Hx Hy) as [[=]|[Hup|Hup]]; [done| |];
      apply ancestors_depth in Hup; simpl in Hup; lia.
Qed.

Lemma NoDup_flat_map_apart {A B} (f : A -> list B) (l : list A) :
  NoDup l ->
  (forall a, a ∈ l -> NoDup (f a)) ->
  (forall a b x, a ∈ l -> b ∈ l -> a <> b -> x ∈ f a -> x ∈ f b -> False) ->
  NoDup (flat_map f l).
Proof.
  induction l as [|a l IH]; intros Hl Hf Hapart; simpl; [constructor|].
  apply NoDup_cons in Hl as [Ha Hl].
  apply NoDup_app. split; [apply Hf, elem_of_cons; by left|]. split.
  - intros x Hxa Hx. apply list_elem_of_In, in_flat_map in Hx as (b & Hb & Hxb).
    apply list_elem_of_In in Hb, Hxb.
    apply (Hapart a b x); [apply elem_of_cons; by left|apply elem_of_cons; by right
                          | |done|done].
    intros ->. done.
  - apply IH; [done| |].
    + intros b Hb. apply Hf, elem_of_cons. by right.
    + intros b c x Hb Hc. apply Hapart; apply elem_of_cons; by right.
Qed.

Lemma NoDup_walk (fuel : nat) : forall root,
  NoDup (scanner.walk fuel d root backup_dir_name).
Proof.
  induction fuel as [|fuel IH]; intros root; [constructor|].
  cbn [scanner.walk]. apply NoDup_flat_map_apart.
  - apply NoDup_iterdir.
  - intros item _. destruct (d !! item) as [[content mode|writable]|]; [| |constructor].
    + case_bool_decide; [apply NoDup_singleton|constructor].
    + case_bool_decide; [constructor|apply IH].
  - intros a b p [_ [x ->]]%elem_of_iterdir [_ [y ->]]%elem_of_iterdir Hab Ha Hb.
    apply (yield_of_below fuel) in Ha, Hb.
    apply (siblings_apart root x y p); [|done|done].
    intros ->. done.
Qed.

(** More fuel than the depth of the disk changes nothing: the
    recursion has ended by then. *)
Lemma flat_map_ext_elem {A B} (f g : A -> list B) (l : list A) :
  (forall a, a ∈ l -> f a = g a) -> flat_map f l = flat_map g l.
Proof.
  induction l as [|a l IH]; intros Hfg; simpl; [done|].
  rewrite Hfg by (apply elem_of_cons; by left).
  rewrite IH; [done|]. intros b Hb. apply Hfg, elem_of_cons. by right.
Qed.

Lemma walk_enough (n : nat) : forall m root,
  (deepest d < n + length (components root))%nat ->
  (deepest d < m + length (components root))%nat ->
  scanner.walk n d root backup_dir_name = scanner.walk m d root backup_dir_name.
Proof.
  assert (Hempty : forall k root,
    (deepest d < S (length (components root)))%nat ->
    scanner.walk k d root backup_dir_name = []).
  { intros [|k] root Hdeep; [done|]. cbn [scanner.walk].
    destruct (iterdir d root) as [|item l] eqn:Hl; [done|].
    assert (Hitem : item ∈ iterdir d root) by (rewrite Hl; apply elem_of_cons; by left).
    apply elem_of_iterdir in Hitem as [Hsome [x ->]].
    apply deepest_bound in Hsome. simpl in Hsome. lia. }
  induction n as [|n IH]; intros m root Hn Hm.
  { rewrite (Hempty m) by lia. done. }
  destruct m as [|m].
  { rewrite (Hempty (S n)) by lia. done. }
  cbn [scanner.walk]. apply flat_map_ext_elem.
  intros item [_ [x ->]]%elem_of_iterdir.
  destruct (d !! (root // x)) as [[content mode|writable]|]; [done| |done].
  case_bool_decide; [done|]. apply IH; simpl; lia.
Qed.

End ScannerFacts.

Section ScannerOutcomes.

Context `{Unicodecase}.

(** What a traversal that returned has found. *)
Lemma find_pdfs_Return (d : gmap Path Node) (root : Path) backup_dir_name l :
  scanner.find_pdfs d root backup_dir_name = Return l ->
  NoDup l /\ forall p, p ∈ l <-> to_find d backup_dir_name root p.
Proof.
  unfold scanner.find_pdfs.
  destruct (d !! root) as [[content mode|writable]|]; [done| |done].
  intros Heq.
  assert (l = scanner.walk (S (deepest d)) d root backup_dir_name) as ->
    by congruence.
  clear Heq. split; [apply NoDup_walk|].
  intros p. rewrite walk_spec. split; [by intros [? _]|].
  intros Hp. split; [done|].
  destruct Hp as (_ & (content & mode & Hfile) & _).
  assert (Hdeep := deepest_bound d p). rewrite Hfile in Hdeep.
  specialize (Hdeep (ltac:(eauto))). lia.
Qed.

(** X20.  [find_pdfs] on a directory returns exactly the files to
    find, each of them once: the regular files below the root whose
    suffix lower-cases to ".pdf" and that are reached through
    directories none of which bears the backup name.  On a root that
    is a regular file it raises [NotADirectoryError], on a missing
    root [FileNotFoundError]. *)
Theorem find_pdfs_finds_exactly_once
    (d : gmap Path Node) (root : Path) (backup_dir_name : str) :
  match d !! root with
  | Some (Dir _) =>
      exists l,
        scanner.find_pdfs d root backup_dir_name = Return l
        /\ NoDup l
        /\ forall p, p ∈ l <-> to_find d backup_dir_name root p
  | Some (File _ _) =>
      scanner.find_pdfs d root backup_dir_name = Raise (ENOTDIR root)
  | None =>
      scanner.find_pdfs d root backup_dir_name = Raise (ENOENT root)
  end.
Proof.
  destruct (d !! root) as [[content mode|writable]|] eqn:Hroot;
    unfold scanner.find_pdfs; rewrite Hroot; [done| |done].
  eexists. split; [reflexivity|].
  apply (find_pdfs_Return d root backup_dir_name).
  unfold scanner.find_pdfs. by rewrite Hroot.
Qed.

(** The traversal does not depend on how deep the recursion is
    allowed to go once that is deeper than the disk: every bound
    above the depth of the deepest entry gives the same list. *)
Lemma walk_is_complete_beyond_the_deepest_entry
    (d : gmap Path Node) (root : Path) (backup_dir_name : str) (fuel : nat) :
  (deepest d < fuel)%nat ->
  scanner.walk fuel d root backup_dir_name
  = scanner.walk (S (deepest d)) d root backup_dir_name.
Proof. intros Hfuel. apply walk_enough; lia. Qed.

Lemma rfind_None (c : N) (s : str) : c ∉ s -> rfind c s = None.
Proof.
  induction s as [|x s IH]; [done|].
  intros [Hx Hs]%not_elem_of_cons. simpl. rewrite IH by done.
  destruct (N.eqb_spec x c) as [->|]; done.
Qed.

Lemma rfind_last (c : N) (stem ext : str) :
  c ∉ ext -> rfind c (stem ++ c :: ext) = Some (length stem).
Proof.
  intros Hext. induction stem as [|x stem IH]; simpl.
  - by rewrite (rfind_None _ _ Hext), N.eqb_refl.
  - by rewrite IH.
Qed.

(** X21.  The suffix the traversal looks at: for a name with a dot
    whose last dot is followed by [ext], [suffix] is the dot and
    [ext] when something stands before the dot and something after
    it, and empty otherwise.  So "a.pdf" and "x.tar.pdf" have the
    suffix ".pdf", while ".pdf" (a hidden file) and "pdf." have
    none. *)
Theorem suffix_of_dotted_name (stem ext : str) :
  0x2E ∉ ext ->
  suffix (stem ++ 0x2E :: ext)
  = if bool_decide (stem <> [] /\ ext <> []) then 0x2E :: ext else [].
Proof.
  intros Hext. unfold suffix. rewrite (rfind_last _ _ _ Hext).
  rewrite length_app. cbn [length].
  destruct stem as [|x stem]; [done|].
  destruct ext as [|y ext].
  - rewrite bool_decide_eq_false_2 by (by intros [_ ?]). cbn [length].
    replace (S (length stem) + 1 - 1)%nat with (S (length stem)) by lia.
    by rewrite Nat.ltb_irrefl, andb_false_r.
  - rewrite bool_decide_eq_true_2 by done. cbn [length].
    replace (0 <? S (length stem))%nat with true by done.
    replace (S (length stem) <? S (length stem) + S (S (length ext)) - 1)%nat
      with true by (symmetry; apply Nat.ltb_lt; lia).
    cbn [andb].
    change (S (length stem)) with (length (x :: stem)).
    by rewrite drop_app_length.
Qed.

End ScannerOutcomes.

(** ** logging_utils.py *)

Lemma length_mask (value : str) : length (mask value) = length value.
Proof.
  unfold mask. destruct value as [|c value]; [done|]. cbn [truthy negb].
  generalize (length (c :: value)). intros n.
  induction n as [|n IH]; [done|]. cbn [replicate concat].
  rewrite length_app, IH. done.
Qed.

Lemma mask_stars (value : str) : Forall (fun c => c = 0x2A) (mask value).
Proof.
  unfold mask. destruct value as [|c value]; [constructor|]. cbn [truthy negb].
  generalize (length (c :: value)). intros n.
  induction n as [|n IH]; [constructor|]. cbn [replicate concat].
  change (py "*") with [0x2A]. by constructor.
Qed.

(** X22.  [mask] gives away the length of a value and nothing else:
    the mask is as long as the value and made of asterisks only, so
    two values have the same mask exactly when they have the same
    length. *)
Theorem mask_shows_only_the_length (v1 v2 : str) :
  length (mask v1) = length v1
  /\ Forall (fun c => c = 0x2A) (mask v1)
  /\ (mask v1 = mask v2 <-> length v1 = length v2).
Proof.
  split; [apply length_mask|]. split; [apply mask_stars|]. split.
  - intros Heq. by rewrite <- (length_mask v1), Heq, length_mask.
  - intros Hlen. unfold mask.
    destruct v1 as [|c1 v1], v2 as [|c2 v2]; try done.
    cbn [truthy negb]. by rewrite Hlen.
Qed.

(** ** passwords.py: the empty secret and the line terminators *)

Section PasswordOutcomes.

Context `{Unicodedata}.

Lemma lstrip_by_dropped (drop : N -> bool) (a b : str) :
  forallb drop a = true -> lstrip_by drop (a ++ b) = lstrip_by drop b.
Proof.
  induction a as [|c a IH]; simpl; [done|].
  intros [Hc Ha]%andb_true_iff. rewrite Hc. by apply IH.
Qed.

Lemma rstrip_by_dropped (drop : N -> bool) (s t : str) :
  forallb drop t = true -> rstrip_by drop (s ++ t) = rstrip_by drop s.
Proof.
  intros Ht. unfold rstrip_by. rewrite rev_app_distr.
  rewrite lstrip_by_dropped; [done|]. by rewrite forallb_rev.
Qed.

Lemma password_of_line_terminator (line t : str) :
  forallb (fun c => bool_decide (c ∈ CRLF)) t = true ->
  password_of_line (line ++ t) = password_of_line line.
Proof.
  intros Ht. unfold password_of_line, rstrip. by rewrite rstrip_by_dropped.
Qed.

Lemma omap_password_of_line_cons (line : str) (lines : list str) :
  omap password_of_line (line :: lines)
  = match password_of_line line with
    | Some password => password :: omap password_of_line lines
    | None => omap password_of_line lines
    end.
Proof. reflexivity. Qed.

Lemma omap_password_of_line_ends (texts : list str) : forall ends : list str,
  length ends = length texts ->
  forallb (forallb (fun c => bool_decide (c ∈ CRLF))) ends = true ->
  omap password_of_line (zip_with app texts ends) = omap password_of_line texts.
Proof.
  induction texts as [|text texts IH]; intros [|t ends] Hlen Hends; try done.
  simpl in Hlen, Hends. apply andb_true_iff in Hends as [Ht Hends].
  cbn [zip_with]. rewrite !omap_password_of_line_cons.
  rewrite password_of_line_terminator by done.
  rewrite IH by (done || lia). done.
Qed.

(** X23.  Line terminators never reach a candidate: two readings of a
    wordlist whose lines carry the same text and differ only in what
    run of carriage returns and line feeds ends each line (none after
    the last line, "\n", "\r\n") give the same candidates. *)
Theorem wordlist_line_terminators_do_not_matter
    (files1 files2 : TextFiles) (dictionary_path : Path)
    (texts ends1 ends2 : list str) :
  length ends1 = length texts ->
  length ends2 = length texts ->
  forallb (forallb (fun c => bool_decide (c ∈ CRLF))) ends1 = true ->
  forallb (forallb (fun c => bool_decide (c ∈ CRLF))) ends2 = true ->
  @open_lines files1 dictionary_path = zip_with app texts ends1 ->
  @open_lines files2 dictionary_path = zip_with app texts ends2 ->
  @_iter_from_dictionary _ files1 dictionary_path
  = @_iter_from_dictionary _ files2 dictionary_path.
Proof.
  intros Hlen1 Hlen2 Hends1 Hends2 Hlines1 Hlines2.
  unfold _iter_from_dictionary. rewrite Hlines1, Hlines2.
  by rewrite !omap_password_of_line_ends.
Qed.

Context `{TextFiles}.

Lemma wordlist_never_empty (dictionary_path : Path) :
  [] ∉ _iter_from_dictionary dictionary_path.
Proof.
  unfold _iter_from_dictionary. rewrite omap_password_of_line.
  rewrite list_elem_of_In, filter_In. by intros [_ ?].
Qed.

Lemma empty_in_candidates single dictionary_path env try_empty :
  [] ∈ (candidates single dictionary_path env try_empty).*1
  <-> try_empty = true \/ single = Some [].
Proof.
  unfold candidates. rewrite !fmap_app, !elem_of_app.
  assert (Hsingle : [] ∈ (from_single single).*1 <-> single = Some []).
  { destruct single as [s|]; simpl.
    - rewrite list_elem_of_singleton. split; [by intros <-|by intros [= <-]].
    - split; [by intros ?%elem_of_nil|done]. }
  assert (Hdict : [] ∉ (from_dictionary dictionary_path).*1).
  { unfold from_dictionary. destruct dictionary_path as [p|]; [|apply not_elem_of_nil].
    destruct (path_exists p); [|apply not_elem_of_nil].
    intros (x & Hx & Hin)%list_elem_of_fmap.
    apply list_elem_of_In, in_map_iff in Hin as (s & <- & Hs).
    simpl in Hx. subst s. by apply list_elem_of_In, wordlist_never_empty in Hs. }
  assert (Henv : [] ∉ (from_environment env).*1).
  { unfold from_environment. destruct (env_value env) as [v|]; [|apply not_elem_of_nil].
    destruct v as [|c v]; simpl; [apply not_elem_of_nil|].
    by intros ?%list_elem_of_singleton. }
  assert (Hempty : [] ∈ (from_empty try_empty).*1 <-> try_empty = true).
  { destruct try_empty; simpl.
    - split; [done|]. intros _. by apply list_elem_of_singleton.
    - split; [by intros ?%elem_of_nil|done]. }
  tauto.
Qed.

(** X24.  The empty password is tried only on request: it is among
    the candidates of [iter_passwords] exactly when [try_empty] is set
    or the single password given is itself empty.  No wordlist line
    and no environment value ever supplies it. *)
Theorem empty_password_only_on_request
    (single : option str) (dictionary_path : option Path)
    (env : option (gmap str str)) (try_empty : bool) :
  [] ∈ (iter_passwords single dictionary_path env try_empty).*1
  <-> try_empty = true \/ single = Some [].
Proof.
  rewrite iter_passwords_first_wins, <- empty_in_candidates.
  unfold first_wins. split.
  - intros ([s o] & Hs & Hin)%list_elem_of_fmap. simpl in Hs. subst s.
    apply (list_elem_of_fmap_2 fst _ ([], o)).
    eapply elem_of_sublist; [exact Hin|apply first_wins_after_sublist].
  - intros Hin. apply first_wins_after_complete; [done|apply not_elem_of_nil].
Qed.

End PasswordOutcomes.

(** ** A whole run with the package's own traversal *)

Section RunOutcomes.

Context `{Unicodedata} `{Unicodecase} `{Logging} `{Shell} `{Pikepdf} `{Device}.

(** X25.  [main] calls [find_pdfs(path)] with the default backup name.
    So every file a run opens lies below the root, has the ".pdf"
    suffix and is reached without entering a directory named
    "pdf_with_password", whatever [--backup-dir-name] says: the option
    names the directory backups are written to, not the directories
    the run keeps out of. *)
Theorem main_keeps_out_of_default_backup_directories
    (o : Options) (w : World) (path : Path) :
  opt_path o = Some path ->
  exists l,
    opens (main o w).2 = opens w ++ l
    /\ Forall (fun x => to_find (fs w) (py "pdf_with_password") path x.1) l.
Proof.
  intros Hpath.
  destruct (main_opens o w) as (l & Hl & Hfound).
  exists l. split; [done|].
  apply Forall_forall. intros x Hx.
  destruct (Hfound x Hx) as (path' & pdf_files & Hpath' & Hscan & Hin).
  assert (path' = path) as -> by congruence.
  apply find_pdfs_Return in Hscan as [_ Hspec].
  by apply Hspec.
Qed.

End RunOutcomes.

(** * The theorems at work *)

(** ** Credentials *)

(** The wordlist of the package's tests: comments and blank lines go,
    spaces around a password stay. *)
Example wordlist_comments_blanks_spaces :
  let wordlist := Root // py "dictionary.txt" in
  let files :=
    one_text_file wordlist
      [py "password1" ++ [0x0A]; [0x0A]; py "# This is a comment" ++ [0x0A];
       py "  password2  " ++ [0x0D; 0x0A]; py "   " ++ [0x0A]; py "password3 "] in
  @_iter_from_dictionary unicodedata_fragment files wordlist
  = [py "password1"; py "  password2  "; py "password3 "].
Proof. vm_compute. reflexivity. Qed.

(** All four sources at once, with repeats: the order is single,
    wordlist, environment, empty, and the first origin wins. *)
Example iter_passwords_all_sources :
  let wordlist := Root // py "dictionary.txt" in
  let files :=
    one_text_file wordlist
      [py "duplicate" ++ [0x0A]; py "another" ++ [0x0A]; py "envpass" ++ [0x0A];
       py "duplicate" ++ [0x0A]] in
  @iter_passwords unicodedata_fragment files (Some (py "duplicate")) (Some wordlist)
    (Some {[ PDFMASSUNLOCK_PASSWORD := py "envpass" ]}) true
  = [(py "duplicate", py "single"); (py "another", py "dictionary");
     (py "envpass", py "dictionary"); ([], py "empty")].
Proof. vm_compute. reflexivity. Qed.

(** An empty single credential is a credential, and takes the place of
    the empty source. *)
Example iter_passwords_empty_single :
  @iter_passwords unicodedata_fragment (one_text_file Root []) (Some []) None None true
  = [([], py "single")].
Proof. vm_compute. reflexivity. Qed.

(** ** Atomic write *)

(** C1 at work: a body that writes "partial content" over "b.pdf" and
    raises leaves the sample disk untouched. *)
Lemma atomic_write_failure_restores_disk_witness :
  @atomic_write steady_device b_pdf failing_body sample_disk
  = (Raise simulated_error, sample_disk)
  /\ sample_disk !! sample_tmp = None
  /\ parent sample_tmp = parent b_pdf
  /\ (forall p, p <> sample_tmp ->
        <[sample_tmp := File (list_byte_of_string "partial content") true]> sample_disk !! p
        = sample_disk !! p).
Proof.
  apply (@atomic_write_failure_restores_disk steady_device b_pdf failing_body
           sample_disk (<[sample_tmp := File [] true]> sample_disk)
           (<[sample_tmp := File (list_byte_of_string "partial content") true]> sample_disk)
           sample_tmp simulated_error);
    vm_compute; reflexivity.
Defined.

(** The same when the body completes and the flush fails. *)
Example atomic_write_flush_failure :
  @atomic_write full_device b_pdf
    {| chunks := [list_byte_of_string "whole content"]; raises := None |} sample_disk
  = (Raise {| class_of := OSError;
              str_of := py "[Errno 28] No space left on device" |},
     sample_disk).
Proof. vm_compute. reflexivity. Qed.

(** And a body that completes on a steady device replaces the target. *)
Example atomic_write_success :
  @atomic_write steady_device b_pdf
    {| chunks := [list_byte_of_string "whole "; list_byte_of_string "content"];
       raises := None |} sample_disk
  = (Return tt, <[b_pdf := File (list_byte_of_string "whole content") true]> sample_disk).
Proof. vm_compute. reflexivity. Qed.

(** ** Backup *)

(** C9, amended, at work: the writable backup an earlier run left is
    replaced. *)
Lemma copy_backup_overwrites_unless_read_only_witness :
  copy_backup b_pdf pdf_with_password backed_up_disk
  = (Return (docs // pdf_with_password // py "b.pdf"),
     <[docs // pdf_with_password // py "b.pdf"
       := File (list_byte_of_string "Ehlocked text") true]> backed_up_disk).
Proof.
  apply (copy_backup_overwrites_unless_read_only b_pdf pdf_with_password
           backed_up_disk (list_byte_of_string "Ehlocked text")
           (list_byte_of_string "Ehearlier text") true true true);
    vm_compute; reflexivity.
Defined.

(** C9, as stated, fails.  The backup of a read-only document is
    read-only, as [copy2] gives the copy the mode of the source.  When
    the document has changed since and is backed up again,
    [copy_backup] raises [PermissionError]: the backup still holds the
    earlier bytes, not the current ones. *)
Lemma copy_backup_keeps_read_only_backup :
  let bp := docs // pdf_with_password // py "b.pdf" in
  let first := copy_backup b_pdf pdf_with_password read_only_document_disk in
  let revised :=
    <[b_pdf := File (list_byte_of_string "Ehrevised text") false]> first.2 in
  let second := copy_backup b_pdf pdf_with_password revised in
  first.1 = Return bp
  /\ first.2 !! bp = Some (File (list_byte_of_string "Ehlocked text") false)
  /\ revised !! b_pdf = Some (File (list_byte_of_string "Ehrevised text") false)
  /\ second.1 = Raise (EACCES bp)
  /\ second.2 !! bp = Some (File (list_byte_of_string "Ehlocked text") false)
  /\ second.2 !! b_pdf = Some (File (list_byte_of_string "Ehrevised text") false).
Proof. vm_compute. repeat split. Qed.

(** The same through [unlock_file]: a first run with a wrong password
    leaves the read-only backup; a second run, with the right
    password, fails at the backup step and the document stays
    locked. *)
Example unlock_file_stopped_by_read_only_backup :
  let first :=
    @unlock_file toy_pikepdf steady_device b_pdf
      (of_list [(py "x", py "single")]) pdf_with_password
      {| fs := read_only_document_disk; opens := [] |} in
  let second :=
    @unlock_file toy_pikepdf steady_device b_pdf
      (of_list [(py "h", py "single")]) pdf_with_password first.2 in
  first.1 = Return (all_failed b_pdf)
  /\ second.1
     = Return (backup_failed b_pdf (EACCES (docs // pdf_with_password // py "b.pdf")))
  /\ fs second.2 !! b_pdf
     = Some (File (list_byte_of_string "Ehlocked text") false).
Proof. vm_compute. repeat split. Qed.

(** ** Unlocking *)

(** C3 at work: the plain document of the sample disk. *)
Lemma already_unlocked_is_unchanged_witness :
  @unlock_file toy_pikepdf steady_device a_pdf (of_list two_passwords)
    pdf_with_password sample_world
  = (Return {| file_path := a_pdf; status := UNCHANGED; error_message := None;
               method_used := Some (py "already_unlocked") |},
     {| fs := sample_disk; opens := [(a_pdf, None)] |})
  /\ @try_unlock_dry_run toy_pikepdf a_pdf (of_list two_passwords)
       pdf_with_password sample_world
     = (Return {| file_path := a_pdf; status := UNCHANGED; error_message := None;
                  method_used := Some (py "already_unlocked") |},
        {| fs := sample_disk; opens := [(a_pdf, None)] |}).
Proof.
  apply (@already_unlocked_is_unchanged toy_pikepdf steady_device a_pdf
           (of_list two_passwords) pdf_with_password sample_world
           (list_byte_of_string "plain text")).
  vm_compute. reflexivity.
Defined.

(** C2 at work: in a read-only directory the backup directory cannot be
    made, and the right password is never tried. *)
Lemma backup_failure_tries_no_password_witness :
  @unlock_file toy_pikepdf steady_device b_pdf (of_list two_passwords)
    pdf_with_password {| fs := sealed_disk; opens := [] |}
  = (Return {| file_path := b_pdf; status := FAILED;
               error_message :=
                 Some (py "Failed to create backup: "
                       ++ str_of (EACCES (docs // pdf_with_password)));
               method_used := None |},
     {| fs := sealed_disk; opens := [] ++ [(b_pdf, None)] |}).
Proof.
  apply (@backup_failure_tries_no_password toy_pikepdf steady_device b_pdf
           (of_list two_passwords) pdf_with_password {| fs := sealed_disk; opens := [] |}
           {| class_of := PasswordError; str_of := py "invalid password" |}
           (EACCES (docs // pdf_with_password)) sealed_disk);
    vm_compute; reflexivity.
Defined.

(** C6 at work: "b.pdf" damaged.  Every open raises [PdfError]; the
    classification answers [True], the backup is made, the first
    candidate is tried, and the result is the one of that trial. *)
Lemma classification_never_fails_witness :
  let w := {| fs := damaged_disk; opens := [] |} in
  let d1 := (create_backup b_pdf pdf_with_password damaged_disk).2 in
  @is_pdf_encrypted toy_pikepdf b_pdf w = (Return true, journal w b_pdf None)
  /\ @unlock_file toy_pikepdf steady_device b_pdf (of_list two_passwords)
       pdf_with_password w
     = (Return (processing_failed b_pdf damaged),
        {| fs := d1;
           opens := ([] ++ [(b_pdf, None)])
                    ++ trials_of b_pdf ([] ++ [(py "x", py "single")]) |})
  /\ d1 !! (docs // pdf_with_password // py "b.pdf")
     = Some (File (list_byte_of_string "damaged") true).
Proof.
  intros w d1.
  destruct (@classification_never_fails toy_pikepdf steady_device b_pdf w)
    as (Hclass & Hnext & _).
  split; [exact Hclass|].
  split; [|vm_compute; reflexivity].
  destruct (Hnext damaged (of_list two_passwords) pdf_with_password eq_refl)
    as (_ & Htrials & _).
  destruct (Htrials (docs // pdf_with_password // py "b.pdf") d1 eq_refl)
    as (content & mode & Hfile & _ & Hsteps & _).
  vm_compute in Hfile. injection Hfile as <- <-.
  destruct (Hsteps [] (py "x") (py "single") [(py "h", py "dictionary")]
              eq_refl eq_refl) as [_ Hother].
  exact (Hother damaged eq_refl eq_refl).
Defined.

(** C5 at work: on the sample disk every mutating step succeeds, and the
    dry run reports what the real run does. *)
Lemma dry_run_previews_unlock_file_witness :
  @mutations_succeed toy_pikepdf steady_device b_pdf two_passwords
    pdf_with_password sample_disk = true
  /\ (@try_unlock_dry_run toy_pikepdf b_pdf (of_list two_passwords)
        pdf_with_password sample_world).1
     = (@unlock_file toy_pikepdf steady_device b_pdf (of_list two_passwords)
          pdf_with_password sample_world).1
  /\ (@unlock_file toy_pikepdf steady_device b_pdf (of_list two_passwords)
        pdf_with_password sample_world).1
     = Return (unlocked b_pdf (py "dictionary")).
Proof.
  assert (Hok : @mutations_succeed toy_pikepdf steady_device b_pdf two_passwords
                  pdf_with_password sample_disk = true)
    by (vm_compute; reflexivity).
  split; [exact Hok|]. split.
  - exact (proj2 (@dry_run_previews_unlock_file toy_pikepdf steady_device b_pdf
                    (of_list two_passwords) pdf_with_password sample_world) Hok
             (fun _ _ _ => eq_refl)).
  - vm_compute. reflexivity.
Defined.

(** C5, as stated, fails.  In a read-only directory that holds a
    writable backup directory, the dry run reports [UNLOCKED] where
    [unlock_file] makes the backup, opens the file and then fails to
    create its temporary file: [FAILED].  And for a path that does not
    exist both report [FAILED], the dry run for the open ("Error
    processing PDF with password"), [unlock_file] for the copy ("Failed
    to create backup"). *)
Lemma dry_run_differs_from_unlock_file :
  (@try_unlock_dry_run toy_pikepdf b_pdf (of_list [(py "h", py "dictionary")])
     pdf_with_password {| fs := readonly_disk; opens := [] |}).1
  = Return (unlocked b_pdf (py "dictionary"))
  /\ (@unlock_file toy_pikepdf steady_device b_pdf
        (of_list [(py "h", py "dictionary")])
        pdf_with_password {| fs := readonly_disk; opens := [] |}).1
     = Return (processing_failed b_pdf (EACCES sample_tmp))
  /\ (@try_unlock_dry_run toy_pikepdf non_existent_pdf
        (of_list [(py "any_password", py "dictionary")])
        pdf_with_password sample_world).1
     = Return (processing_failed non_existent_pdf (ENOENT non_existent_pdf))
  /\ (@unlock_file toy_pikepdf steady_device non_existent_pdf
        (of_list [(py "any_password", py "dictionary")])
        pdf_with_password sample_world).1
     = Return (backup_failed non_existent_pdf (ENOENT non_existent_pdf)).
Proof. vm_compute. repeat split. Qed.

(** The generator of [iter_passwords] reads its wordlist when the
    trials start, after the backup step.  A wordlist kept under the
    name of the test file of the validation is removed by it: the dry
    run finds the password there, [unlock_file] finds no wordlist. *)
Example dry_run_reads_the_wordlist_before_the_backup_step :
  let wordlist := docs // pdf_with_password // py "b.pdf.tmp_test" in
  let d :=
    <[wordlist := File (list_byte_of_string "h") true]>
      (<[docs // pdf_with_password := Dir true]> sample_disk) in
  let passwords :=
    @iter_passwords_generator unicodedata_fragment toy_shell None (Some wordlist)
      None false in
  (@try_unlock_dry_run toy_pikepdf b_pdf passwords pdf_with_password
     {| fs := d; opens := [] |}).1
  = Return (unlocked b_pdf (py "dictionary"))
  /\ (@unlock_file toy_pikepdf steady_device b_pdf passwords pdf_with_password
        {| fs := d; opens := [] |}).1
     = Return (all_failed b_pdf).
Proof. vm_compute. split; reflexivity. Qed.

(** ** Exit status *)


(** With the locked document and its password the status is 0 as well,
    and 1 with a wrong password. *)
Example exit_status_unlocked :
  (@main unicodedata_fragment ascii_lower toy_logging toy_shell toy_pikepdf
     steady_device sample_options sample_world).1 = Return 0.
Proof. vm_compute. reflexivity. Qed.

Example exit_status_failed :
  (@main unicodedata_fragment ascii_lower toy_logging toy_shell toy_pikepdf
     steady_device (options_with (Some (py "wrong")) "dictionary.txt" "INFO")
     sample_world).1 = Return 1.
Proof. vm_compute. reflexivity. Qed.

(** A path that is a document, not a directory, is a usage error. *)
Example exit_status_path_is_a_file :
  (@main unicodedata_fragment ascii_lower toy_logging toy_shell toy_pikepdf
     steady_device
     {| opt_path := Some a_pdf; opt_password := Some (py "h");
        opt_dictionary := py "dictionary.txt"; opt_try_empty := false;
        opt_backup_dir_name := pdf_with_password; opt_backup_root := None;
        opt_dry_run := false; opt_summary := false; opt_log_level := py "INFO" |}
     sample_world)
  = (Return 2, sample_world).
Proof. vm_compute. reflexivity. Qed.

(** A level is named in any case; a text that names none makes
    [get_logger] raise before any file is looked at. *)
Example exit_status_lower_case_level :
  (@main unicodedata_fragment ascii_lower toy_logging toy_shell toy_pikepdf
     steady_device (options_with (Some (py "h")) "dictionary.txt" "debug")
     sample_world).1 = Return 0.
Proof. vm_compute. reflexivity. Qed.

Example exit_status_unknown_level :
  let run :=
    @main unicodedata_fragment ascii_lower toy_logging toy_shell toy_pikepdf
      steady_device (options_with (Some (py "h")) "dictionary.txt" "VERBOSE")
      sample_world in
  run = (Raise {| class_of := AttributeError;
                  str_of := py "module 'logging' has no attribute 'VERBOSE'" |},
         sample_world)
  /\ exit_status run.1 = 1.
Proof. vm_compute. split; reflexivity. Qed.

(** The wordlist is read when the trials get to it.  With "docs" for a
    wordlist, a directory, a single password that opens the document
    ends the run before the wordlist is opened; a wrong one lets the
    generator go on to the wordlist, and [IsADirectoryError] leaves
    [main] after the backup was made and one password tried; the
    document that comes next in the traversal is not looked at. *)
Example exit_status_wordlist_is_a_directory :
  let right :=
    @main unicodedata_fragment ascii_lower toy_logging toy_shell toy_pikepdf
      steady_device (options_with (Some (py "h")) "docs" "INFO") sample_world in
  let wrong :=
    @main unicodedata_fragment ascii_lower toy_logging toy_shell toy_pikepdf
      steady_device (options_with (Some (py "x")) "docs" "INFO") sample_world in
  right.1 = Return 0
  /\ wrong.1 = Raise (EISDIR docs)
  /\ exit_status wrong.1 = 1
  /\ opens wrong.2 = [(b_pdf, None); (b_pdf, Some (py "x"))]
  /\ fs wrong.2 !! (docs // pdf_with_password // py "b.pdf")
     = Some (File (list_byte_of_string "Ehlocked text") true).
Proof. vm_compute. repeat split. Qed.

(** A wordlist found relative to the scanned directory supplies the
    password; one that is not UTF-8 ends the run with
    [UnicodeDecodeError]. *)
Example exit_status_wordlist :
  (@main unicodedata_fragment ascii_lower toy_logging toy_shell toy_pikepdf
     steady_device (options_with None "dictionary.txt" "INFO")
     {| fs := wordlist_disk; opens := [] |}).1 = Return 0
  /\ opens (@main unicodedata_fragment ascii_lower toy_logging toy_shell
              toy_pikepdf steady_device
              (options_with None "dictionary.txt" "INFO")
              {| fs := wordlist_disk; opens := [] |}).2
     = [(b_pdf, None); (b_pdf, Some (py "x")); (b_pdf, Some (py "h"));
        (a_pdf, None)]
  /\ class_of
       match (@main unicodedata_fragment ascii_lower toy_logging toy_shell
                toy_pikepdf steady_device
                (options_with None "dictionary.txt" "INFO")
                {| fs := latin_wordlist_disk; opens := [] |}).1 with
       | Raise e => e
       | Return _ => simulated_error
       end
     = UnicodeDecodeError.
Proof. vm_compute. repeat split. Qed.

(** * More examples *)

(** ** Atomic write, every way out *)

(** X1 and X4 at work: a write aimed at the directory [/docs] gets as
    far as the rename, which is refused; [/docs] is as it was and the
    finished temporary file stays in the root. *)
Lemma atomic_write_failure_keeps_target_witness :
  <[root_tmp := File (list_byte_of_string "Punlocked text") true]> sample_disk !! docs
  = sample_disk !! docs
  /\ (forall p,
        p <> parent docs // @temp_name steady_device sample_disk (parent docs) (py ".tmp") ->
        <[root_tmp := File (list_byte_of_string "Punlocked text") true]> sample_disk !! p
        = sample_disk !! p).
Proof.
  apply (@atomic_write_failure_keeps_target steady_device docs whole_body
           sample_disk (EISDIR docs)).
  vm_compute. reflexivity.
Defined.

Lemma atomic_write_refused_rename_leaves_temporary_file_witness :
  @atomic_write steady_device docs whole_body sample_disk
  = (Raise (EISDIR docs),
     <[parent docs // @temp_name steady_device sample_disk (parent docs) (py ".tmp")
       := File (concat (chunks whole_body)) true]> sample_disk).
Proof.
  apply (@atomic_write_refused_rename_leaves_temporary_file steady_device docs
           whole_body sample_disk true);
    vm_compute; reflexivity.
Defined.

(** X2 and X3 at work: the locked document of the sample disk is
    rewritten in one piece. *)
Lemma atomic_write_return_is_whole_content_witness :
  ({[ Root := Dir true;
      docs := Dir true;
      a_pdf := File (list_byte_of_string "Pplain text") true;
      b_pdf := File (list_byte_of_string "Punlocked text") true ]} : gmap Path Node)
  = <[b_pdf := File (concat (chunks whole_body)) true]> sample_disk.
Proof.
  apply (@atomic_write_return_is_whole_content steady_device b_pdf whole_body
           sample_disk tt).
  vm_compute. reflexivity.
Defined.

Lemma atomic_write_succeeds_witness :
  @atomic_write steady_device b_pdf whole_body sample_disk
  = (Return tt, <[b_pdf := File (concat (chunks whole_body)) true]> sample_disk).
Proof.
  apply (@atomic_write_succeeds steady_device b_pdf whole_body sample_disk);
    try (vm_compute; reflexivity).
  intros writable. vm_compute. discriminate.
Defined.

(** ** Backups at their edges *)

Lemma ensure_backup_idempotent_witness :
  ensure_backup b_pdf pdf_with_password
    (<[docs // pdf_with_password := Dir true]> sample_disk)
  = (Return (docs // pdf_with_password),
     <[docs // pdf_with_password := Dir true]> sample_disk).
Proof.
  apply (ensure_backup_idempotent b_pdf pdf_with_password sample_disk).
  vm_compute. reflexivity.
Defined.

(** X6 at work: a file named "pdf_with_password" in [/docs], writable
    and then read-only. *)
Lemma backup_dir_is_a_file_dry_check_asks_access_only_witness :
  (validate_backup_path_no_side_effects b_pdf pdf_with_password blocked_disk
   = (Return (docs // pdf_with_password // py "b.pdf"), blocked_disk)
   /\ validate_backup_path b_pdf pdf_with_password blocked_disk
      = (Raise (EEXIST (docs // pdf_with_password)), blocked_disk))
  /\ (validate_backup_path_no_side_effects b_pdf pdf_with_password
        sealed_blocked_disk
      = (Raise {| class_of := PermissionError;
                  str_of := py "Backup directory exists but is not writable: "
                            ++ str_of_path (docs // pdf_with_password) |},
         sealed_blocked_disk)
      /\ validate_backup_path b_pdf pdf_with_password sealed_blocked_disk
         = (Raise (EEXIST (docs // pdf_with_password)), sealed_blocked_disk)).
Proof.
  split.
  - apply (backup_dir_is_a_file_dry_check_asks_access_only b_pdf pdf_with_password
             blocked_disk (list_byte_of_string "not a directory") true).
    vm_compute. reflexivity.
  - apply (backup_dir_is_a_file_dry_check_asks_access_only b_pdf pdf_with_password
             sealed_blocked_disk (list_byte_of_string "not a directory") false).
    vm_compute. reflexivity.
Defined.

(** X7 at work: the notes someone kept as "b.pdf.tmp_test" in the
    backup directory do not survive the validation. *)
Lemma validate_backup_path_leaves_no_test_file_witness :
  let d' := <[docs // pdf_with_password := Dir true]> sample_disk in
  d' !! (docs // pdf_with_password // (name b_pdf ++ py ".tmp_test")) = None
  /\ d' !! (docs // pdf_with_password) = Some (Dir true)
  /\ (forall q, q <> docs // pdf_with_password ->
                q <> docs // pdf_with_password // (name b_pdf ++ py ".tmp_test") ->
                d' !! q = probe_disk !! q).
Proof.
  apply (validate_backup_path_leaves_no_test_file b_pdf pdf_with_password
           probe_disk (docs // pdf_with_password // py "b.pdf")).
  vm_compute. reflexivity.
Defined.

Lemma copy_backup_copies_source_witness :
  let bp := docs // pdf_with_password // py "b.pdf" in
  let d' := <[bp := File (list_byte_of_string "Ehlocked text") true]>
              (<[docs // pdf_with_password := Dir true]> sample_disk) in
  bp = parent b_pdf // pdf_with_password // name b_pdf
  /\ exists content mode,
       sample_disk !! b_pdf = Some (File content mode)
       /\ d' !! b_pdf = Some (File content mode)
       /\ d' !! bp = Some (File content mode)
       /\ (forall q, q <> bp -> q <> parent b_pdf // pdf_with_password ->
                     d' !! q = sample_disk !! q).
Proof.
  apply (copy_backup_copies_source b_pdf pdf_with_password sample_disk).
  - vm_compute. reflexivity.
  - intros writable. vm_compute. discriminate.
Defined.

Lemma copy_backup_missing_source_leaves_directory_witness :
  copy_backup non_existent_pdf pdf_with_password sample_disk
  = (Raise (ENOENT non_existent_pdf),
     <[parent non_existent_pdf // pdf_with_password := Dir true]> sample_disk).
Proof.
  apply (copy_backup_missing_source_leaves_directory non_existent_pdf
           pdf_with_password sample_disk);
    try (vm_compute; reflexivity).
  vm_compute. discriminate.
Defined.

Lemma dry_check_accepts_what_validation_accepts_witness :
  validate_backup_path_no_side_effects b_pdf pdf_with_password sample_disk
  = (Return (docs // pdf_with_password // py "b.pdf"), sample_disk).
Proof.
  apply (dry_check_accepts_what_validation_accepts b_pdf pdf_with_password
           sample_disk (docs // pdf_with_password // py "b.pdf")
           (<[docs // pdf_with_password := Dir true]> sample_disk)).
  vm_compute. reflexivity.
Defined.

(** ** The trials *)

(** X10 at work: two wrong passwords, and "b.pdf" is as it was. *)
Lemma unlock_file_changes_file_only_when_unlocked_witness :
  fs (@unlock_file toy_pikepdf steady_device b_pdf (of_list wrong_passwords)
        pdf_with_password sample_world).2 !! b_pdf
  = Some (File (list_byte_of_string "Ehlocked text") true).
Proof.
  apply (@unlock_file_changes_file_only_when_unlocked toy_pikepdf steady_device
           b_pdf (of_list wrong_passwords) pdf_with_password sample_world
           (list_byte_of_string "Ehlocked text") true
           (Return (all_failed b_pdf))).
  - vm_compute. reflexivity.
  - vm_compute. reflexivity.
  - intros r [= <-]. vm_compute. discriminate.
Defined.

(** X11 at work: the right password is the second candidate. *)
Lemma unlock_file_unlocked_backup_and_content_witness :
  let w' := (@unlock_file toy_pikepdf steady_device b_pdf (of_list two_passwords)
               pdf_with_password sample_world).2 in
  fs w' !! (parent b_pdf // pdf_with_password // name b_pdf)
  = Some (File (list_byte_of_string "Ehlocked text") true)
  /\ exists d1 password source pdf,
       (password, source) ∈ yields (of_list two_passwords d1)
       /\ @pdf_parse toy_pikepdf (list_byte_of_string "Ehlocked text")
            (Some password) = Return pdf
       /\ method_used (unlocked b_pdf (py "dictionary")) = Some source
       /\ fs w' !! b_pdf
          = Some (File (concat (chunks (@pdf_save toy_pikepdf pdf))) true).
Proof.
  apply (@unlock_file_unlocked_backup_and_content toy_pikepdf steady_device
           b_pdf (of_list two_passwords) pdf_with_password sample_world
           (list_byte_of_string "Ehlocked text") true).
  - vm_compute. reflexivity.
  - intros writable. vm_compute. discriminate.
  - vm_compute. reflexivity.
  - reflexivity.
Defined.

(** X12 at work: "z" comes after the winner and is never tried. *)
Lemma unlock_file_first_opening_password_witness :
  let d1 := (create_backup b_pdf pdf_with_password sample_disk).2 in
  let d2 := (@atomic_write steady_device b_pdf
               (@pdf_save toy_pikepdf (list_byte_of_string "locked text")) d1).2 in
  @unlock_file toy_pikepdf steady_device b_pdf (of_list three_passwords)
    pdf_with_password sample_world
  = (Return (unlocked b_pdf (py "dictionary")),
     {| fs := d2;
        opens := [] ++ (b_pdf, None)
                 :: trials_of b_pdf ([(py "x", py "single")]
                                     ++ [(py "h", py "dictionary")]) |}).
Proof.
  apply (@unlock_file_first_opening_password toy_pikepdf steady_device b_pdf
           (of_list three_passwords)
           pdf_with_password sample_world (list_byte_of_string "Ehlocked text")
           true
           {| class_of := PasswordError; str_of := py "invalid password" |}
           (docs // pdf_with_password // py "b.pdf")
           (create_backup b_pdf pdf_with_password sample_disk).2
           [(py "x", py "single")] [(py "z", py "environment")]
           (py "h") (py "dictionary") (list_byte_of_string "locked text"));
    vm_compute; reflexivity.
Defined.

Lemma unlock_file_all_passwords_rejected_witness :
  let d1 := (create_backup b_pdf pdf_with_password sample_disk).2 in
  @unlock_file toy_pikepdf steady_device b_pdf (of_list wrong_passwords)
    pdf_with_password sample_world
  = (Return (all_failed b_pdf),
     {| fs := d1;
        opens := [] ++ (b_pdf, None) :: trials_of b_pdf wrong_passwords |}).
Proof.
  apply (@unlock_file_all_passwords_rejected toy_pikepdf steady_device b_pdf
           (of_list wrong_passwords)
           pdf_with_password sample_world (list_byte_of_string "Ehlocked text")
           true
           {| class_of := PasswordError; str_of := py "invalid password" |}
           (docs // pdf_with_password // py "b.pdf")
           (create_backup b_pdf pdf_with_password sample_disk).2);
    vm_compute; reflexivity.
Defined.

(** X14 at work: a damaged document fails at the first candidate. *)
Lemma unlock_file_stops_at_other_error_witness :
  let d1 := (create_backup b_pdf pdf_with_password damaged_disk).2 in
  @unlock_file toy_pikepdf steady_device b_pdf (of_list two_passwords)
    pdf_with_password {| fs := damaged_disk; opens := [] |}
  = (Return (processing_failed b_pdf damaged),
     {| fs := d1;
        opens := [] ++ (b_pdf, None)
                 :: trials_of b_pdf ([] ++ [(py "x", py "single")]) |}).
Proof.
  apply (@unlock_file_stops_at_other_error toy_pikepdf steady_device b_pdf
           (of_list two_passwords)
           pdf_with_password {| fs := damaged_disk; opens := [] |}
           (list_byte_of_string "damaged") true damaged
           (docs // pdf_with_password // py "b.pdf")
           (create_backup b_pdf pdf_with_password damaged_disk).2
           [] [(py "h", py "dictionary")] (py "x") (py "single") damaged);
    vm_compute; reflexivity.
Defined.

Lemma try_unlock_dry_run_first_opening_password_witness :
  @try_unlock_dry_run toy_pikepdf b_pdf (of_list three_passwords)
    pdf_with_password sample_world
  = (Return (unlocked b_pdf (py "dictionary")),
     {| fs := fs sample_world;
        opens := opens sample_world ++ (b_pdf, None)
                 :: trials_of b_pdf ([(py "x", py "single")]
                                     ++ [(py "h", py "dictionary")]) |}).
Proof.
  apply (@try_unlock_dry_run_first_opening_password toy_pikepdf b_pdf
           (of_list three_passwords)
           pdf_with_password sample_world (list_byte_of_string "Ehlocked text")
           true
           {| class_of := PasswordError; str_of := py "invalid password" |}
           (docs // pdf_with_password // py "b.pdf")
           [(py "x", py "single")] [(py "z", py "environment")]
           (py "h") (py "dictionary") (list_byte_of_string "locked text"));
    vm_compute; reflexivity.
Defined.

Lemma results_are_well_formed_witness :
  let r := backup_failed b_pdf (EACCES (docs // pdf_with_password)) in
  file_path r = b_pdf
  /\ (status r = FAILED <-> is_Some (error_message r))
  /\ (status r = FAILED <-> method_used r = None).
Proof.
  apply (@results_are_well_formed toy_pikepdf steady_device b_pdf
           (of_list two_passwords) pdf_with_password false {| fs := sealed_disk; opens := [] |}
           (backup_failed b_pdf (EACCES (docs // pdf_with_password)))
           {| fs := sealed_disk; opens := [(b_pdf, None)] |}).
  vm_compute. reflexivity.
Defined.

(** ** Whole runs *)

(** X18 at work: the sample run as a dry run. *)
Lemma main_dry_run_leaves_disk_witness :
  fs (@main unicodedata_fragment ascii_lower toy_logging toy_shell toy_pikepdf
        steady_device dry_options sample_world).2 = fs sample_world.
Proof.
  apply (@main_dry_run_leaves_disk unicodedata_fragment ascii_lower toy_logging
           toy_shell toy_pikepdf steady_device dry_options sample_world).
  reflexivity.
Defined.

(** X25 at work, and its other side.  With backups sent to "bak", the
    run keeps out of "pdf_with_password" and opens the three other
    documents of the nested disk, the one inside "bak" among them. *)
Lemma main_keeps_out_of_default_backup_directories_witness :
  exists l,
    opens (@main unicodedata_fragment ascii_lower toy_logging toy_shell
             toy_pikepdf steady_device
             bak_options {| fs := nested_disk; opens := [] |}).2 = [] ++ l
    /\ Forall (fun x => @to_find ascii_lower nested_disk (py "pdf_with_password")
                          docs x.1) l.
Proof.
  apply (@main_keeps_out_of_default_backup_directories unicodedata_fragment
           ascii_lower toy_logging toy_shell toy_pikepdf steady_device
           bak_options {| fs := nested_disk; opens := [] |} docs).
  reflexivity.
Defined.

Example main_opens_the_backups_of_another_name :
  opens (@main unicodedata_fragment ascii_lower toy_logging toy_shell
           toy_pikepdf steady_device
           bak_options {| fs := nested_disk; opens := [] |}).2
  = [(docs // py "bak" // py "d.pdf", None);
     (docs // py "bak" // py "d.pdf", Some (py "h"));
     (a_pdf, None);
     (docs // py "sub" // py "c.PDF", None);
     (docs // py "sub" // py "c.PDF", Some (py "h"))].
Proof. vm_compute. reflexivity. Qed.

(** ** The traversal *)

Example find_pdfs_nested :
  @scanner.find_pdfs ascii_lower nested_disk docs (py "pdf_with_password")
  = Return [docs // py "bak" // py "d.pdf"; a_pdf; docs // py "sub" // py "c.PDF"].
Proof. vm_compute. reflexivity. Qed.

Example find_pdfs_on_a_file :
  @scanner.find_pdfs ascii_lower nested_disk a_pdf (py "pdf_with_password")
  = Raise (ENOTDIR a_pdf).
Proof. vm_compute. reflexivity. Qed.

Lemma suffix_of_dotted_name_witness :
  suffix (py "archive.tar" ++ 0x2E :: py "pdf")
  = (if bool_decide (py "archive.tar" <> [] /\ py "pdf" <> [])
     then 0x2E :: py "pdf" else [])
  /\ suffix ([] ++ 0x2E :: py "pdf")
     = (if bool_decide (@nil N <> [] /\ py "pdf" <> [])
        then 0x2E :: py "pdf" else []).
Proof.
  split; apply suffix_of_dotted_name; vm_compute;
    intros Hin; repeat (apply elem_of_cons in Hin as [Hin|Hin]; [discriminate|]);
    by apply elem_of_nil in Hin.
Defined.

Example suffix_of_hidden_file : suffix (py ".pdf") = [].
Proof. vm_compute. reflexivity. Qed.

(** ** Wordlists *)

(** X23 at work: Unix and Windows terminators, the last line of the
    first reading without one. *)
Lemma wordlist_line_terminators_do_not_matter_witness :
  @_iter_from_dictionary unicodedata_fragment unix_wordlist wordlist_txt
  = @_iter_from_dictionary unicodedata_fragment windows_wordlist wordlist_txt.
Proof.
  apply (@wordlist_line_terminators_do_not_matter unicodedata_fragment
           unix_wordlist windows_wordlist wordlist_txt
           [py "alpha"; py "beta"] [[0x0A]; []] [CRLF; [0x0A]]);
    vm_compute; reflexivity.
Defined.
